(** * Binary cyclic codes: a shallow embedding of [cyclic_codes.h] and
      [cyclic_codes_2.h]

    Both headers define a class [CyclicCode] over [vector<uint>] matrices.
    The members [find_power], [hamming_distance], [is_code_word],
    [get_transpose], [encode_word] and the two loops of the constructor are
    the same text in both files and are embedded once; so are the loop that
    builds the cyclic shifts, the loop that computes one syndrome and the
    coset search, which [cyclic_codes.h] has inline in [decode_word] and
    [cyclic_codes_2.h] as members. The two [decode_word] bodies, the two
    records and what only one header has live in the modules [WeightBound]
    ([cyclic_codes.h], which accepts a syndrome by its weight) and [Burst]
    ([cyclic_codes_2.h], which accepts it by its burst length).

    Conventions of the embedding.
    - A [uint] is a [Z] in [0, 2^32); every [uint] addition, subtraction,
      multiplication and left shift is followed by [wrap].
    - [w >> i] is [Z.shiftr w i]. C++ defines it for [i < 32] only; the
      model reads the bits beyond the width as zero, and the theorems about
      the decoders assume a code length of at most 32.
    - A [vector<uint>] is a [list Z]; [v.at(i)] is [at_ v i], which fails
      with [out_of_range] like the C++ member does. An index such as
      [v.size() - 1 - i] is computed in [Z]; where the C++ [size_t] would
      wrap around, the model's index is negative and [at_] fails as well.
    - A counting [for] loop is a fold over the list of the values its counter
      takes; a loop [for (i = 0; i < v.size(); i++)] that only reads
      [v.at(i)] is a traversal of [v].  The [while] loops of the decoders
      are run by [while_loop], which takes fuel and counts the turns it
      makes.
    - What a decoder prints is kept as a list of [event]s, one per message
      block, without the rendering of words and matrices. *)

From Stdlib Require Import ZArith List Bool Lia FinFun Sorted.
From coqutil Require Import Z.bitblast.
Import ListNotations.
Local Open Scope Z_scope.

(** ** Machine integers and vectors *)

Definition UINT_MAX : Z := 2 ^ 32 - 1.

Definition wrap (x : Z) : Z := x mod 2 ^ 32.

(** [( w >> i ) & 1] *)
Definition bit (w i : Z) : Z := Z.land (Z.shiftr w i) 1.

(** [w << s] on a [uint] *)
Definition shl (w s : Z) : Z := wrap (Z.shiftl w s).

(** The values [a, a+1, ..., b-1] of a loop counter. *)
Definition range (a b : Z) : list Z :=
  map (fun i => a + Z.of_nat i) (seq 0 (Z.to_nat (b - a))).

Definition upto (n : Z) : list Z := range 0 n.

Definition size {A : Type} (v : list A) : Z := Z.of_nat (length v).

Inductive error : Type := out_of_range | out_of_fuel.

Inductive result (A : Type) : Type :=
| Ok (a : A)
| Err (e : error).

Arguments Ok {A} a.
Arguments Err {A} e.

Definition bind {A B : Type} (m : result A) (k : A -> result B) : result B :=
  match m with
  | Ok a => k a
  | Err e => Err e
  end.

Notation "x <- m ;; k" := (bind m (fun x => k))
  (at level 61, m at next level, right associativity).

(** [v.at(i)] *)
Definition at_ {A : Type} (v : list A) (i : Z) : result A :=
  if i <? 0 then Err out_of_range
  else match nth_error v (Z.to_nat i) with
       | Some a => Ok a
       | None => Err out_of_range
       end.

(** [v.at(i) = f(v.at(i))] *)
Fixpoint update_nth (v : list Z) (i : nat) (f : Z -> Z) : result (list Z) :=
  match v, i with
  | [], _ => Err out_of_range
  | x :: v', O => Ok (f x :: v')
  | x :: v', S i' => v'' <- update_nth v' i' f ;; Ok (x :: v'')
  end.

Definition update (v : list Z) (i : Z) (f : Z -> Z) : result (list Z) :=
  if i <? 0 then Err out_of_range else update_nth v (Z.to_nat i) f.

(** A loop whose body may throw. *)
Fixpoint for_each {A S : Type} (l : list A) (body : A -> S -> result S)
  (s : S) : result S :=
  match l with
  | [] => Ok s
  | x :: l' => s' <- body x s ;; for_each l' body s'
  end.

Fixpoint map_result {A B : Type} (f : A -> result B) (l : list A)
  : result (list B) :=
  match l with
  | [] => Ok []
  | x :: l' => y <- f x ;; ys <- map_result f l' ;; Ok (y :: ys)
  end.

(** [while (cond) body]: the final state and the number of iterations. *)
Fixpoint while_loop {S : Type} (cond : S -> bool) (body : S -> result S)
  (fuel : nat) (s : S) : result (S * nat) :=
  if cond s then
    match fuel with
    | O => Err out_of_fuel
    | Datatypes.S fuel' =>
        s' <- body s ;;
        r <- while_loop cond body fuel' s' ;;
        Ok (fst r, Datatypes.S (snd r))
    end
  else Ok (s, O).

(** ** Members shared by the two headers *)

(** [find_power], cyclic_codes.h:311 and cyclic_codes_2.h:344 *)
Definition find_power (base exponent : Z) : Z :=
  if exponent =? 0 then 1
  else fold_left (fun result _ => wrap (result * base)) (upto exponent) 1.

(** [hamming_distance], cyclic_codes.h:556 and cyclic_codes_2.h:564 *)
Definition hamming_distance (code_length first_word second_word : Z) : Z :=
  let places_differ := Z.lxor first_word second_word in
  fold_left (fun hamming_distance place_value =>
               wrap (hamming_distance + bit places_differ place_value))
            (upto code_length) 0.

(** The inner loop of [is_code_word]: one entry of [vector_product]. *)
Definition dot_product (code_length basis_vector word : Z) : Z :=
  fold_left (fun dot_product row =>
               let word_coordinate := bit word row in
               let basis_vector_coordinate := bit basis_vector row in
               let this_term := Z.land word_coordinate basis_vector_coordinate in
               Z.lxor dot_product this_term)
            (upto code_length) 0.

(** [is_code_word], cyclic_codes.h:238 and cyclic_codes_2.h:271 *)
Definition is_code_word (parity_check : list Z) (code_length word : Z) : bool :=
  let vector_product :=
    map (fun basis_vector => dot_product code_length basis_vector word)
        parity_check in
  fold_left (fun is_word v => if negb (v =? 0) then false else is_word)
            vector_product true.

(** [get_transpose], cyclic_codes.h:274 and cyclic_codes_2.h:307 *)
Definition get_transpose (matrix : list Z) (code_length : Z)
  : result (list Z) :=
  let matrix_transpose := map (fun _ => 0) (rev (range 1 (code_length + 1))) in
  let num_code_words := wrap (size matrix) in
  for_each (upto (size matrix))
    (fun old_row matrix_transpose =>
       this_old_row <- at_ matrix old_row ;;
       for_each (rev (upto code_length))
         (fun col matrix_transpose =>
            let new_row := wrap (wrap (code_length - col) - 1) in
            let place_holder := bit this_old_row col in
            let place_value := wrap (wrap (num_code_words - old_row) - 1) in
            if place_holder =? 1
            then update matrix_transpose new_row
                   (fun x => wrap (x + find_power 2 place_value))
            else Ok matrix_transpose)
         matrix_transpose)
    matrix_transpose.

(** [encode_word], cyclic_codes.h:328 and cyclic_codes_2.h:361 *)
Definition encode_word (generator : list Z) (word : Z) : result Z :=
  for_each (upto (size generator))
    (fun place_value encoded_word =>
       if bit word place_value =? 1
       then g <- at_ generator (size generator - 1 - place_value) ;;
            Ok (Z.lxor encoded_word g)
       else Ok encoded_word)
    0.

(** The first loop of the constructor: the code words. *)
Definition enumerate_code_words (parity_check : list Z) (code_length : Z)
  : list Z :=
  filter (is_code_word parity_check code_length)
         (upto (find_power 2 code_length)).

(** The second loop of the constructor: the minimum distance. *)
Definition minimum_distance (code_length : Z) (code_words : list Z) : Z :=
  fold_left (fun distance word =>
               if 0 <? word
               then let word_weight := hamming_distance code_length 0 word in
                    if word_weight <? distance then word_weight else distance
               else distance)
            code_words UINT_MAX.

(** The positions below [word_length] of the set bits of [word], ascending:
    the vector [bit_place_values]. *)
Definition bit_place_values (word word_length : Z) : list Z :=
  filter (fun i => bit word i =? 1) (upto word_length).

(** The word with the bits of [place_values]:
    [for (uint pv : place_values) w += find_power(2, pv)]. *)
Definition word_of_place_values (place_values : list Z) : Z :=
  fold_left (fun cyclic_shift place_value =>
               wrap (cyclic_shift + find_power 2 place_value))
            place_values 0.

(** The cyclic shifts of [word]: cyclic_codes.h:353-382 (inline in
    [decode_word]) and [get_cyclic_shifts], cyclic_codes_2.h:577. *)
Definition get_cyclic_shifts (word word_length : Z) : list Z :=
  snd (fold_left
         (fun (st : list Z * list Z) (_ : Z) =>
            let bit_place_values :=
              map (fun pv => wrap (pv + 1) mod word_length) (fst st) in
            let cyclic_shift := word_of_place_values bit_place_values in
            (bit_place_values, snd st ++ [cyclic_shift]))
         (range 1 word_length)
         (bit_place_values word word_length, [word])).

(** The syndrome of one shifted word: the loop over [place_value] at
    cyclic_codes.h:390-400 and cyclic_codes_2.h:630-640. *)
Definition syndrome (parity_transpose : list Z) (shifted_word : Z)
  : result Z :=
  for_each (upto (size parity_transpose))
    (fun place_value syndrome =>
       if bit shifted_word place_value =? 1
       then t <- at_ parity_transpose
                   (size parity_transpose - 1 - place_value) ;;
            Ok (Z.lxor syndrome t)
       else Ok syndrome)
    0.

(** The coset search, cyclic_codes.h:449-486 (inline in [decode_word]) and
    [nearest_neighbor], cyclic_codes_2.h:681 (which also prints a line). *)
Definition nearest_neighbor_search (code_words : list Z) (code_length : Z)
  (received_word : Z) : result Z :=
  let received_word_coset :=
    map (fun code_word => Z.lxor received_word code_word) code_words in
  error_word <- at_ received_word_coset 0 ;;
  let least_hw := UINT_MAX in
  let st :=
    fold_left (fun (st : Z * Z) coset_word =>
                 let this_hw := hamming_distance code_length 0 coset_word in
                 if this_hw <? fst st then (this_hw, coset_word) else st)
              received_word_coset (least_hw, error_word) in
  Ok (Z.lxor received_word (snd st)).

(** What the decoders write to the console. *)
Inductive event : Type :=
| diagnostics            (* the dump printed when the self-check fails *)
| no_syndrome_found      (* "no syndrome found." *)
| failed_to_decode       (* "Word ... --failed to decode." *)
| decoded_successfully   (* "Word ... --decoded successfully." *)
| used_nn_decoding.      (* "used NN decoding" *)

(** ** cyclic_codes.h *)

Module WeightBound.

Record CyclicCode : Type := {
  generator : list Z;
  parity_check : list Z;
  code_words : list Z;
  code_length : Z;
  min_distance : Z
}.

(** The constructor, cyclic_codes.h:127 *)
Definition new (param_generator param_parity_check : list Z)
  (param_code_length : Z) : CyclicCode :=
  let code_words :=
    enumerate_code_words param_parity_check param_code_length in
  {| generator := param_generator;
     parity_check := param_parity_check;
     code_words := code_words;
     code_length := param_code_length;
     min_distance := minimum_distance param_code_length code_words |}.

(** The syndromes of the cyclic shifts, cyclic_codes.h:353-402 *)
Definition syndromes_of (c : CyclicCode) (received_word : Z)
  : result (list Z) :=
  let received_cyclic_shifts :=
    get_cyclic_shifts received_word (code_length c) in
  parity_transpose <- get_transpose (parity_check c) (code_length c) ;;
  map_result (syndrome parity_transpose) received_cyclic_shifts.

Definition bound (c : CyclicCode) : Z := wrap (min_distance c - 1) / 2.

(** The search loop, cyclic_codes.h:427-442; the state is
    [(found_syndrome, which_syndrome)]. *)
Definition search_cond (syndromes : list Z) (st : bool * Z) : bool :=
  negb (fst st) && (snd st <? size syndromes).

Definition search_body (c : CyclicCode) (syndromes : list Z)
  (st : bool * Z) : result (bool * Z) :=
  s <- at_ syndromes (snd st) ;;
  if hamming_distance (code_length c) 0 s <=? bound c
  then Ok (true, snd st)
  else Ok (fst st, wrap (snd st + 1)).

(** The relocation of the light syndrome, cyclic_codes.h:499-522 *)
Definition shift_syndrome (c : CyclicCode) (light_syndrome which_syndrome : Z)
  : Z :=
  let shift_amount := wrap (code_length c - which_syndrome) in
  let syndrome_bit_place_values :=
    bit_place_values light_syndrome (code_length c) in
  let syndrome_bit_place_values :=
    map (fun pv => wrap (pv + shift_amount) mod code_length c)
        syndrome_bit_place_values in
  word_of_place_values syndrome_bit_place_values.

(** [decode_word], cyclic_codes.h:349 *)
Definition decode_word (c : CyclicCode) (fuel : nat) (received_word : Z)
  : result (Z * list event) :=
  syndromes <- syndromes_of c received_word ;;
  r <- while_loop (search_cond syndromes) (search_body c syndromes) fuel
         (false, 0) ;;
  let found_syndrome := fst (fst r) in
  let which_syndrome := snd (fst r) in
  if negb found_syndrome
  then decoded_word <- nearest_neighbor_search (code_words c) (code_length c)
                         received_word ;;
       Ok (decoded_word, [])
  else
    light_syndrome <- at_ syndromes which_syndrome ;;
    let light_syndrome :=
      shl light_syndrome (code_length c - size (parity_check c)) in
    let shifted_syndrome := shift_syndrome c light_syndrome which_syndrome in
    let decoded_word := Z.lxor received_word shifted_syndrome in
    Ok (decoded_word,
        if negb (is_code_word (parity_check c) (code_length c) decoded_word)
        then [diagnostics] else []).

End WeightBound.

(** ** cyclic_codes_2.h *)

Module Burst.

Record CyclicCode : Type := {
  generator : list Z;
  parity_check : list Z;
  code_words : list Z;
  code_length : Z;
  min_distance : Z;
  max_burst_length : Z
}.

(** The constructor, cyclic_codes_2.h:157 *)
Definition new (param_generator param_parity_check : list Z)
  (param_code_length : Z) : CyclicCode :=
  let code_words :=
    enumerate_code_words param_parity_check param_code_length in
  {| generator := param_generator;
     parity_check := param_parity_check;
     code_words := code_words;
     code_length := param_code_length;
     min_distance := minimum_distance param_code_length code_words;
     max_burst_length := 3 |}.

(** The reordering of the shifts, cyclic_codes_2.h:618-623 (and 394-399):
    [at(0)], then [at(size-1)] down to [at(1)]. *)
Definition reorder (cyclic_shifts : list Z) : result (list Z) :=
  first <- at_ cyclic_shifts 0 ;;
  for_each (rev (range 1 (size cyclic_shifts)))
    (fun i received_cyclic_shifts =>
       x <- at_ cyclic_shifts i ;;
       Ok (received_cyclic_shifts ++ [x]))
    [first].

(** [get_syndromes], cyclic_codes_2.h:611 *)
Definition get_syndromes (c : CyclicCode) (received_word : Z)
  : result (list Z) :=
  let cyclic_shifts := get_cyclic_shifts received_word (code_length c) in
  received_cyclic_shifts <- reorder cyclic_shifts ;;
  parity_transpose <- get_transpose (parity_check c) (code_length c) ;;
  map_result (syndrome parity_transpose) received_cyclic_shifts.

(** [get_burst_length], cyclic_codes_2.h:646 *)
Definition get_burst_length (syndrome syndrome_length : Z) : result Z :=
  let cyclic_shifts := get_cyclic_shifts syndrome syndrome_length in
  for_each cyclic_shifts
    (fun shifted burst_length =>
       let bit_place_values := bit_place_values shifted syndrome_length in
       if negb (match bit_place_values with [] => true | _ => false end)
       then
         largest_pv <- at_ bit_place_values (size bit_place_values - 1) ;;
         smallest_pv <- at_ bit_place_values 0 ;;
         let this_burst_length := wrap (wrap (largest_pv - smallest_pv) + 1) in
         Ok (if this_burst_length <? burst_length
             then this_burst_length else burst_length)
       else Ok 0)
    UINT_MAX.

(** [nearest_neighbor], cyclic_codes_2.h:681 *)
Definition nearest_neighbor (c : CyclicCode) (received_word : Z)
  : result (Z * list event) :=
  decoded_word <- nearest_neighbor_search (code_words c) (code_length c)
                    received_word ;;
  Ok (decoded_word, [used_nn_decoding]).

(** The state of the search, cyclic_codes_2.h:452-456 *)
Record search : Type := {
  found_syndrome : bool;
  light_syndrome : Z;
  light_syndrome_pos : Z;
  which_syndrome : Z;
  desired_burst_length : Z
}.

(** The inner loop, cyclic_codes_2.h:459-470 *)
Definition scan_cond (syndromes : list Z) (st : search) : bool :=
  negb (found_syndrome st) && (which_syndrome st <? size syndromes).

Definition scan_body (syndromes syndrome_burst_lengths : list Z)
  (st : search) : result search :=
  syndrome_burst <- at_ syndrome_burst_lengths (which_syndrome st) ;;
  st' <- (if syndrome_burst =? desired_burst_length st
          then s <- at_ syndromes (which_syndrome st) ;;
               Ok {| found_syndrome := true;
                     light_syndrome := s;
                     light_syndrome_pos := which_syndrome st;
                     which_syndrome := which_syndrome st;
                     desired_burst_length := desired_burst_length st |}
          else Ok st) ;;
  Ok {| found_syndrome := found_syndrome st';
        light_syndrome := light_syndrome st';
        light_syndrome_pos := light_syndrome_pos st';
        which_syndrome := wrap (which_syndrome st' + 1);
        desired_burst_length := desired_burst_length st' |}.

(** The outer loop, cyclic_codes_2.h:457-473 *)
Definition search_cond (st : search) : bool :=
  negb (desired_burst_length st =? UINT_MAX).

Definition search_body (syndromes syndrome_burst_lengths : list Z)
  (fuel : nat) (st : search) : result search :=
  r <- while_loop (scan_cond syndromes)
         (scan_body syndromes syndrome_burst_lengths) fuel st ;;
  let st' := fst r in
  Ok {| found_syndrome := found_syndrome st';
        light_syndrome := light_syndrome st';
        light_syndrome_pos := light_syndrome_pos st';
        which_syndrome := 0;
        desired_burst_length := wrap (desired_burst_length st' - 1) |}.

Definition search_init (c : CyclicCode) : search :=
  {| found_syndrome := false;
     light_syndrome := 0;
     light_syndrome_pos := 0;
     which_syndrome := 0;
     desired_burst_length := max_burst_length c |}.

(** One turn of the rotation loop, cyclic_codes_2.h:501-511 *)
Definition rotate_step (code_length light_syndrome : Z) : Z :=
  let bit_wrap := Z.land light_syndrome 1 =? 1 in
  let light_syndrome := Z.shiftr light_syndrome 1 in
  if bit_wrap
  then wrap (light_syndrome + find_power 2 (wrap (code_length - 1)))
  else light_syndrome.

(** The rotation loop, cyclic_codes_2.h:499-512 *)
Definition shift_syndrome (code_length light_syndrome shift_amount : Z) : Z :=
  fold_left (fun light_syndrome _ => rotate_step code_length light_syndrome)
            (range 1 (shift_amount + 1)) light_syndrome.

(** [decode_word], cyclic_codes_2.h:382 *)
Definition decode_word (c : CyclicCode) (fuel : nat) (received_word : Z)
  : result (Z * list event) :=
  let cyclic_shifts := get_cyclic_shifts received_word (code_length c) in
  received_cyclic_shifts <- reorder cyclic_shifts ;;
  syndromes <- get_syndromes c received_word ;;
  syndrome_burst_lengths <-
    map_result (fun s => get_burst_length s (wrap (size (parity_check c))))
               syndromes ;;
  r <- while_loop search_cond
         (search_body syndromes syndrome_burst_lengths fuel) fuel
         (search_init c) ;;
  let st := fst r in
  if negb (found_syndrome st)
  then Ok (received_word, [no_syndrome_found; failed_to_decode])
  else
    let light_syndrome :=
      shl (light_syndrome st) (code_length c - size (parity_check c)) in
    let shift_amount := wrap (code_length c - light_syndrome_pos st) in
    let shifted_syndrome :=
      shift_syndrome (code_length c) light_syndrome shift_amount in
    let decoded_word := Z.lxor received_word shifted_syndrome in
    Ok (decoded_word,
        (if negb (is_code_word (parity_check c) (code_length c) decoded_word)
         then [diagnostics] else [])
        ++ (if is_code_word (parity_check c) (code_length c) decoded_word
            then [decoded_successfully] else [failed_to_decode])).

End Burst.

(** ** Printing *)

(** What the printing members write to [cout], one token per [<<]. *)
Inductive token : Type :=
| the_generator_matrix      (* "the generator matrix" *)
| the_parity_check_matrix   (* "the parity check matrix" *)
| the_code_words_are        (* "The code words are: " *)
| space                     (* " " *)
| num_code_words            (* "num code words: " *)
| number (n : Z)            (* a [uint] or a size, in decimal *)
| endl.

(** The two loops that [print_matrix] and [print_word_bitwise] share,
    cyclic_codes.h:181-191 and 200-210 (cyclic_codes_2.h:214-224 and
    233-243): the bits below [code_length] are collected, then printed by a
    counter that runs down from [code_length - 1] and stops when it has
    wrapped around to [UINT_MAX]. The state of the loop is the counter and
    the output so far. *)
Definition print_bits (fuel : nat) (code_length word : Z)
  : result (list token) :=
  let code_word_bitwise := map (fun j => bit word j) (upto code_length) in
  r <- while_loop (fun st : Z * list token => fst st <? UINT_MAX)
         (fun st =>
            this_bit <- at_ code_word_bitwise (fst st) ;;
            Ok (wrap (fst st - 1), snd st ++ [number this_bit]))
         fuel (wrap (code_length - 1), []) ;;
  Ok (snd (fst r)).

(** [print_word_bitwise], cyclic_codes.h:197 and cyclic_codes_2.h:230 *)
Definition print_word_bitwise (fuel : nat) (code_length word : Z)
  : result (list token) :=
  out <- print_bits fuel code_length word ;;
  Ok (out ++ [endl]).

(** [print_matrix], cyclic_codes.h:174 and cyclic_codes_2.h:207 *)
Definition print_matrix (fuel : nat) (matrix : list Z) (code_length : Z)
  : result (list token) :=
  out <- for_each (upto (size matrix))
           (fun i out =>
              this_code_word <- at_ matrix i ;;
              line <- print_bits fuel code_length this_code_word ;;
              Ok (out ++ line ++ [endl]))
           [] ;;
  Ok (out ++ [endl]).

(** [print_generator], cyclic_codes.h:214 and cyclic_codes_2.h:247 *)
Definition print_generator (fuel : nat) (generator : list Z) (code_length : Z)
  : result (list token) :=
  out <- print_matrix fuel generator code_length ;;
  Ok ([the_generator_matrix; endl] ++ out).

(** [print_parity_check], cyclic_codes.h:220 and cyclic_codes_2.h:253 *)
Definition print_parity_check (fuel : nat) (parity_check : list Z)
  (code_length : Z) : result (list token) :=
  out <- print_matrix fuel parity_check code_length ;;
  Ok ([the_parity_check_matrix; endl] ++ out).

(** [print_words], cyclic_codes.h:226 and cyclic_codes_2.h:259 *)
Definition print_words (fuel : nat) (code_words : list Z) (code_length : Z)
  : result (list token) :=
  out <- for_each (upto (size code_words))
           (fun i out =>
              word <- at_ code_words i ;;
              word' <- at_ code_words i ;;
              line <- print_word_bitwise fuel code_length word' ;;
              Ok (out ++ [number word; space] ++ line))
           [the_code_words_are; endl] ;;
  Ok (out ++ [endl; num_code_words; number (size code_words); endl]).

(** ** What the specification calls things *)

(** The XOR (sum over GF(2)) of a list of words. *)
Definition xor_all (l : list Z) : Z := fold_right Z.lxor 0 l.

(** The generator rows that a message selects: bit [i] of the message selects
    row [k - 1 - i]. *)
Definition selected_rows (generator : list Z) (message : Z) : list Z :=
  map (fun i => nth (Z.to_nat (size generator - 1 - i)) generator 0)
      (filter (fun i => Z.testbit message i) (upto (size generator))).

(** One turn of the encoder's loop, once the access is known to succeed. *)
Definition encode_step (generator : list Z) (word acc i : Z) : Z :=
  if Z.testbit word i
  then Z.lxor acc (nth (Z.to_nat (size generator - 1 - i)) generator 0)
  else acc.

(** The parity of a list of bits. *)
Definition odd_count (l : list bool) : bool := fold_right xorb false l.

(** The GF(2) dot product of the low [n] bits of two words. *)
Definition dotb (n h w : Z) : bool :=
  odd_count (map (fun i => Z.testbit w i && Z.testbit h i) (upto n)).

(** The XOR of every subset of the rows of a matrix, the empty one first. *)
Fixpoint row_combinations (rows : list Z) : list Z :=
  match rows with
  | [] => [0]
  | h :: rows' =>
      row_combinations rows' ++ map (Z.lxor h) (row_combinations rows')
  end.

(** A word whose low [n] bits are all zero. *)
Definition vanishing (n s : Z) : bool := s mod 2 ^ n =? 0.

(** The rows are linearly independent as vectors of [n] bits: only the empty
    combination of rows vanishes. *)
Definition independent_rows (n : Z) (rows : list Z) : bool :=
  (length (filter (vanishing n) (row_combinations rows)) =? 1)%nat.

(** The sign [(-1)^(v . w)]. *)
Definition chi (n v w : Z) : Z := if dotb n v w then -1 else 1.

Definition sumZ (l : list Z) : Z := fold_right Z.add 0 l.

Definition prodZ (l : list Z) : Z := fold_right Z.mul 1 l.

(** Cyclic rotation of the low [m] bits of [w] to the left by [a] positions,
    [0 <= a <= m]: the bit at position [p] moves to [(p + a) mod m]. *)
Definition rotate_left (m a w : Z) : Z :=
  Z.lor (Z.land (Z.shiftl w a) (Z.ones m))
        (Z.shiftr (Z.land w (Z.ones m)) (m - a)).

(** Cyclic rotation of the low [m] bits of [w] to the right by [a]
    positions, [0 <= a <= m]: the bit at position [p] moves to
    [(p - a) mod m], the bits leaving at the bottom entering at the top. *)
Definition rotate_right (m a w : Z) : Z :=
  Z.lor (Z.shiftr (Z.land w (Z.ones m)) a)
        (Z.land (Z.shiftl w (m - a)) (Z.ones m)).

(** Row [new_row] of the transpose that [get_transpose] builds: the sum of
    the powers [2^(r - old_row - 1)] over the rows of the matrix that have the
    bit of column [code_length - 1 - new_row]. *)
Definition transpose_row (matrix : list Z) (code_length new_row : Z) : Z :=
  word_of_place_values
    (map (fun old_row => wrap (wrap (wrap (size matrix) - old_row) - 1))
         (filter (fun old_row =>
                    bit (nth (Z.to_nat old_row) matrix 0)
                        (code_length - 1 - new_row) =? 1)
                 (upto (size matrix)))).

(** The value of the syndrome loop on a word, for the transpose of a
    parity-check matrix. *)
Definition syndrome_of_word (parity_check : list Z) (code_length w : Z) : Z :=
  xor_all (selected_rows
             (map (transpose_row parity_check code_length) (upto code_length))
             w).

(** The index, counted from [j], of the first element of a list that
    satisfies [p]. *)
Fixpoint find_from (p : Z -> bool) (l : list Z) (j : Z) : option Z :=
  match l with
  | [] => None
  | x :: l' => if p x then Some j else find_from p l' (j + 1)
  end.

(** The index that a search through the desired lengths
    [desired, desired - 1, ..., 0] selects: for the largest length that
    some entry has, the first entry that has it. *)
Fixpoint burst_search (burst_lengths : list Z) (desired : nat) : option Z :=
  match find_from (Z.eqb (Z.of_nat desired)) burst_lengths 0 with
  | Some i => Some i
  | None =>
      match desired with
      | O => None
      | S desired' => burst_search burst_lengths desired'
      end
  end.

(** The value of [get_burst_length] (it never throws). *)
Definition burst_length_of (syndrome syndrome_length : Z) : Z :=
  match Burst.get_burst_length syndrome syndrome_length with
  | Ok b => b
  | Err _ => 0
  end.

(** A state of the search of the burst decoder. *)
Definition scan_state (found : bool) (light pos which desired : Z)
  : Burst.search :=
  {| Burst.found_syndrome := found;
     Burst.light_syndrome := light;
     Burst.light_syndrome_pos := pos;
     Burst.which_syndrome := which;
     Burst.desired_burst_length := desired |}.

(** The syndromes that [get_syndromes] returns, and their burst lengths. *)
Definition burst_syndromes (c : Burst.CyclicCode) (received_word : Z)
  : list Z :=
  map (syndrome_of_word (Burst.parity_check c) (Burst.code_length c))
      (received_word
         :: rev (tl (get_cyclic_shifts received_word (Burst.code_length c)))).

Definition burst_lengths_of (c : Burst.CyclicCode) (received_word : Z)
  : list Z :=
  map (fun s => burst_length_of s (wrap (size (Burst.parity_check c))))
      (burst_syndromes c received_word).

(** What [decode_word] of [cyclic_codes_2.h] prints after its self-check. *)
Definition burst_events (c : Burst.CyclicCode) (decoded_word : Z)
  : list event :=
  (if negb (is_code_word (Burst.parity_check c) (Burst.code_length c)
              decoded_word)
   then [diagnostics] else [])
  ++ (if is_code_word (Burst.parity_check c) (Burst.code_length c)
           decoded_word
      then [decoded_successfully] else [failed_to_decode]).

(** The code is cyclic: the rotation by one position of every code word is a
    code word. *)
Definition cyclic_code (parity_check : list Z) (code_length : Z) : Prop :=
  forall w,
    is_code_word parity_check code_length w = true ->
    is_code_word parity_check code_length (rotate_left code_length 1 w) = true.

(** The same, checked on the words of the code book. *)
Definition closed_under_rotation (parity_check : list Z) (code_length : Z)
  (code_words : list Z) : bool :=
  forallb (fun w => is_code_word parity_check code_length
                      (rotate_left code_length 1 w))
          code_words.

(** The distance from the lowest to the highest set bit below
    [word_length], both included; 0 when no bit is set. *)
Definition span (word word_length : Z) : Z :=
  match bit_place_values word word_length with
  | [] => 0
  | p :: l => last l p - p + 1
  end.

(** The bits of a word below [n] as digits, the highest first. *)
Definition digits (n word : Z) : list Z :=
  map (fun i => Z.b2z (Z.testbit word i)) (rev (upto n)).

(** The number that a list of binary digits denotes, the highest first. *)
Definition binary_value (digits : list Z) : Z :=
  fold_left (fun acc d => 2 * acc + d) digits 0.

(** * Proofs *)

(** ** Loop counters *)

Lemma range_nil a b : b <= a -> range a b = [].
Proof.
  intros H. unfold range. replace (Z.to_nat (b - a)) with O by lia. reflexivity.
Qed.

Lemma range_cons a b : a < b -> range a b = a :: range (a + 1) b.
Proof.
  intros H. unfold range.
  replace (Z.to_nat (b - a)) with (S (Z.to_nat (b - (a + 1)))) by lia.
  cbn [seq map]. f_equal; [lia|].
  rewrite <- seq_shift, map_map. apply map_ext. intros; lia.
Qed.

Lemma range_snoc a b : a <= b -> range a (b + 1) = range a b ++ [b].
Proof.
  intros H. unfold range.
  replace (Z.to_nat (b + 1 - a)) with (Z.to_nat (b - a) + 1)%nat by lia.
  rewrite seq_app, map_app. cbn [seq map Nat.add]. do 2 f_equal. lia.
Qed.

Lemma upto_snoc n : 0 <= n -> upto (n + 1) = upto n ++ [n].
Proof. apply range_snoc. Qed.

Lemma in_range a b x : In x (range a b) <-> a <= x < b.
Proof.
  unfold range. rewrite in_map_iff. split.
  - intros (i & <- & Hi). apply in_seq in Hi. lia.
  - intros H. exists (Z.to_nat (x - a)). split; [lia|]. apply in_seq. lia.
Qed.

Lemma in_upto n x : In x (upto n) <-> 0 <= x < n.
Proof. apply in_range. Qed.

Lemma range_length a b : length (range a b) = Z.to_nat (b - a).
Proof. unfold range. now rewrite length_map, length_seq. Qed.

Lemma nth_error_range a b (i : nat) :
  (i < Z.to_nat (b - a))%nat -> nth_error (range a b) i = Some (a + Z.of_nat i).
Proof.
  intros H. unfold range. rewrite nth_error_map, nth_error_seq.
  destruct (Nat.ltb_spec i (Z.to_nat (b - a))); [reflexivity | lia].
Qed.

Lemma range_NoDup a b : NoDup (range a b).
Proof.
  unfold range. apply Injective_map_NoDup; [|apply seq_NoDup].
  intros x y. lia.
Qed.

(** ** Bits and powers *)

Lemma bit_b2z w i : 0 <= i -> bit w i = Z.b2z (Z.testbit w i).
Proof.
  intros H. unfold bit.
  change 1 with (Z.ones 1). rewrite Z.land_ones by lia.
  rewrite <- Z.bit0_mod, Z.shiftr_spec by lia. reflexivity.
Qed.

Lemma bit_eqb_1 w i : 0 <= i -> (bit w i =? 1) = Z.testbit w i.
Proof. intros H. rewrite bit_b2z by exact H. now destruct (Z.testbit w i). Qed.

Lemma find_power_loop (k : nat) :
  fold_left (fun result _ => wrap (result * 2)) (upto (Z.of_nat k)) 1
  = 2 ^ Z.of_nat k mod 2 ^ 32.
Proof.
  induction k as [|k IH].
  - reflexivity.
  - rewrite Nat2Z.inj_succ, <- Z.add_1_r, upto_snoc, fold_left_app by lia.
    cbn [fold_left]. rewrite IH. unfold wrap.
    rewrite Z.mul_mod_idemp_l by lia.
    now rewrite Z.pow_add_r by lia.
Qed.

Lemma find_power_2 e : 0 <= e -> find_power 2 e = 2 ^ e mod 2 ^ 32.
Proof.
  intros H. unfold find_power. destruct (Z.eqb_spec e 0) as [->|Hne].
  - reflexivity.
  - rewrite <- (Z2Nat.id e) by exact H. apply find_power_loop.
Qed.

Lemma find_power_2_small e : 0 <= e < 32 -> find_power 2 e = 2 ^ e.
Proof.
  intros H. rewrite find_power_2 by lia. apply Z.mod_small. split.
  - apply Z.pow_nonneg; lia.
  - apply Z.pow_lt_mono_r; lia.
Qed.

(** ** Vectors and loops *)

Lemma at_nth {A} (v : list A) (i : Z) (d : A) :
  0 <= i < size v -> at_ v i = Ok (nth (Z.to_nat i) v d).
Proof.
  intros H. unfold at_, size in *.
  destruct (Z.ltb_spec i 0); [lia|].
  rewrite (nth_error_nth' v d) by lia. reflexivity.
Qed.

Lemma at_nth_error {A} (v : list A) (i : nat) :
  at_ v (Z.of_nat i) = match nth_error v i with
                       | Some a => Ok a
                       | None => Err out_of_range
                       end.
Proof.
  unfold at_. destruct (Z.ltb_spec (Z.of_nat i) 0); [lia|].
  now rewrite Nat2Z.id.
Qed.

Lemma for_each_app {A S} (l1 l2 : list A) (body : A -> S -> result S) s :
  for_each (l1 ++ l2) body s = (s' <- for_each l1 body s ;; for_each l2 body s').
Proof.
  revert s. induction l1 as [|x l1 IH]; intros s; cbn; [reflexivity|].
  destruct (body x s); cbn; [apply IH | reflexivity].
Qed.

(** A loop whose body never throws is a fold. *)
Lemma for_each_fold {A S} (l : list A) (body : A -> S -> result S)
  (f : S -> A -> S) s :
  (forall x s, In x l -> body x s = Ok (f s x)) ->
  for_each l body s = Ok (fold_left f l s).
Proof.
  revert s. induction l as [|x l IH]; intros s H; cbn; [reflexivity|].
  rewrite H by now left. cbn. apply IH. intros; apply H; now right.
Qed.

Lemma filter_none {A} (f : A -> bool) (l : list A) :
  (forall x, In x l -> f x = false) -> filter f l = [].
Proof.
  induction l as [|x l IH]; intros H; cbn; [reflexivity|].
  rewrite H by now left. apply IH. intros; apply H; now right.
Qed.

(** ** The encoder *)

(** The body of the encoder's loop never throws. *)
Lemma encode_body generator word place_value encoded_word :
  In place_value (upto (size generator)) ->
  (if bit word place_value =? 1
   then g <- at_ generator (size generator - 1 - place_value) ;;
        Ok (Z.lxor encoded_word g)
   else Ok encoded_word)
  = Ok (if Z.testbit word place_value
        then Z.lxor encoded_word
               (nth (Z.to_nat (size generator - 1 - place_value)) generator 0)
        else encoded_word).
Proof.
  intros H. apply in_upto in H. rewrite bit_eqb_1 by lia.
  destruct (Z.testbit word place_value); [|reflexivity].
  rewrite (at_nth _ _ 0) by lia. reflexivity.
Qed.

Lemma encode_word_fold generator word :
  encode_word generator word
  = Ok (fold_left (encode_step generator word) (upto (size generator)) 0).
Proof.
  unfold encode_word. apply for_each_fold. intros x s Hx.
  now rewrite encode_body.
Qed.

Lemma encode_fold_xor_all generator word (l : list Z) acc :
  fold_left (encode_step generator word) l acc
  = Z.lxor acc
      (xor_all (map (fun i => nth (Z.to_nat (size generator - 1 - i)) generator 0)
                    (filter (fun i => Z.testbit word i) l))).
Proof.
  revert acc. induction l as [|i l IH]; intros acc; cbn [fold_left filter].
  - cbn. now rewrite Z.lxor_0_r.
  - rewrite IH. unfold encode_step.
    destruct (Z.testbit word i); cbn [map xor_all fold_right].
    + now rewrite Z.lxor_assoc.
    + reflexivity.
Qed.

(** C7. For every message, [encode_word] returns the XOR of exactly the
    generator rows at index [k - 1 - i] for the set bits [i] of the message
    below [k] (it never throws); so the message [1] is encoded as the last
    row of the generator. *)
Theorem encode_word_reversed_rows :
  forall generator message,
    encode_word generator message
    = Ok (xor_all (selected_rows generator message))
    /\ (generator <> [] -> encode_word generator 1 = Ok (last generator 0)).
Proof.
  intros generator message. split.
  - rewrite encode_word_fold, encode_fold_xor_all. now rewrite Z.lxor_0_l.
  - intros Hne. rewrite encode_word_fold, encode_fold_xor_all, Z.lxor_0_l.
    f_equal. unfold upto.
    rewrite range_cons
      by (unfold size; destruct generator; [congruence | cbn [length]; lia]).
    cbn [filter]. change (Z.testbit 1 0) with true. cbn [map xor_all fold_right].
    replace (filter (fun i => Z.testbit 1 i) (range (0 + 1) (size generator)))
      with (@nil Z).
    + cbn [map fold_right]. rewrite Z.lxor_0_r.
      destruct (@exists_last _ generator Hne) as (l' & a & ->).
      rewrite last_last. unfold size. rewrite length_app. cbn [length].
      replace (Z.to_nat (Z.of_nat (length l' + 1) - 1 - 0)) with (length l') by lia.
      now rewrite nth_middle.
    + symmetry. apply filter_none. intros x Hx. apply in_range in Hx.
      rewrite Z.bits_above_log2; [reflexivity | lia | cbn; lia].
Qed.

(** Equations between XORs of words, bit by bit. *)
Ltac xor_ring :=
  apply Z.bits_inj'; intros ?k ?Hk; rewrite ?Z.lxor_spec, ?Z.bits_0;
  repeat match goal with
         | |- context [Z.testbit ?a ?k] => destruct (Z.testbit a k)
         end;
  reflexivity.

Lemma xor_all_selected_lxor (f : Z -> Z) a b (l : list Z) :
  xor_all (map f (filter (fun i => Z.testbit (Z.lxor a b) i) l))
  = Z.lxor (xor_all (map f (filter (fun i => Z.testbit a i) l)))
           (xor_all (map f (filter (fun i => Z.testbit b i) l))).
Proof.
  induction l as [|i l IH]; cbn [filter]; [reflexivity|].
  rewrite Z.lxor_spec.
  destruct (Z.testbit a i), (Z.testbit b i); cbn [xorb map xor_all fold_right];
    fold (xor_all (map f (filter (fun i => Z.testbit (Z.lxor a b) i) l)));
    fold (xor_all (map f (filter (fun i => Z.testbit a i) l)));
    fold (xor_all (map f (filter (fun i => Z.testbit b i) l)));
    rewrite IH; xor_ring.
Qed.

Lemma encode_word_value generator word :
  encode_word generator word = Ok (xor_all (selected_rows generator word)).
Proof.
  rewrite encode_word_fold, encode_fold_xor_all. now rewrite Z.lxor_0_l.
Qed.

(** C10. [encode_word] is linear over GF(2): for every generator matrix and
    all messages [a] and [b], the three encodings succeed and
    [encode_word (a XOR b) = encode_word a XOR encode_word b]; the zero
    message is encoded as the zero word. *)
Theorem encode_word_linear :
  forall generator a b,
    (exists ea eb,
        encode_word generator a = Ok ea /\
        encode_word generator b = Ok eb /\
        encode_word generator (Z.lxor a b) = Ok (Z.lxor ea eb))
    /\ encode_word generator 0 = Ok 0.
Proof.
  intros generator a b. split.
  - exists (xor_all (selected_rows generator a)),
           (xor_all (selected_rows generator b)).
    rewrite !encode_word_value. repeat split.
    unfold selected_rows. now rewrite xor_all_selected_lxor.
  - rewrite encode_word_value. unfold selected_rows.
    rewrite filter_none; [reflexivity|]. intros x _. apply Z.bits_0.
Qed.

(** ** Membership *)

Lemma dot_product_fold h w (l : list Z) (acc : bool) :
  (forall i, In i l -> 0 <= i) ->
  fold_left (fun dot_product row =>
               Z.lxor dot_product (Z.land (bit w row) (bit h row)))
            l (Z.b2z acc)
  = Z.b2z (xorb acc
             (odd_count (map (fun i => Z.testbit w i && Z.testbit h i) l))).
Proof.
  revert acc. induction l as [|i l IH]; intros acc Hl;
    cbn [fold_left map odd_count fold_right].
  - now rewrite xorb_false_r.
  - rewrite !bit_b2z by (apply Hl; now left).
    replace (Z.lxor (Z.b2z acc)
               (Z.land (Z.b2z (Z.testbit w i)) (Z.b2z (Z.testbit h i))))
      with (Z.b2z (xorb acc (Z.testbit w i && Z.testbit h i)))
      by (destruct acc, (Z.testbit w i), (Z.testbit h i); reflexivity).
    rewrite IH by (intros; apply Hl; now right).
    fold (odd_count (map (fun i => Z.testbit w i && Z.testbit h i) l)).
    now rewrite xorb_assoc.
Qed.

Lemma dot_product_dotb n h w : dot_product n h w = Z.b2z (dotb n h w).
Proof.
  unfold dot_product, dotb. change 0 with (Z.b2z false).
  rewrite dot_product_fold by (intros i Hi; apply in_upto in Hi; lia).
  now rewrite xorb_false_l.
Qed.

Lemma is_word_fold (l : list Z) (acc : bool) :
  fold_left (fun is_word v => if negb (v =? 0) then false else is_word) l acc
  = acc && forallb (fun v => v =? 0) l.
Proof.
  revert acc. induction l as [|v l IH]; intros acc; cbn [fold_left forallb].
  - now rewrite andb_true_r.
  - rewrite IH. destruct (v =? 0), acc; reflexivity.
Qed.

Lemma is_code_word_dotb parity_check n w :
  is_code_word parity_check n w
  = forallb (fun h => negb (dotb n h w)) parity_check.
Proof.
  unfold is_code_word. rewrite is_word_fold. cbn [andb].
  induction parity_check as [|h l IH]; cbn [map forallb]; [reflexivity|].
  rewrite IH, dot_product_dotb. now destruct (dotb n h w).
Qed.

Lemma odd_count_xorb {A} (f g : A -> bool) (l : list A) :
  odd_count (map (fun i => xorb (f i) (g i)) l)
  = xorb (odd_count (map f l)) (odd_count (map g l)).
Proof.
  induction l as [|i l IH]; cbn; [reflexivity|].
  fold (odd_count (map (fun i => xorb (f i) (g i)) l)).
  fold (odd_count (map f l)). fold (odd_count (map g l)). rewrite IH.
  destruct (f i), (g i), (odd_count (map f l)), (odd_count (map g l)); reflexivity.
Qed.

Lemma dotb_lxor_r n h a b :
  dotb n h (Z.lxor a b) = xorb (dotb n h a) (dotb n h b).
Proof.
  unfold dotb. rewrite <- odd_count_xorb. f_equal. apply map_ext. intros i.
  rewrite Z.lxor_spec.
  destruct (Z.testbit a i), (Z.testbit b i), (Z.testbit h i); reflexivity.
Qed.

Lemma dotb_lxor_l n a b w :
  dotb n (Z.lxor a b) w = xorb (dotb n a w) (dotb n b w).
Proof.
  unfold dotb. rewrite <- odd_count_xorb. f_equal. apply map_ext. intros i.
  rewrite Z.lxor_spec.
  destruct (Z.testbit a i), (Z.testbit b i), (Z.testbit w i); reflexivity.
Qed.

Lemma dotb_0_r n h : dotb n h 0 = false.
Proof.
  unfold dotb. induction (upto n) as [|i l IH]; cbn; [reflexivity|].
  fold (odd_count (map (fun i => Z.testbit 0 i && Z.testbit h i) l)).
  now rewrite IH, Z.bits_0.
Qed.

(** Only the low [n] bits of a word count. *)
Lemma dotb_ext n h w w' :
  (forall i, 0 <= i < n -> Z.testbit w i = Z.testbit w' i) ->
  dotb n h w = dotb n h w'.
Proof.
  intros H. unfold dotb. f_equal. apply map_ext_in. intros i Hi.
  apply in_upto in Hi. now rewrite H.
Qed.

Lemma is_code_word_ext parity_check n w w' :
  (forall i, 0 <= i < n -> Z.testbit w i = Z.testbit w' i) ->
  is_code_word parity_check n w = is_code_word parity_check n w'.
Proof.
  intros H. rewrite !is_code_word_dotb.
  induction parity_check as [|h l IH]; cbn [forallb]; [reflexivity|].
  now rewrite IH, (dotb_ext n h w w').
Qed.

Lemma is_code_word_0 parity_check n : is_code_word parity_check n 0 = true.
Proof.
  rewrite is_code_word_dotb. apply forallb_forall. intros h _.
  now rewrite dotb_0_r.
Qed.

Lemma is_code_word_lxor parity_check n a b :
  is_code_word parity_check n a = true ->
  is_code_word parity_check n b = true ->
  is_code_word parity_check n (Z.lxor a b) = true.
Proof.
  rewrite !is_code_word_dotb, !forallb_forall. intros Ha Hb h Hh.
  specialize (Ha h Hh). specialize (Hb h Hh). rewrite dotb_lxor_r.
  destruct (dotb n h a), (dotb n h b); auto.
Qed.

(** ** Words of [n] bits *)

Lemma lt_pow2_bits n w i :
  0 <= n -> 0 <= w < 2 ^ n -> n <= i -> Z.testbit w i = false.
Proof.
  intros Hn Hw Hi. rewrite <- (Z.mod_small w (2 ^ n)) by exact Hw.
  apply Z.mod_pow2_bits_high. lia.
Qed.

Lemma bits_lt_pow2 n w :
  0 <= n -> (forall i, n <= i -> Z.testbit w i = false) -> 0 <= w < 2 ^ n.
Proof.
  intros Hn H. assert (E : w = w mod 2 ^ n).
  { apply Z.bits_inj'. intros i Hi. rewrite Z.testbit_mod_pow2 by exact Hn.
    destruct (Z.ltb_spec i n); cbn; [reflexivity | now apply H]. }
  rewrite E. apply Z.mod_pos_bound. apply Z.pow_pos_nonneg; lia.
Qed.

Lemma lxor_lt_pow2 n a b :
  0 <= n -> 0 <= a < 2 ^ n -> 0 <= b < 2 ^ n -> 0 <= Z.lxor a b < 2 ^ n.
Proof.
  intros Hn Ha Hb. apply bits_lt_pow2; [exact Hn|]. intros i Hi.
  now rewrite Z.lxor_spec, (lt_pow2_bits n a), (lt_pow2_bits n b).
Qed.

Lemma vanishing_bits n v :
  0 <= n ->
  vanishing n v = true <-> (forall i, 0 <= i < n -> Z.testbit v i = false).
Proof.
  intros Hn. unfold vanishing. rewrite Z.eqb_eq. split.
  - intros H i Hi. rewrite <- (Z.mod_pow2_bits_low v n i) by lia.
    rewrite H. apply Z.bits_0.
  - intros H. apply Z.bits_inj'. intros i Hi.
    rewrite Z.testbit_mod_pow2, Z.bits_0 by exact Hn.
    destruct (Z.ltb_spec i n); cbn; [apply H; lia | reflexivity].
Qed.

(** ** The code book *)

Lemma range_sorted a b : StronglySorted Z.lt (range a b).
Proof.
  remember (Z.to_nat (b - a)) as k eqn:Hk. revert a Hk.
  induction k as [|k IH]; intros a Hk.
  - rewrite range_nil by lia. constructor.
  - rewrite range_cons by lia. constructor.
    + apply IH. lia.
    + apply Forall_forall. intros x Hx. apply in_range in Hx. lia.
Qed.

Lemma filter_sorted (f : Z -> bool) (l : list Z) :
  StronglySorted Z.lt l -> StronglySorted Z.lt (filter f l).
Proof.
  induction 1 as [|x l Hl IH Hx]; cbn; [constructor|].
  destruct (f x); [|exact IH]. constructor; [exact IH|].
  apply Forall_forall. intros y Hy. apply filter_In in Hy.
  rewrite Forall_forall in Hx. now apply Hx.
Qed.

Lemma in_enumerate parity_check n w :
  0 <= n < 32 ->
  In w (enumerate_code_words parity_check n)
  <-> 0 <= w < 2 ^ n /\ is_code_word parity_check n w = true.
Proof.
  intros Hn. unfold enumerate_code_words.
  rewrite filter_In, in_upto, find_power_2_small by lia. reflexivity.
Qed.

(** ** The size of the code book *)

Lemma range_split a b c : a <= b <= c -> range a c = range a b ++ range b c.
Proof.
  intros H. remember (Z.to_nat (b - a)) as k eqn:Hk. revert a H Hk.
  induction k as [|k IH]; intros a H Hk.
  - replace b with a by lia. now rewrite (range_nil a a) by lia.
  - rewrite (range_cons a c), (range_cons a b) by lia. cbn [app]. f_equal.
    apply IH; lia.
Qed.

Lemma range_shift a b d : range (a + d) (b + d) = map (fun x => x + d) (range a b).
Proof.
  unfold range. rewrite map_map. replace (b + d - (a + d)) with (b - a) by lia.
  apply map_ext. intros; lia.
Qed.

Lemma upto_double n :
  0 <= n -> upto (2 ^ (n + 1)) = upto (2 ^ n) ++ map (fun w => w + 2 ^ n) (upto (2 ^ n)).
Proof.
  intros Hn. assert (0 < 2 ^ n) by (apply Z.pow_pos_nonneg; lia).
  unfold upto. rewrite <- range_shift, Z.pow_add_r by lia. cbn [Z.add].
  replace (2 ^ n * 2 ^ 1) with (2 ^ n + 2 ^ n) by lia.
  apply range_split. lia.
Qed.

Lemma odd_count_app l1 l2 :
  odd_count (l1 ++ l2) = xorb (odd_count l1) (odd_count l2).
Proof.
  unfold odd_count. induction l1 as [|x l1 IH]; cbn [app fold_right].
  - now rewrite xorb_false_l.
  - now rewrite IH, xorb_assoc.
Qed.

Lemma dotb_succ n v w :
  0 <= n ->
  dotb (n + 1) v w = xorb (dotb n v w) (Z.testbit w n && Z.testbit v n).
Proof.
  intros Hn. unfold dotb. rewrite upto_snoc, map_app, odd_count_app by exact Hn.
  cbn. now rewrite xorb_false_r.
Qed.

Lemma testbit_add_pow2_low n w i :
  0 <= i < n -> Z.testbit (w + 2 ^ n) i = Z.testbit w i.
Proof.
  intros Hi. rewrite <- (Z.mod_pow2_bits_low (w + 2 ^ n) n i) by lia.
  rewrite <- (Z.mod_pow2_bits_low w n i) by lia.
  f_equal. rewrite <- (Z.mul_1_l (2 ^ n)) at 1. apply Z.mod_add.
  apply Z.pow_nonzero; lia.
Qed.

Lemma testbit_add_pow2_top n w :
  0 <= n -> 0 <= w < 2 ^ n -> Z.testbit (w + 2 ^ n) n = true.
Proof.
  intros Hn Hw. apply Z.testbit_true; [exact Hn|].
  rewrite <- (Z.mul_1_l (2 ^ n)) at 1. rewrite Z.div_add by lia.
  now rewrite Z.div_small.
Qed.

Lemma sumZ_app l1 l2 : sumZ (l1 ++ l2) = sumZ l1 + sumZ l2.
Proof.
  induction l1 as [|x l1 IH]; cbn; [reflexivity|].
  fold (sumZ (l1 ++ l2)). fold (sumZ l1). lia.
Qed.

Lemma sumZ_map_ext {A} (f g : A -> Z) (l : list A) :
  (forall x, In x l -> f x = g x) -> sumZ (map f l) = sumZ (map g l).
Proof. intros H. f_equal. now apply map_ext_in. Qed.

Lemma sumZ_map_scale {A} (c : Z) (f : A -> Z) (l : list A) :
  sumZ (map (fun x => c * f x) l) = c * sumZ (map f l).
Proof.
  induction l as [|x l IH]; cbn; [lia|].
  fold (sumZ (map (fun x => c * f x) l)). fold (sumZ (map f l)). lia.
Qed.

Lemma sumZ_map_add {A} (f g : A -> Z) (l : list A) :
  sumZ (map (fun x => f x + g x) l) = sumZ (map f l) + sumZ (map g l).
Proof.
  induction l as [|x l IH]; cbn; [lia|].
  fold (sumZ (map (fun x => f x + g x) l)).
  fold (sumZ (map f l)). fold (sumZ (map g l)). lia.
Qed.

Lemma sumZ_swap {A B} (f : A -> B -> Z) (la : list A) (lb : list B) :
  sumZ (map (fun a => sumZ (map (fun b => f a b) lb)) la)
  = sumZ (map (fun b => sumZ (map (fun a => f a b) la)) lb).
Proof.
  induction la as [|a la IH]; cbn.
  - induction lb as [|b lb IHb]; cbn; [reflexivity|].
    fold (sumZ (map (fun _ : B => 0) lb)). lia.
  - fold (sumZ (map (fun a => sumZ (map (fun b => f a b) lb)) la)).
    rewrite IH, <- sumZ_map_add. reflexivity.
Qed.

Lemma sumZ_indicator {A} (p : A -> bool) (c : Z) (l : list A) :
  sumZ (map (fun x => if p x then c else 0) l) = c * size (filter p l).
Proof.
  unfold size. induction l as [|x l IH]; cbn [map sumZ fold_right filter]; [cbn; lia|].
  fold (sumZ (map (fun x => if p x then c else 0) l)). rewrite IH.
  destruct (p x); cbn [length]; lia.
Qed.

(** The characters of GF(2)^n sum to zero, except the trivial one. *)
Lemma chi_sum (k : nat) v :
  sumZ (map (chi (Z.of_nat k) v) (upto (2 ^ Z.of_nat k)))
  = if vanishing (Z.of_nat k) v then 2 ^ Z.of_nat k else 0.
Proof.
  induction k as [|k IH].
  - cbn. unfold vanishing. now rewrite Z.mod_1_r.
  - rewrite Nat2Z.inj_succ, <- Z.add_1_r.
    set (n := Z.of_nat k) in *. assert (Hn : 0 <= n) by lia.
    rewrite upto_double, map_app, sumZ_app, map_map by exact Hn.
    rewrite (sumZ_map_ext (chi (n + 1) v) (chi n v)).
    2:{ intros w Hw. apply in_upto in Hw. unfold chi.
        rewrite dotb_succ by exact Hn.
        rewrite (lt_pow2_bits n w n) by lia. cbn. now rewrite xorb_false_r. }
    rewrite (sumZ_map_ext (fun w => chi (n + 1) v (w + 2 ^ n))
               (fun w => (if Z.testbit v n then -1 else 1) * chi n v w)).
    2:{ intros w Hw. apply in_upto in Hw. unfold chi.
        rewrite dotb_succ by exact Hn.
        rewrite testbit_add_pow2_top by lia.
        rewrite (dotb_ext n v (w + 2 ^ n) w)
          by (intros; now apply testbit_add_pow2_low).
        destruct (dotb n v w), (Z.testbit v n); reflexivity. }
    rewrite sumZ_map_scale, IH.
    assert (E : vanishing (n + 1) v = vanishing n v && negb (Z.testbit v n)).
    { apply eq_true_iff_eq. rewrite andb_true_iff, negb_true_iff.
      rewrite !vanishing_bits by lia. split.
      - intros H. split; [intros i Hi; apply H; lia | apply H; lia].
      - intros [H1 H2] i Hi. destruct (Z.eq_dec i n) as [->|]; [exact H2|].
        apply H1. lia. }
    rewrite E, Z.pow_add_r by lia.
    destruct (vanishing n v), (Z.testbit v n); cbn [andb negb]; lia.
Qed.

Lemma chi_0_l n w : chi n 0 w = 1.
Proof.
  unfold chi, dotb. replace (odd_count _) with false; [reflexivity|].
  induction (upto n) as [|i l IH]; cbn [map odd_count fold_right]; [reflexivity|].
  fold (odd_count (map (fun i => Z.testbit w i && Z.testbit 0 i) l)).
  now rewrite <- IH, Z.bits_0, andb_false_r.
Qed.

Lemma chi_mul n a b w : chi n a w * chi n b w = chi n (Z.lxor a b) w.
Proof.
  unfold chi. rewrite dotb_lxor_l. now destruct (dotb n a w), (dotb n b w).
Qed.

Lemma check_product parity_check n w :
  prodZ (map (fun h => 1 + chi n h w) parity_check)
  = if is_code_word parity_check n w then 2 ^ size parity_check else 0.
Proof.
  rewrite is_code_word_dotb. unfold size.
  induction parity_check as [|h l IH]; [reflexivity|].
  cbn [map prodZ fold_right forallb length].
  fold (prodZ (map (fun h => 1 + chi n h w) l)). rewrite IH.
  rewrite Nat2Z.inj_succ, Z.pow_succ_r by lia. unfold chi.
  destruct (dotb n h w), (forallb _ l); cbn [negb andb]; lia.
Qed.

Lemma check_product_expand n w (rows : list Z) v :
  chi n v w * prodZ (map (fun h => 1 + chi n h w) rows)
  = sumZ (map (fun s => chi n (Z.lxor v s) w) (row_combinations rows)).
Proof.
  revert v. induction rows as [|h rows IH]; intros v.
  - cbn. rewrite Z.lxor_0_r. lia.
  - cbn [map prodZ fold_right row_combinations].
    fold (prodZ (map (fun h => 1 + chi n h w) rows)).
    rewrite map_app, sumZ_app, map_map.
    rewrite <- (IH v).
    rewrite (sumZ_map_ext (fun s => chi n (Z.lxor v (Z.lxor h s)) w)
               (fun s => chi n (Z.lxor (Z.lxor v h) s) w))
      by (intros; now rewrite Z.lxor_assoc).
    rewrite <- (IH (Z.lxor v h)), <- chi_mul. lia.
Qed.

(** Counting the code words: [2^r * |C| = 2^n * (vanishing combinations)]. *)
Lemma code_words_count parity_check n :
  0 <= n < 32 ->
  2 ^ size parity_check * size (enumerate_code_words parity_check n)
  = 2 ^ n * size (filter (vanishing n) (row_combinations parity_check)).
Proof.
  intros Hn. unfold enumerate_code_words.
  rewrite find_power_2_small by lia.
  rewrite <- !sumZ_indicator.
  rewrite (sumZ_map_ext _ (fun w => sumZ (map (fun s => chi n s w)
                                          (row_combinations parity_check)))).
  2:{ intros w _. rewrite <- check_product.
      pose proof (check_product_expand n w parity_check 0) as E.
      rewrite chi_0_l, Z.mul_1_l in E. rewrite E. apply sumZ_map_ext.
      intros s _. now rewrite Z.lxor_0_l. }
  rewrite sumZ_swap. apply sumZ_map_ext. intros s _.
  rewrite <- (Z2Nat.id n) by lia. apply chi_sum.
Qed.

Lemma size_nonneg {A} (v : list A) : 0 <= size v.
Proof. unfold size. lia. Qed.

(** C8, as the code has it. For a code length [n < 32] the code book built
    by the constructor contains the zero word, is closed under XOR and is
    enumerated in strictly increasing order; it has [2^k] members when the
    parity-check matrix consists of [n - k] rows that are linearly
    independent as vectors of [n] bits ([k] being the number of generator
    rows). The constructor of [cyclic_codes_2.h] builds the same list. *)
Theorem code_book_invariants :
  forall generator parity_check n,
    0 <= n < 32 ->
    let code_words :=
      WeightBound.code_words (WeightBound.new generator parity_check n) in
    In 0 code_words
    /\ (forall a b,
           In a code_words -> In b code_words -> In (Z.lxor a b) code_words)
    /\ StronglySorted Z.lt code_words
    /\ (size generator + size parity_check = n ->
        independent_rows n parity_check = true ->
        size code_words = 2 ^ size generator)
    /\ Burst.code_words (Burst.new generator parity_check n) = code_words.
Proof.
  intros generator parity_check n Hn. cbn.
  repeat split.
  - apply in_enumerate; [exact Hn|]. split.
    + split; [lia|]. apply Z.pow_pos_nonneg; lia.
    + apply is_code_word_0.
  - intros a b Ha Hb. apply in_enumerate in Ha, Hb; try exact Hn.
    apply in_enumerate; [exact Hn|]. split.
    + apply lxor_lt_pow2; tauto || lia.
    + apply is_code_word_lxor; tauto.
  - apply filter_sorted, range_sorted.
  - intros Hk Hind. pose proof (code_words_count parity_check n Hn) as E.
    unfold independent_rows in Hind. apply Nat.eqb_eq in Hind.
    unfold size at 3 in E. rewrite Hind in E.
    pose proof (size_nonneg generator). pose proof (size_nonneg parity_check).
    replace n with (size parity_check + size generator) in E at 2 by lia.
    rewrite Z.pow_add_r in E by lia.
    assert (0 < 2 ^ size parity_check) by (apply Z.pow_pos_nonneg; lia).
    nia.
Qed.

Lemma code_book_invariants_witness :
  let code_words := WeightBound.code_words (WeightBound.new [7] [3; 5] 3) in
  0 <= 3 < 32
  /\ In 0 code_words
  /\ (forall a b,
         In a code_words -> In b code_words -> In (Z.lxor a b) code_words)
  /\ StronglySorted Z.lt code_words
  /\ size code_words = 2 ^ size [7]
  /\ Burst.code_words (Burst.new [7] [3; 5] 3) = code_words.
Proof.
  assert (Hn : 0 <= 3 < 32) by lia.
  destruct (code_book_invariants [7] [3; 5] 3 Hn) as (H0 & H1 & H2 & H3 & H4).
  split; [exact Hn|]. split; [exact H0|]. split; [exact H1|].
  split; [exact H2|]. split; [exact (H3 eq_refl eq_refl) | exact H4].
Defined.

(** C8 as stated fails: with the parity-check row [011] given twice, the code
    of length 3 with one generator row has four words, not [2^1]; and with
    [n = 32] the bound [find_power(2, 32)] of the enumeration wraps to zero,
    so the code book is empty and lacks the zero word. *)
Lemma code_book_size_counterexample :
  size (WeightBound.code_words (WeightBound.new [7] [3; 3] 3)) <> 2 ^ size [7]
  /\ ~ In 0 (WeightBound.code_words (WeightBound.new [] [] 32)).
Proof.
  split.
  - vm_compute. discriminate.
  - vm_compute. tauto.
Qed.

(** ** Rotations *)

Lemma rotate_left_zero m a : rotate_left m a 0 = 0.
Proof.
  unfold rotate_left.
  now rewrite Z.shiftl_0_l, !Z.land_0_l, Z.shiftr_0_l.
Qed.

Lemma rotate_right_zero m a : rotate_right m a 0 = 0.
Proof.
  unfold rotate_right.
  now rewrite Z.shiftl_0_l, !Z.land_0_l, Z.shiftr_0_l.
Qed.

Section Rotations.

(** The width of the field, at least one bit. *)
Variable m : Z.
Hypothesis Hm : 0 < m.

(** The spec of the rotations, bit by bit. *)
Lemma rotate_left_bits a w q :
  0 <= a <= m -> 0 <= q ->
  Z.testbit (rotate_left m a w) q = (q <? m) && Z.testbit w ((q - a) mod m).
Proof.
  intros Ha Hq. unfold rotate_left.
  rewrite Z.lor_spec, Z.land_spec, Z.shiftl_spec, Z.shiftr_spec by lia.
  rewrite Z.land_spec, !Z.testbit_ones_nonneg by lia.
  destruct (Z.ltb_spec q m) as [Hlt|Hge]; cbn [andb].
  - destruct (Z.ltb_spec (q + (m - a)) m) as [Hlow|Hhigh].
    + rewrite (Z.testbit_neg_r w (q - a)) by lia.
      replace ((q - a) mod m) with (q + (m - a)).
      * cbn [andb orb]. apply andb_true_r.
      * apply Z.mod_unique_pos with (q := -1); lia.
    + rewrite andb_false_r, andb_true_r, orb_false_r.
      rewrite Z.mod_small by lia. reflexivity.
  - destruct (Z.ltb_spec (q + (m - a)) m); [lia|].
    now rewrite !andb_false_r.
Qed.

Lemma rotate_right_bits a w q :
  0 <= a <= m -> 0 <= q ->
  Z.testbit (rotate_right m a w) q = (q <? m) && Z.testbit w ((q + a) mod m).
Proof.
  intros Ha Hq. unfold rotate_right.
  rewrite Z.lor_spec, Z.shiftr_spec, !Z.land_spec, Z.shiftl_spec by lia.
  rewrite !Z.testbit_ones_nonneg by lia.
  destruct (Z.ltb_spec q m) as [Hlt|Hge]; cbn [andb].
  - destruct (Z.ltb_spec (q + a) m) as [Hlow|Hhigh].
    + rewrite (Z.testbit_neg_r w (q - (m - a))) by lia.
      rewrite Z.mod_small by lia. cbn [andb]. now rewrite andb_true_r, orb_false_r.
    + rewrite andb_false_r, andb_true_r. cbn [orb].
      f_equal. apply Z.mod_unique_pos with (q := 1); lia.
  - destruct (Z.ltb_spec (q + a) m); [lia|].
    now rewrite !andb_false_r.
Qed.

Lemma rotate_left_range a w :
  0 <= a <= m -> 0 <= rotate_left m a w < 2 ^ m.
Proof.
  intros Ha. apply bits_lt_pow2; [lia|]. intros i Hi.
  rewrite rotate_left_bits by lia.
  destruct (Z.ltb_spec i m); [lia | reflexivity].
Qed.

Lemma rotate_right_range a w :
  0 <= a <= m -> 0 <= rotate_right m a w < 2 ^ m.
Proof.
  intros Ha. apply bits_lt_pow2; [lia|]. intros i Hi.
  rewrite rotate_right_bits by lia.
  destruct (Z.ltb_spec i m); [lia | reflexivity].
Qed.

Lemma rotate_left_0_low w i :
  0 <= i < m -> Z.testbit (rotate_left m 0 w) i = Z.testbit w i.
Proof.
  intros Hi. rewrite rotate_left_bits by lia.
  rewrite Z.sub_0_r, Z.mod_small by lia.
  destruct (Z.ltb_spec i m); [reflexivity | lia].
Qed.

(** A full turn is no turn. *)
Lemma rotate_left_full w : rotate_left m m w = rotate_left m 0 w.
Proof.
  apply Z.bits_inj'. intros q Hq.
  rewrite !rotate_left_bits by lia. do 2 f_equal.
  rewrite Z.sub_0_r. replace (q - m) with (q + (-1) * m) by lia.
  apply Z.mod_add. lia.
Qed.

(** Rotating by one position, [a + 1] times. *)
Lemma rotate_left_succ a w :
  0 <= a -> a + 1 <= m ->
  rotate_left m 1 (rotate_left m a w) = rotate_left m (a + 1) w.
Proof.
  intros Ha Ha1. apply Z.bits_inj'. intros q Hq.
  pose proof (Z.mod_pos_bound (q - 1) m Hm).
  rewrite !rotate_left_bits by lia.
  destruct (Z.ltb_spec ((q - 1) mod m) m); [|lia]. cbn [andb].
  rewrite Zminus_mod_idemp_l. do 3 f_equal. lia.
Qed.

Lemma rotate_right_0 w : 0 <= w < 2 ^ m -> rotate_right m 0 w = w.
Proof.
  intros Hw. apply Z.bits_inj'. intros q Hq.
  rewrite rotate_right_bits by lia. rewrite Z.add_0_r.
  destruct (Z.ltb_spec q m); cbn [andb].
  - now rewrite Z.mod_small by lia.
  - symmetry. apply (lt_pow2_bits m); lia.
Qed.

Lemma rotate_right_succ a w :
  0 <= a -> a + 1 <= m ->
  rotate_right m 1 (rotate_right m a w) = rotate_right m (a + 1) w.
Proof.
  intros Ha Ha1. apply Z.bits_inj'. intros q Hq.
  pose proof (Z.mod_pos_bound (q + 1) m Hm).
  rewrite !rotate_right_bits by lia.
  destruct (Z.ltb_spec ((q + 1) mod m) m); [|lia]. cbn [andb].
  rewrite Zplus_mod_idemp_l. do 3 f_equal. lia.
Qed.

End Rotations.

(** ** Words built from place values *)

Lemma testbit_pow2 p q : 0 <= p -> Z.testbit (2 ^ p) q = (p =? q).
Proof. intros Hp. apply Z.pow2_bits_eqb. exact Hp. Qed.

(** Adding a power of two to a word that lacks this bit sets the bit. *)
Lemma add_pow2_bits acc p q :
  0 <= p -> Z.testbit acc p = false ->
  Z.testbit (acc + 2 ^ p) q = Z.testbit acc q || (p =? q).
Proof.
  intros Hp Hacc.
  assert (E : Z.land acc (2 ^ p) = 0).
  { apply Z.bits_inj'. intros i Hi.
    rewrite Z.land_spec, testbit_pow2, Z.bits_0 by exact Hp.
    destruct (Z.eqb_spec p i) as [->|]; [now rewrite Hacc | apply andb_false_r]. }
  rewrite (Z.add_nocarry_lxor _ _ E), Z.lxor_spec, testbit_pow2 by exact Hp.
  destruct (Z.eqb_spec p q) as [->|]; [now rewrite Hacc | ].
  now rewrite xorb_false_r, orb_false_r.
Qed.

Lemma wrap_bits x q : Z.testbit (wrap x) q = (q <? 32) && Z.testbit x q.
Proof. unfold wrap. apply Z.testbit_mod_pow2. lia. Qed.

Lemma word_of_place_values_fold (l : list Z) acc q :
  NoDup l ->
  (forall p, In p l -> 0 <= p /\ Z.testbit acc p = false) ->
  0 <= acc < 2 ^ 32 ->
  Z.testbit
    (fold_left (fun cyclic_shift place_value =>
                  wrap (cyclic_shift + find_power 2 place_value)) l acc) q
  = Z.testbit acc q || ((q <? 32) && existsb (Z.eqb q) l).
Proof.
  revert acc. induction l as [|p l IH]; intros acc Hnd Hl Hacc; cbn [fold_left existsb].
  - now rewrite andb_false_r, orb_false_r.
  - inversion Hnd as [|? ? Hnotin Hnd']; subst.
    destruct (Hl p (or_introl eq_refl)) as [Hp Hbit].
    assert (Hacc' : forall i, Z.testbit (wrap (acc + find_power 2 p)) i
                              = Z.testbit acc i || ((i <? 32) && (i =? p))).
    { intros i. rewrite find_power_2 by exact Hp.
      destruct (Z.ltb_spec p 32) as [Hlt|Hge].
      - rewrite (Z.mod_small (2 ^ p))
          by (split; [apply Z.pow_nonneg; lia | apply Z.pow_lt_mono_r; lia]).
        rewrite wrap_bits, add_pow2_bits by assumption.
        rewrite (Z.eqb_sym p i).
        destruct (Z.ltb_spec i 32) as [Hi|Hi]; cbn [andb]; [reflexivity|].
        rewrite (lt_pow2_bits 32 acc i) by lia.
        destruct (Z.eqb_spec i p); [lia | reflexivity].
      - replace (2 ^ p mod 2 ^ 32) with 0.
        + rewrite Z.add_0_r. unfold wrap. rewrite Z.mod_small by exact Hacc.
          destruct (Z.ltb_spec i 32); cbn [andb]; [|now rewrite orb_false_r].
          destruct (Z.eqb_spec i p); [lia | now rewrite orb_false_r].
        + symmetry. replace p with ((p - 32) + 32) by lia.
          rewrite Z.pow_add_r by lia. apply Z.mod_mul. lia. }
    rewrite IH.
    + rewrite Hacc'. destruct (Z.ltb_spec q 32); cbn [andb];
        [|now rewrite !orb_false_r].
      now rewrite orb_assoc.
    + exact Hnd'.
    + intros p' Hp'. destruct (Hl p' (or_intror Hp')) as [H1 H2]. split; [exact H1|].
      rewrite Hacc', H2. destruct (Z.eqb_spec p' p) as [->|]; [contradiction|].
      now rewrite andb_false_r.
    + unfold wrap. apply Z.mod_pos_bound. lia.
Qed.

Lemma word_of_place_values_bits (l : list Z) q :
  NoDup l -> (forall p, In p l -> 0 <= p) ->
  Z.testbit (word_of_place_values l) q = (q <? 32) && existsb (Z.eqb q) l.
Proof.
  intros Hnd Hl. unfold word_of_place_values.
  rewrite word_of_place_values_fold; try assumption.
  - now rewrite Z.bits_0.
  - intros p Hp. split; [now apply Hl | apply Z.bits_0].
  - lia.
Qed.

Lemma existsb_eqb_In q (l : list Z) : existsb (Z.eqb q) l = true <-> In q l.
Proof.
  rewrite existsb_exists. split.
  - intros (x & Hx & E). apply Z.eqb_eq in E. now subst.
  - intros H. exists q. split; [exact H | apply Z.eqb_refl].
Qed.

Lemma in_bit_place_values w m p :
  In p (bit_place_values w m) <-> 0 <= p < m /\ Z.testbit w p = true.
Proof.
  unfold bit_place_values. rewrite filter_In, in_upto. split.
  - intros [H1 H2]. split; [exact H1|]. now rewrite bit_eqb_1 in H2 by lia.
  - intros [H1 H2]. split; [exact H1|]. now rewrite bit_eqb_1 by lia.
Qed.

Lemma bit_place_values_NoDup w m : NoDup (bit_place_values w m).
Proof. apply NoDup_filter, range_NoDup. Qed.

(** The place values of a word, each moved up by [a] modulo the width, are
    the place values of the word rotated left by [a]. *)
Lemma word_of_shifted_place_values m a w :
  0 < m <= 32 -> 0 <= a <= m ->
  word_of_place_values (map (fun p => (p + a) mod m) (bit_place_values w m))
  = rotate_left m a w.
Proof.
  intros Hm Ha. apply Z.bits_inj'. intros q Hq.
  rewrite rotate_left_bits by lia.
  rewrite word_of_place_values_bits.
  - apply eq_true_iff_eq.
    rewrite !andb_true_iff, existsb_eqb_In, in_map_iff, !Z.ltb_lt. split.
    + intros [Hq32 (p & <- & Hp)]. apply in_bit_place_values in Hp.
      destruct Hp as [Hp Hbit].
      split; [apply Z.mod_pos_bound; lia|].
      replace (((p + a) mod m - a) mod m) with p; [exact Hbit|].
      rewrite Zminus_mod_idemp_l. replace (p + a - a) with p by lia.
      now rewrite Z.mod_small.
    + intros [Hqm Hbit]. split; [lia|].
      exists ((q - a) mod m). split.
      * rewrite Zplus_mod_idemp_l. replace (q - a + a) with q by lia.
        apply Z.mod_small. lia.
      * apply in_bit_place_values. split; [apply Z.mod_pos_bound; lia | exact Hbit].
  - apply Injective_map_NoDup_in; [|apply bit_place_values_NoDup].
    intros x y Hx Hy E. apply in_bit_place_values in Hx, Hy.
    assert (Ex : ((x + a) mod m - a) mod m = x)
      by (rewrite Zminus_mod_idemp_l; replace (x + a - a) with x by lia;
          apply Z.mod_small; lia).
    assert (Ey : ((y + a) mod m - a) mod m = y)
      by (rewrite Zminus_mod_idemp_l; replace (y + a - a) with y by lia;
          apply Z.mod_small; lia).
    rewrite <- Ex, <- Ey. now rewrite E.
  - intros p Hp. apply in_map_iff in Hp. destruct Hp as (x & <- & _).
    apply Z.mod_pos_bound. lia.
Qed.

(** ** The cyclic shifts *)

Lemma get_cyclic_shifts_fold w m (k : nat) :
  0 < m <= 32 -> Z.of_nat k < m ->
  fold_left
    (fun (st : list Z * list Z) (_ : Z) =>
       let bit_place_values :=
         map (fun pv => wrap (pv + 1) mod m) (fst st) in
       let cyclic_shift := word_of_place_values bit_place_values in
       (bit_place_values, snd st ++ [cyclic_shift]))
    (range 1 (1 + Z.of_nat k))
    (bit_place_values w m, [w])
  = (map (fun p => (p + Z.of_nat k) mod m) (bit_place_values w m),
     w :: map (fun i => rotate_left m i w) (range 1 (1 + Z.of_nat k))).
Proof.
  intros Hm. induction k as [|k IH]; intros Hk.
  - cbn [fold_left Z.of_nat]. rewrite range_nil by lia. cbn [fold_left map].
    f_equal. rewrite <- (map_id (bit_place_values w m)) at 1.
    apply map_ext_in. intros p Hp. apply in_bit_place_values in Hp.
    rewrite Z.add_0_r, Z.mod_small; lia.
  - rewrite Nat2Z.inj_succ, <- Z.add_1_r, Z.add_assoc.
    rewrite range_snoc, fold_left_app by lia. rewrite IH by lia.
    cbn [fold_left fst snd]. rewrite map_map, map_app. cbn [map app].
    assert (E : map (fun x => wrap ((x + Z.of_nat k) mod m + 1) mod m)
                    (bit_place_values w m)
                = map (fun p => (p + (Z.of_nat k + 1)) mod m)
                    (bit_place_values w m)).
    { apply map_ext. intros p.
      pose proof (Z.mod_pos_bound (p + Z.of_nat k) m ltac:(lia)).
      unfold wrap. rewrite (Z.mod_small _ (2 ^ 32)) by lia.
      rewrite Zplus_mod_idemp_l. f_equal. lia. }
    rewrite E. f_equal. f_equal. f_equal.
    rewrite word_of_shifted_place_values by lia. now rewrite Z.add_comm.
Qed.

(** The shifts are the word itself and its rotations to the left by
    [1, ..., m - 1] positions, in this order. *)
Lemma get_cyclic_shifts_rotations w m :
  0 < m <= 32 ->
  get_cyclic_shifts w m = w :: map (fun i => rotate_left m i w) (range 1 m).
Proof.
  intros Hm.
  assert (Hk : Z.of_nat (Z.to_nat (m - 1)) < m) by lia.
  pose proof (get_cyclic_shifts_fold w m (Z.to_nat (m - 1)) Hm Hk) as E.
  replace (1 + Z.of_nat (Z.to_nat (m - 1))) with m in E by lia.
  unfold get_cyclic_shifts.
  etransitivity; [apply (f_equal snd); exact E | reflexivity].
Qed.

Lemma size_map {A B} (f : A -> B) (l : list A) : size (map f l) = size l.
Proof. unfold size. now rewrite length_map. Qed.

Lemma size_range a b : a <= b -> size (range a b) = b - a.
Proof. intros H. unfold size. rewrite range_length. lia. Qed.

Lemma size_get_cyclic_shifts w m :
  0 < m <= 32 -> size (get_cyclic_shifts w m) = m.
Proof.
  intros Hm. rewrite get_cyclic_shifts_rotations by exact Hm.
  unfold size. cbn [length]. rewrite length_map, range_length. lia.
Qed.

(** ** The transpose *)

Lemma for_each_map {A B S} (g : A -> B) (l : list A)
  (body : B -> S -> result S) s :
  for_each (map g l) body s = for_each l (fun x => body (g x)) s.
Proof.
  revert s. induction l as [|x l IH]; intros s; cbn; [reflexivity|].
  destruct (body (g x) s); cbn; [apply IH | reflexivity].
Qed.

Lemma for_each_ext_in {A S} (l : list A) (body body' : A -> S -> result S) s :
  (forall x s, In x l -> body x s = body' x s) ->
  for_each l body s = for_each l body' s.
Proof.
  revert s. induction l as [|x l IH]; intros s H; cbn; [reflexivity|].
  rewrite H by now left. destruct (body' x s); cbn; [|reflexivity].
  apply IH. intros; apply H; now right.
Qed.

Lemma rev_seq (k : nat) :
  rev (seq 0 k) = map (fun i => (k - 1 - i)%nat) (seq 0 k).
Proof.
  induction k as [|k IH]; [reflexivity|].
  rewrite seq_S at 1. rewrite rev_app_distr. cbn [rev app Nat.add].
  cbn [seq map]. f_equal; [lia|].
  rewrite IH, <- seq_shift, map_map. apply map_ext. intros; lia.
Qed.

Lemma rev_range a b : rev (range a b) = map (fun i => a + b - 1 - i) (range a b).
Proof.
  unfold range. rewrite <- map_rev, rev_seq, !map_map.
  apply map_ext_in. intros i Hi. apply in_seq in Hi. lia.
Qed.

Lemma update_nth_middle (l1 l2 : list Z) x f :
  update_nth (l1 ++ x :: l2) (length l1) f = Ok (l1 ++ f x :: l2).
Proof.
  induction l1 as [|y l1 IH]; cbn; [reflexivity|]. now rewrite IH.
Qed.

(** A pass over all the rows of a vector that updates some of them. *)
Lemma for_each_update (c : Z -> bool) (f : Z -> Z) (l2 l1 : list Z) :
  for_each (range (size l1) (size l1 + size l2))
    (fun i v => if c i then update v i f else Ok v) (l1 ++ l2)
  = Ok (l1 ++ map (fun ix => if c (fst ix) then f (snd ix) else snd ix)
                 (combine (range (size l1) (size l1 + size l2)) l2)).
Proof.
  revert l1. induction l2 as [|x l2 IH]; intros l1.
  - rewrite range_nil by (unfold size; cbn; lia). reflexivity.
  - rewrite range_cons by (unfold size; cbn [length]; lia).
    cbn [for_each combine map fst snd].
    assert (E : (if c (size l1) then update (l1 ++ x :: l2) (size l1) f
                 else Ok (l1 ++ x :: l2))
                = Ok ((l1 ++ [if c (size l1) then f x else x]) ++ l2)).
    { rewrite <- app_assoc. cbn [app]. destruct (c (size l1)); [|reflexivity].
      unfold update, size. destruct (Z.ltb_spec (Z.of_nat (length l1)) 0); [lia|].
      rewrite Nat2Z.id. apply update_nth_middle. }
    rewrite E. cbn [bind].
    replace (size l1 + 1) with (size (l1 ++ [if c (size l1) then f x else x]))
      by (unfold size; rewrite length_app; cbn [length]; lia).
    replace (size l1 + size (x :: l2))
      with (size (l1 ++ [if c (size l1) then f x else x]) + size l2)
      by (unfold size; rewrite length_app; cbn [length]; lia).
    rewrite IH, <- app_assoc. reflexivity.
Qed.

Lemma combine_map_r {A B} (g : A -> B) (l : list A) :
  combine l (map g l) = map (fun x => (x, g x)) l.
Proof. induction l as [|x l IH]; cbn; [reflexivity | now rewrite IH]. Qed.

(** The pass of [get_transpose] over the columns, for one row of the
    matrix. *)
Lemma get_transpose_row this_old_row place (n : Z) (g : Z -> Z) :
  0 <= n < 2 ^ 32 ->
  for_each (rev (upto n))
    (fun col matrix_transpose =>
       let new_row := wrap (wrap (n - col) - 1) in
       let place_holder := bit this_old_row col in
       if place_holder =? 1
       then update matrix_transpose new_row
              (fun x => wrap (x + find_power 2 place))
       else Ok matrix_transpose)
    (map g (upto n))
  = Ok (map (fun i => if bit this_old_row (n - 1 - i) =? 1
                      then wrap (g i + find_power 2 place) else g i)
            (upto n)).
Proof.
  intros Hn. unfold upto. rewrite rev_range, for_each_map.
  rewrite (for_each_ext_in _ _
             (fun i v => if bit this_old_row (n - 1 - i) =? 1
                         then update v i (fun x => wrap (x + find_power 2 place))
                         else Ok v)).
  2:{ intros i v Hi. apply in_range in Hi. cbn zeta.
      replace (0 + n - 1 - i) with (n - 1 - i) by lia.
      replace (wrap (wrap (n - (n - 1 - i)) - 1)) with i; [reflexivity|].
      unfold wrap. rewrite (Z.mod_small (n - (n - 1 - i))) by lia.
      rewrite Z.mod_small; lia. }
  pose proof (for_each_update (fun i => bit this_old_row (n - 1 - i) =? 1)
                (fun x => wrap (x + find_power 2 place)) (map g (upto n)) [])
    as E.
  cbn [app] in E. change (size (@nil Z)) with 0 in E.
  rewrite size_map in E. unfold upto in *.
  rewrite size_range in E by lia. rewrite Z.sub_0_r, Z.add_0_l in E.
  rewrite E. f_equal.
  rewrite combine_map_r, map_map. reflexivity.
Qed.

Lemma fold_left_filter {A S} (c : A -> bool) (f : S -> A -> S) (l : list A) s :
  fold_left (fun s x => if c x then f s x else s) l s
  = fold_left f (filter c l) s.
Proof.
  revert s. induction l as [|x l IH]; intros s; cbn; [reflexivity|].
  destruct (c x); cbn; apply IH.
Qed.

Lemma map_const_length {A B C} (c : C) (l : list A) (l' : list B) :
  length l = length l' -> map (fun _ => c) l = map (fun _ => c) l'.
Proof.
  revert l'. induction l as [|x l IH]; intros [|y l'] H; cbn in *;
    try discriminate; [reflexivity|].
  f_equal. apply IH. lia.
Qed.

Lemma fold_left_over_map {A B S} (f : S -> B -> S) (g : A -> B) (l : list A) s :
  fold_left f (map g l) s = fold_left (fun s x => f s (g x)) l s.
Proof.
  revert s. induction l as [|x l IH]; intros s; cbn; [reflexivity | apply IH].
Qed.

Lemma get_transpose_value matrix n :
  0 <= n < 2 ^ 32 ->
  get_transpose matrix n = Ok (map (transpose_row matrix n) (upto n)).
Proof.
  intros Hn. unfold get_transpose.
  set (step := fun (i x old_row : Z) =>
                 if bit (nth (Z.to_nat old_row) matrix 0) (n - 1 - i) =? 1
                 then wrap (x + find_power 2
                                  (wrap (wrap (wrap (size matrix) - old_row) - 1)))
                 else x).
  assert (H : forall k : nat,
             (k <= length matrix)%nat ->
             for_each (upto (Z.of_nat k))
               (fun old_row matrix_transpose =>
                  this_old_row <- at_ matrix old_row ;;
                  for_each (rev (upto n))
                    (fun col matrix_transpose =>
                       let new_row := wrap (wrap (n - col) - 1) in
                       let place_holder := bit this_old_row col in
                       let place_value :=
                         wrap (wrap (wrap (size matrix) - old_row) - 1) in
                       if place_holder =? 1
                       then update matrix_transpose new_row
                              (fun x => wrap (x + find_power 2 place_value))
                       else Ok matrix_transpose)
                    matrix_transpose)
               (map (fun _ => 0) (upto n))
             = Ok (map (fun i => fold_left (step i) (upto (Z.of_nat k)) 0)
                       (upto n))).
  { induction k as [|k IH]; intros Hk.
    - reflexivity.
    - rewrite Nat2Z.inj_succ, <- Z.add_1_r, upto_snoc, for_each_app by lia.
      rewrite IH by lia. cbn [bind for_each].
      rewrite (at_nth _ _ 0) by (unfold size; lia). cbn [bind].
      rewrite get_transpose_row by exact Hn. cbn [bind]. f_equal.
      apply map_ext. intros i. rewrite fold_left_app. reflexivity. }
  rewrite (map_const_length 0 (rev (range 1 (n + 1))) (upto n))
    by (unfold upto; rewrite length_rev, !range_length; lia).
  unfold size at 1. rewrite H by lia. f_equal.
  apply map_ext. intros i. unfold transpose_row, word_of_place_values.
  rewrite fold_left_over_map.
  rewrite <- (fold_left_filter
                (fun old_row => bit (nth (Z.to_nat old_row) matrix 0) (n - 1 - i) =? 1)
                (fun x old_row =>
                   wrap (x + find_power 2
                                (wrap (wrap (wrap (size matrix) - old_row) - 1))))).
  reflexivity.
Qed.

Lemma nth_map_upto (f : Z -> Z) n i d :
  0 <= i < n -> nth (Z.to_nat i) (map f (upto n)) d = f i.
Proof.
  intros Hi. apply nth_error_nth. unfold upto.
  rewrite nth_error_map, nth_error_range by lia. cbn [option_map].
  do 2 f_equal. lia.
Qed.

Lemma size_upto n : 0 <= n -> size (upto n) = n.
Proof. intros H. unfold upto. rewrite size_range; lia. Qed.

Lemma transpose_row_bits matrix n i b :
  size matrix < 2 ^ 32 -> 0 <= i < n -> 0 <= b ->
  Z.testbit (transpose_row matrix n i) b
  = (b <? 32) && ((b <? size matrix)
                  && Z.testbit (nth (Z.to_nat (size matrix - 1 - b)) matrix 0)
                               (n - 1 - i)).
Proof.
  intros Hr Hi Hb. pose proof (size_nonneg matrix) as Hr0. unfold transpose_row.
  rewrite (map_ext_in _ (fun old_row => size matrix - 1 - old_row)).
  2:{ intros j Hj. apply filter_In in Hj. destruct Hj as [Hj _].
      apply in_upto in Hj. unfold wrap.
      rewrite (Z.mod_small (size matrix)) by lia.
      rewrite (Z.mod_small (size matrix - j)) by lia.
      rewrite Z.mod_small; lia. }
  rewrite word_of_place_values_bits.
  - f_equal. apply eq_true_iff_eq.
    rewrite andb_true_iff, existsb_eqb_In, in_map_iff, Z.ltb_lt. split.
    + intros (j & <- & Hj). apply filter_In in Hj. destruct Hj as [Hj Hbit].
      apply in_upto in Hj. rewrite bit_eqb_1 in Hbit by lia.
      split; [lia|]. now replace (size matrix - 1 - (size matrix - 1 - j)) with j by lia.
    + intros [Hlt Hbit]. exists (size matrix - 1 - b). split; [lia|].
      apply filter_In. split; [apply in_upto; lia|].
      now rewrite bit_eqb_1 by lia.
  - apply Injective_map_NoDup_in; [|apply NoDup_filter, range_NoDup].
    intros x y _ _. lia.
  - intros p Hp. apply in_map_iff in Hp. destruct Hp as (j & <- & Hj).
    apply filter_In in Hj. destruct Hj as [Hj _]. apply in_upto in Hj. lia.
Qed.

(** ** Syndromes *)

(** The syndrome loop is the encoder's loop over the parity transpose. *)
Lemma syndrome_encode parity_transpose w :
  syndrome parity_transpose w = encode_word parity_transpose w.
Proof. reflexivity. Qed.

Lemma syndrome_value parity_transpose w :
  syndrome parity_transpose w = Ok (xor_all (selected_rows parity_transpose w)).
Proof. rewrite syndrome_encode. apply encode_word_value. Qed.

Lemma syndrome_ext parity_transpose w w' :
  (forall i, 0 <= i < size parity_transpose -> Z.testbit w i = Z.testbit w' i) ->
  syndrome parity_transpose w = syndrome parity_transpose w'.
Proof.
  intros H. rewrite !syndrome_value. unfold selected_rows. do 3 f_equal.
  apply filter_ext_in. intros i Hi. apply in_upto in Hi. now apply H.
Qed.

Lemma xor_all_bits (l : list Z) b :
  Z.testbit (xor_all l) b = odd_count (map (fun x => Z.testbit x b) l).
Proof.
  induction l as [|x l IH]; cbn [xor_all fold_right map odd_count].
  - apply Z.bits_0.
  - fold (xor_all l). fold (odd_count (map (fun x => Z.testbit x b) l)).
    now rewrite Z.lxor_spec, IH.
Qed.

Lemma odd_count_filter {A} (c g : A -> bool) (l : list A) :
  odd_count (map g (filter c l)) = odd_count (map (fun x => c x && g x) l).
Proof.
  induction l as [|x l IH]; cbn [filter map odd_count fold_right]; [reflexivity|].
  fold (odd_count (map (fun x => c x && g x) l)). rewrite <- IH.
  destruct (c x); cbn [map odd_count fold_right andb]; [reflexivity|].
  now rewrite xorb_false_l.
Qed.

Lemma odd_count_and_const {A} (c : bool) (g : A -> bool) (l : list A) :
  odd_count (map (fun x => c && g x) l) = c && odd_count (map g l).
Proof.
  destruct c; cbn [andb]; [reflexivity|].
  induction l as [|x l IH]; cbn; [reflexivity | exact IH].
Qed.

(** Bit [b] of the syndrome is the dot product of the word with row
    [r - 1 - b] of the parity-check matrix. *)
Lemma syndrome_bits parity_check n w b :
  0 <= n < 2 ^ 32 -> size parity_check < 2 ^ 32 -> 0 <= b ->
  Z.testbit
    (xor_all (selected_rows (map (transpose_row parity_check n) (upto n)) w)) b
  = (b <? 32)
    && ((b <? size parity_check)
        && dotb n (nth (Z.to_nat (size parity_check - 1 - b)) parity_check 0) w).
Proof.
  intros Hn Hr Hb. unfold selected_rows.
  rewrite size_map, size_upto by lia.
  rewrite xor_all_bits, map_map.
  rewrite (map_ext_in _
             (fun pv => (b <? 32)
                        && ((b <? size parity_check)
                            && Z.testbit (nth (Z.to_nat (size parity_check - 1 - b))
                                              parity_check 0) pv))).
  2:{ intros pv Hpv. apply filter_In in Hpv. destruct Hpv as [Hpv _].
      apply in_upto in Hpv. rewrite nth_map_upto by lia.
      rewrite transpose_row_bits by lia.
      now replace (n - 1 - (n - 1 - pv)) with pv by lia. }
  rewrite odd_count_filter.
  rewrite (map_ext _
             (fun pv => ((b <? 32) && (b <? size parity_check))
                        && (Z.testbit w pv
                            && Z.testbit (nth (Z.to_nat (size parity_check - 1 - b))
                                              parity_check 0) pv))).
  2:{ intros pv. destruct (b <? 32), (b <? size parity_check), (Z.testbit w pv);
        reflexivity. }
  rewrite odd_count_and_const, <- andb_assoc. reflexivity.
Qed.

Lemma is_code_word_dotb_nth parity_check n w (j : nat) :
  is_code_word parity_check n w = true ->
  dotb n (nth j parity_check 0) w = false.
Proof.
  rewrite is_code_word_dotb, forallb_forall. intros H.
  destruct (Nat.lt_ge_cases j (length parity_check)) as [Hj|Hj].
  - apply negb_true_iff, H, nth_In, Hj.
  - rewrite nth_overflow by exact Hj. unfold dotb.
    induction (upto n) as [|i l IH]; cbn; [reflexivity|].
    now rewrite Z.bits_0, andb_false_r.
Qed.

(** A code word has the zero syndrome. *)
Lemma syndrome_code_word parity_check n w parity_transpose :
  0 <= n < 2 ^ 32 -> size parity_check < 2 ^ 32 ->
  get_transpose parity_check n = Ok parity_transpose ->
  is_code_word parity_check n w = true ->
  syndrome parity_transpose w = Ok 0.
Proof.
  intros Hn Hr HT Hw. rewrite get_transpose_value in HT by exact Hn.
  injection HT as <-. rewrite syndrome_value. f_equal.
  apply Z.bits_inj'. intros b Hb. rewrite syndrome_bits by assumption.
  rewrite (is_code_word_dotb_nth _ _ _ _ Hw), Z.bits_0.
  now rewrite !andb_false_r.
Qed.

(** A syndrome has [r] bits. *)
Lemma syndrome_range parity_check n w parity_transpose s :
  0 <= n < 2 ^ 32 -> size parity_check < 2 ^ 32 ->
  get_transpose parity_check n = Ok parity_transpose ->
  syndrome parity_transpose w = Ok s ->
  0 <= s < 2 ^ size parity_check.
Proof.
  intros Hn Hr HT Hs. rewrite get_transpose_value in HT by exact Hn.
  injection HT as <-. rewrite syndrome_value in Hs. injection Hs as <-.
  apply bits_lt_pow2; [apply size_nonneg|]. intros b Hb.
  pose proof (size_nonneg parity_check).
  rewrite syndrome_bits by lia.
  destruct (Z.ltb_spec b (size parity_check)); [lia|].
  now rewrite andb_false_r.
Qed.

Lemma map_result_map {A B} (f : A -> result B) (g : A -> B) (l : list A) :
  (forall x, In x l -> f x = Ok (g x)) -> map_result f l = Ok (map g l).
Proof.
  induction l as [|x l IH]; intros H; cbn; [reflexivity|].
  rewrite H by now left. cbn. rewrite IH by (intros; apply H; now right).
  reflexivity.
Qed.

Lemma at_map {A B} (g : A -> B) (l : list A) i :
  at_ (map g l) i = (x <- at_ l i ;; Ok (g x)).
Proof.
  unfold at_. destruct (i <? 0); [reflexivity|]. rewrite nth_error_map.
  now destruct (nth_error l (Z.to_nat i)).
Qed.

Lemma at_cons_0 {A} (x : A) l : at_ (x :: l) 0 = Ok x.
Proof. reflexivity. Qed.

Lemma at_cons_pos {A} (x : A) l i : 0 < i -> at_ (x :: l) i = at_ l (i - 1).
Proof.
  intros Hi. unfold at_.
  destruct (Z.ltb_spec i 0), (Z.ltb_spec (i - 1) 0); try lia.
  replace (Z.to_nat i) with (S (Z.to_nat (i - 1))) by lia. reflexivity.
Qed.

Lemma at_range a b i : 0 <= i < b - a -> at_ (range a b) i = Ok (a + i).
Proof.
  intros Hi. unfold at_. destruct (Z.ltb_spec i 0); [lia|].
  rewrite nth_error_range by lia. do 2 f_equal. lia.
Qed.

Lemma firstn_snoc {A} (l : list A) (k : nat) d :
  (k < length l)%nat -> firstn (S k) l = firstn k l ++ [nth k l d].
Proof.
  revert k. induction l as [|x l IH]; intros k Hk; cbn in Hk; [lia|].
  destruct k as [|k]; [reflexivity|].
  cbn [firstn nth app]. f_equal. apply IH. lia.
Qed.

(** The reordering keeps the first shift and reverses the others. *)
Lemma reorder_loop (x : Z) (l : list Z) (k : nat) acc :
  (k <= length l)%nat ->
  for_each (rev (range 1 (1 + Z.of_nat k)))
    (fun i received_cyclic_shifts =>
       y <- at_ (x :: l) i ;; Ok (received_cyclic_shifts ++ [y]))
    acc
  = Ok (acc ++ rev (firstn k l)).
Proof.
  revert acc. induction k as [|k IH]; intros acc Hk.
  - rewrite range_nil by lia. cbn. now rewrite app_nil_r.
  - rewrite Nat2Z.inj_succ, <- Z.add_1_r, Z.add_assoc.
    rewrite range_snoc, rev_app_distr by lia. cbn [rev app for_each].
    rewrite at_cons_pos by lia.
    replace (1 + Z.of_nat k - 1) with (Z.of_nat k) by lia.
    rewrite at_nth_error, (nth_error_nth' l 0) by lia. cbn [bind].
    rewrite IH by lia. rewrite (firstn_snoc l k 0) by lia.
    rewrite rev_app_distr, <- app_assoc. reflexivity.
Qed.

Lemma reorder_value (x : Z) (l : list Z) :
  Burst.reorder (x :: l) = Ok (x :: rev l).
Proof.
  unfold Burst.reorder. rewrite at_cons_0. cbn [bind].
  replace (size (x :: l)) with (1 + Z.of_nat (length l))
    by (unfold size; cbn [length]; lia).
  rewrite reorder_loop by lia. now rewrite firstn_all.
Qed.

Lemma reorder_get_cyclic_shifts w m :
  0 < m <= 32 ->
  Burst.reorder (get_cyclic_shifts w m)
  = Ok (w :: map (fun i => rotate_left m (m - i) w) (range 1 m)).
Proof.
  intros Hm. rewrite get_cyclic_shifts_rotations, reorder_value by exact Hm.
  rewrite <- map_rev, rev_range, map_map. do 2 f_equal.
  apply map_ext. intros i. f_equal. lia.
Qed.


Lemma size_cons {A} (x : A) l : size (x :: l) = 1 + size l.
Proof. unfold size. cbn [length]. lia. Qed.

(** C4, as the code has it. For a code length [0 < n <= 32] both syndrome
    lists have [n] entries. In [cyclic_codes.h] entry [i] is the syndrome of
    the received word rotated left by [i] positions; in [cyclic_codes_2.h],
    whose [get_syndromes] reorders the shifts first, entry [i] is the
    syndrome of the received word rotated left by [(n - i) mod n]
    positions, that is rotated right by [i]. *)
Theorem syndromes_in_shift_order :
  forall (c : WeightBound.CyclicCode) (c2 : Burst.CyclicCode) received_word,
    0 < WeightBound.code_length c <= 32 ->
    0 < Burst.code_length c2 <= 32 ->
    (exists parity_transpose syndromes,
        get_transpose (WeightBound.parity_check c) (WeightBound.code_length c)
        = Ok parity_transpose
        /\ WeightBound.syndromes_of c received_word = Ok syndromes
        /\ size syndromes = WeightBound.code_length c
        /\ forall i, 0 <= i < WeightBound.code_length c ->
             at_ syndromes i
             = syndrome parity_transpose
                 (rotate_left (WeightBound.code_length c) i received_word))
    /\ (exists parity_transpose syndromes,
           get_transpose (Burst.parity_check c2) (Burst.code_length c2)
           = Ok parity_transpose
           /\ Burst.get_syndromes c2 received_word = Ok syndromes
           /\ size syndromes = Burst.code_length c2
           /\ forall i, 0 <= i < Burst.code_length c2 ->
                at_ syndromes i
                = syndrome parity_transpose
                    (rotate_left (Burst.code_length c2)
                       ((Burst.code_length c2 - i) mod Burst.code_length c2)
                       received_word)).
Proof.
  intros c c2 w Hn Hn2. split.
  - set (n := WeightBound.code_length c) in *.
    set (T := map (transpose_row (WeightBound.parity_check c) n) (upto n)).
    assert (HT : size T = n) by (unfold T; rewrite size_map, size_upto; lia).
    exists T, (map (fun x => xor_all (selected_rows T x)) (get_cyclic_shifts w n)).
    unfold WeightBound.syndromes_of. fold n.
    rewrite get_transpose_value by lia. fold T. cbn [bind].
    split; [reflexivity|]. split.
    { apply map_result_map. intros x _. apply syndrome_value. }
    split; [rewrite size_map; now apply size_get_cyclic_shifts|].
    intros i Hi. rewrite at_map, get_cyclic_shifts_rotations by exact Hn.
    destruct (Z.eq_dec i 0) as [->|Hi0].
    + rewrite at_cons_0. cbn [bind]. rewrite <- syndrome_value.
      apply syndrome_ext. intros j Hj. rewrite rotate_left_0_low; [reflexivity|lia|lia].
    + rewrite at_cons_pos, at_map, at_range by lia. cbn [bind].
      rewrite <- syndrome_value. do 2 f_equal. lia.
  - set (n := Burst.code_length c2) in *.
    set (T := map (transpose_row (Burst.parity_check c2) n) (upto n)).
    assert (HT : size T = n) by (unfold T; rewrite size_map, size_upto; lia).
    exists T, (map (fun x => xor_all (selected_rows T x))
                 (w :: map (fun i => rotate_left n (n - i) w) (range 1 n))).
    unfold Burst.get_syndromes. fold n.
    rewrite reorder_get_cyclic_shifts by exact Hn2. cbn [bind].
    rewrite get_transpose_value by lia. fold T. cbn [bind].
    split; [reflexivity|]. split.
    { apply map_result_map. intros x _. apply syndrome_value. }
    split.
    { rewrite size_map, size_cons, size_map, size_range; lia. }
    intros i Hi. rewrite at_map.
    destruct (Z.eq_dec i 0) as [->|Hi0].
    + rewrite at_cons_0. cbn [bind]. rewrite <- syndrome_value.
      rewrite Z.sub_0_r, Z.mod_same by lia.
      apply syndrome_ext. intros j Hj. rewrite rotate_left_0_low; [reflexivity|lia|lia].
    + rewrite at_cons_pos, at_map, at_range by lia. cbn [bind].
      rewrite <- syndrome_value. rewrite Z.mod_small by lia.
      do 2 f_equal. lia.
Qed.

Lemma syndromes_in_shift_order_witness :
  let c := WeightBound.new [4; 2] [1] 3 in
  let c2 := Burst.new [4; 2] [1] 3 in
  (exists parity_transpose syndromes,
      get_transpose (WeightBound.parity_check c) (WeightBound.code_length c)
      = Ok parity_transpose
      /\ WeightBound.syndromes_of c 2 = Ok syndromes
      /\ size syndromes = WeightBound.code_length c
      /\ forall i, 0 <= i < WeightBound.code_length c ->
           at_ syndromes i
           = syndrome parity_transpose
               (rotate_left (WeightBound.code_length c) i 2))
  /\ (exists parity_transpose syndromes,
         get_transpose (Burst.parity_check c2) (Burst.code_length c2)
         = Ok parity_transpose
         /\ Burst.get_syndromes c2 2 = Ok syndromes
         /\ size syndromes = Burst.code_length c2
         /\ forall i, 0 <= i < Burst.code_length c2 ->
              at_ syndromes i
              = syndrome parity_transpose
                  (rotate_left (Burst.code_length c2)
                     ((Burst.code_length c2 - i) mod Burst.code_length c2) 2)).
Proof.
  apply (syndromes_in_shift_order
           (WeightBound.new [4; 2] [1] 3) (Burst.new [4; 2] [1] 3) 2);
    cbn; lia.
Defined.

(** C4 as stated fails for [get_syndromes] of [cyclic_codes_2.h]: for the
    parity check [001] of length 3 and the received word [010], entry 1 of
    the list is 1, the syndrome of [001] (the word rotated right by one),
    while the word rotated left by one, [100], has syndrome 0. *)
Lemma syndromes_order_counterexample :
  let c2 := Burst.new [4; 2] [1] 3 in
  get_transpose (Burst.parity_check c2) (Burst.code_length c2) = Ok [0; 0; 1]
  /\ Burst.get_syndromes c2 2 = Ok [0; 1; 0]
  /\ rotate_left 3 1 2 = 4
  /\ syndrome [0; 0; 1] (rotate_left 3 1 2) = Ok 0
  /\ at_ [0; 1; 0] 1 <> syndrome [0; 0; 1] (rotate_left 3 1 2).
Proof.
  cbv zeta. repeat split. vm_compute. discriminate.
Qed.

(** ** Hamming weight *)

Lemma hamming_distance_fold w (l : list Z) acc :
  (forall i, In i l -> 0 <= i) ->
  0 <= acc -> acc + size l < 2 ^ 32 ->
  fold_left (fun hamming_distance place_value =>
               wrap (hamming_distance + bit w place_value)) l acc
  = acc + size (filter (fun i => bit w i =? 1) l).
Proof.
  revert acc. induction l as [|i l IH]; intros acc Hl Hacc Hsz;
    cbn [fold_left filter].
  - unfold size. cbn. lia.
  - rewrite size_cons in Hsz. pose proof (size_nonneg l).
    assert (Hi : 0 <= i) by (apply Hl; now left).
    rewrite bit_b2z by exact Hi.
    assert (Hb : 0 <= Z.b2z (Z.testbit w i) <= 1)
      by (destruct (Z.testbit w i); cbn; lia).
    unfold wrap at 2. rewrite Z.mod_small by lia.
    rewrite IH; [|intros; apply Hl; now right|lia|lia].
    destruct (Z.testbit w i); cbn [Z.b2z];
      [change (1 =? 1) with true | change (0 =? 1) with false];
      cbn iota; [rewrite size_cons|]; lia.
Qed.

(** The Hamming distance is the number of places below the code length where
    the words differ. *)
Lemma hamming_distance_size n a b :
  0 <= n < 2 ^ 32 ->
  hamming_distance n a b = size (bit_place_values (Z.lxor a b) n).
Proof.
  intros Hn. unfold hamming_distance, bit_place_values.
  rewrite hamming_distance_fold.
  - lia.
  - intros i Hi. apply in_upto in Hi. lia.
  - lia.
  - rewrite size_upto; lia.
Qed.

Lemma size_filter_le {A} (f : A -> bool) (l : list A) :
  size (filter f l) <= size l.
Proof. unfold size. pose proof (filter_length_le f l). lia. Qed.

Lemma hamming_distance_range n a b :
  0 <= n < 2 ^ 32 -> 0 <= hamming_distance n a b <= n.
Proof.
  intros Hn. rewrite hamming_distance_size by exact Hn.
  unfold bit_place_values.
  pose proof (size_filter_le (fun i => bit (Z.lxor a b) i =? 1) (upto n)).
  rewrite size_upto in H by lia. split; [apply size_nonneg | lia].
Qed.


Lemma hamming_weight_0 n : 0 <= n < 2 ^ 32 -> hamming_distance n 0 0 = 0.
Proof.
  intros Hn. rewrite hamming_distance_size by exact Hn.
  unfold bit_place_values. rewrite filter_none; [reflexivity|].
  intros i Hi. apply in_upto in Hi. rewrite bit_eqb_1 by lia. apply Z.bits_0.
Qed.

(** A nonzero word of [n] bits has a positive weight. *)
Lemma hamming_weight_pos n w :
  0 <= n < 2 ^ 32 -> 0 < w < 2 ^ n -> 1 <= hamming_distance n 0 w.
Proof.
  intros Hn Hw. rewrite hamming_distance_size, Z.lxor_0_l by exact Hn.
  destruct (bit_place_values w n) as [|p l] eqn:E.
  - exfalso. assert (w = 0); [|lia].
    apply Z.bits_inj'. intros i Hi. rewrite Z.bits_0.
    destruct (Z.ltb_spec i n) as [Hlt|Hge].
    + destruct (Z.testbit w i) eqn:Hb; [|reflexivity].
      assert (In i (bit_place_values w n))
        by (apply in_bit_place_values; split; [lia | exact Hb]).
      rewrite E in H. contradiction.
    + apply (lt_pow2_bits n); lia.
  - rewrite size_cons. pose proof (size_nonneg l). lia.
Qed.

Lemma minimum_distance_fold n (l : list Z) d :
  0 <= n < 32 -> (forall w, In w l -> 0 <= w < 2 ^ n) -> 1 <= d <= UINT_MAX ->
  1 <= fold_left (fun distance word =>
                    if 0 <? word
                    then let word_weight := hamming_distance n 0 word in
                         if word_weight <? distance then word_weight else distance
                    else distance) l d <= UINT_MAX.
Proof.
  intros Hn. revert d. induction l as [|w l IH]; intros d Hl Hd; cbn [fold_left].
  - exact Hd.
  - apply IH; [intros; apply Hl; now right|].
    destruct (Z.ltb_spec 0 w) as [Hw|]; [|exact Hd]. cbn zeta.
    destruct (Z.ltb_spec (hamming_distance n 0 w) d); [|exact Hd].
    pose proof (hamming_weight_pos n w ltac:(lia)
                  ltac:(pose proof (Hl w (or_introl eq_refl)); lia)).
    lia.
Qed.

(** The bound of the weight decoder is [(d_min - 1) / 2], without
    wrap-around. *)
Lemma bound_new generator parity_check n :
  0 <= n <= 32 ->
  let c := WeightBound.new generator parity_check n in
  1 <= WeightBound.min_distance c <= UINT_MAX
  /\ WeightBound.bound c = (WeightBound.min_distance c - 1) / 2.
Proof.
  intros Hn c.
  assert (H : 1 <= WeightBound.min_distance c <= UINT_MAX).
  { unfold c, WeightBound.new. cbn [WeightBound.min_distance].
    unfold minimum_distance. destruct (Z.eq_dec n 32) as [->|Hne].
    - vm_compute. split; discriminate.
    - apply minimum_distance_fold; [lia| |unfold UINT_MAX; lia].
      intros w Hw. apply in_enumerate in Hw; [tauto | lia]. }
  split; [exact H|]. unfold WeightBound.bound, wrap.
  rewrite Z.mod_small; [reflexivity|]. unfold UINT_MAX in H. lia.
Qed.

(** ** The search of the weight decoder *)

Lemma at_Ok_range {A} (v : list A) i x : at_ v i = Ok x -> 0 <= i < size v.
Proof.
  unfold at_, size. destruct (Z.ltb_spec i 0); [discriminate|].
  destruct (nth_error v (Z.to_nat i)) eqn:E; [|discriminate]. intros _.
  assert (Z.to_nat i < length v)%nat by (apply nth_error_Some; congruence).
  lia.
Qed.

Lemma at_in_range {A} (v : list A) i :
  0 <= i < size v -> exists x, at_ v i = Ok x.
Proof.
  intros Hi. unfold at_, size in *. destruct (Z.ltb_spec i 0); [lia|].
  destruct (nth_error v (Z.to_nat i)) eqn:E; [now eexists|].
  apply nth_error_None in E. lia.
Qed.

Lemma wrap_small x : 0 <= x < 2 ^ 32 -> wrap x = x.
Proof. apply Z.mod_small. Qed.

Section WeightSearch.

Variable c : WeightBound.CyclicCode.
Variable syndromes : list Z.
Hypothesis Hsz : size syndromes < 2 ^ 32.

(** The loop stops at the first syndrome that is light enough. *)
Lemma weight_search_found i s (k fuel : nat) j :
  at_ syndromes i = Ok s ->
  hamming_distance (WeightBound.code_length c) 0 s <= WeightBound.bound c ->
  (forall j s', 0 <= j < i -> at_ syndromes j = Ok s' ->
                WeightBound.bound c
                < hamming_distance (WeightBound.code_length c) 0 s') ->
  0 <= j <= i -> k = Z.to_nat (i - j) -> (k < fuel)%nat ->
  while_loop (WeightBound.search_cond syndromes)
    (WeightBound.search_body c syndromes) fuel (false, j)
  = Ok ((true, i), S k).
Proof.
  intros Hi Hs Hbefore. apply at_Ok_range in Hi as Hir.
  revert fuel j. induction k as [|k IH]; intros fuel j Hj Hk Hfuel;
    (destruct fuel as [|fuel]; [lia|]); cbn [while_loop];
    unfold WeightBound.search_cond at 1; cbn [fst snd negb andb];
    (destruct (Z.ltb_spec j (size syndromes)); [|lia]);
    unfold WeightBound.search_body at 1; cbn [fst snd].
  - replace j with i by lia. rewrite Hi. cbn [bind].
    destruct (Z.leb_spec (hamming_distance (WeightBound.code_length c) 0 s)
                (WeightBound.bound c)); [|lia].
    cbn [bind]. destruct fuel; reflexivity.
  - destruct (at_in_range syndromes j ltac:(lia)) as [s' Hs'].
    rewrite Hs'. cbn [bind].
    pose proof (Hbefore j s' ltac:(lia) Hs').
    destruct (Z.leb_spec (hamming_distance (WeightBound.code_length c) 0 s')
                (WeightBound.bound c)); [lia|].
    cbn [bind]. rewrite wrap_small by lia.
    rewrite (IH fuel (j + 1)) by lia. reflexivity.
Qed.

(** Without such a syndrome it runs through the whole list. *)
Lemma weight_search_none (k fuel : nat) j :
  (forall i s, at_ syndromes i = Ok s ->
               WeightBound.bound c
               < hamming_distance (WeightBound.code_length c) 0 s) ->
  0 <= j <= size syndromes -> k = Z.to_nat (size syndromes - j) ->
  (k <= fuel)%nat ->
  while_loop (WeightBound.search_cond syndromes)
    (WeightBound.search_body c syndromes) fuel (false, j)
  = Ok ((false, size syndromes), k).
Proof.
  intros Hall. revert fuel j.
  induction k as [|k IH]; intros fuel j Hj Hk Hfuel.
  - replace j with (size syndromes) by lia.
    destruct fuel; cbn [while_loop]; unfold WeightBound.search_cond;
      cbn [fst snd negb andb]; now rewrite Z.ltb_irrefl.
  - destruct fuel as [|fuel]; [lia|]. cbn [while_loop].
    unfold WeightBound.search_cond at 1. cbn [fst snd negb andb].
    destruct (Z.ltb_spec j (size syndromes)); [|lia].
    unfold WeightBound.search_body at 1. cbn [fst snd].
    destruct (at_in_range syndromes j ltac:(lia)) as [s' Hs'].
    rewrite Hs'. cbn [bind]. pose proof (Hall j s' Hs').
    destruct (Z.leb_spec (hamming_distance (WeightBound.code_length c) 0 s')
                (WeightBound.bound c)); [lia|].
    cbn [bind]. rewrite wrap_small by lia.
    rewrite (IH fuel (j + 1)) by lia. reflexivity.
Qed.

End WeightSearch.

(** The relocation of the weight decoder is a rotation to the left by
    [(n - which_syndrome) mod n]. *)
Lemma weight_shift_syndrome c light_syndrome which_syndrome :
  0 < WeightBound.code_length c <= 32 ->
  0 <= which_syndrome < WeightBound.code_length c ->
  WeightBound.shift_syndrome c light_syndrome which_syndrome
  = rotate_left (WeightBound.code_length c)
      ((WeightBound.code_length c - which_syndrome)
       mod WeightBound.code_length c)
      light_syndrome.
Proof.
  intros Hn Hi. unfold WeightBound.shift_syndrome.
  set (n := WeightBound.code_length c) in *.
  rewrite (wrap_small (n - which_syndrome)) by lia.
  rewrite (map_ext_in _ (fun p => (p + (n - which_syndrome)) mod n)).
  2:{ intros p Hp. apply in_bit_place_values in Hp.
      rewrite wrap_small by lia. reflexivity. }
  rewrite word_of_shifted_place_values by lia.
  destruct (Z.eq_dec which_syndrome 0) as [->|Hne].
  - rewrite Z.sub_0_r, Z.mod_same by lia. apply rotate_left_full. lia.
  - now rewrite Z.mod_small by lia.
Qed.

(** ** The syndrome lists *)

Lemma get_cyclic_shifts_shape w m :
  exists l, get_cyclic_shifts w m = w :: l /\ length l = Z.to_nat (m - 1).
Proof.
  unfold get_cyclic_shifts. rewrite <- (range_length 1 m).
  generalize (bit_place_values w m) as places.
  assert (H : forall (l0 : list Z) places acc,
             exists l,
               snd (fold_left
                      (fun (st : list Z * list Z) (_ : Z) =>
                         let bit_place_values :=
                           map (fun pv => wrap (pv + 1) mod m) (fst st) in
                         let cyclic_shift :=
                           word_of_place_values bit_place_values in
                         (bit_place_values, snd st ++ [cyclic_shift]))
                      l0 (places, w :: acc))
               = w :: l /\ length l = (length acc + length l0)%nat).
  { induction l0 as [|x l0 IH]; intros places acc; cbn [fold_left fst snd].
    - exists acc. split; [reflexivity | cbn; lia].
    - destruct (IH (map (fun pv => wrap (pv + 1) mod m) places)
                  (acc ++ [word_of_place_values
                             (map (fun pv => wrap (pv + 1) mod m) places)]))
        as (l & E & Hl).
      exists l. split; [exact E|]. rewrite Hl, length_app. cbn [length]. lia. }
  intros places. destruct (H (range 1 m) places []) as (l & E & Hl).
  exists l. split; [exact E | exact Hl].
Qed.

Lemma weight_syndromes_value (c : WeightBound.CyclicCode) w :
  0 <= WeightBound.code_length c < 2 ^ 32 ->
  WeightBound.syndromes_of c w
  = Ok (map (syndrome_of_word (WeightBound.parity_check c)
               (WeightBound.code_length c))
            (get_cyclic_shifts w (WeightBound.code_length c))).
Proof.
  intros Hn. unfold WeightBound.syndromes_of.
  rewrite get_transpose_value by exact Hn. cbn [bind].
  apply map_result_map. intros x _. apply syndrome_value.
Qed.

Lemma burst_syndromes_value (c : Burst.CyclicCode) w :
  0 <= Burst.code_length c < 2 ^ 32 ->
  Burst.get_syndromes c w
  = Ok (map (syndrome_of_word (Burst.parity_check c) (Burst.code_length c))
            (w :: rev (tl (get_cyclic_shifts w (Burst.code_length c))))).
Proof.
  intros Hn. unfold Burst.get_syndromes.
  destruct (get_cyclic_shifts_shape w (Burst.code_length c)) as (l & E & _).
  rewrite E, reorder_value. cbn [bind tl].
  rewrite get_transpose_value by exact Hn. cbn [bind].
  apply map_result_map. intros x _. apply syndrome_value.
Qed.

Lemma size_weight_syndromes (c : WeightBound.CyclicCode) w :
  0 < WeightBound.code_length c ->
  size (map (syndrome_of_word (WeightBound.parity_check c)
               (WeightBound.code_length c))
            (get_cyclic_shifts w (WeightBound.code_length c)))
  = WeightBound.code_length c.
Proof.
  intros Hn. rewrite size_map.
  destruct (get_cyclic_shifts_shape w (WeightBound.code_length c)) as (l & E & Hl).
  rewrite E, size_cons. unfold size. lia.
Qed.

Lemma size_burst_syndromes (c : Burst.CyclicCode) w :
  0 < Burst.code_length c ->
  size (map (syndrome_of_word (Burst.parity_check c) (Burst.code_length c))
            (w :: rev (tl (get_cyclic_shifts w (Burst.code_length c)))))
  = Burst.code_length c.
Proof.
  intros Hn. rewrite size_map.
  destruct (get_cyclic_shifts_shape w (Burst.code_length c)) as (l & E & Hl).
  rewrite E, size_cons. cbn [tl]. unfold size. rewrite length_rev. lia.
Qed.

(** C3. For a code of length [0 < n <= 32] with [r <= n] parity rows (so
    that the shift by [n - r] is defined), and enough fuel for [n] turns of
    the search loop: the bound is
    [(d_min - 1) / 2]; [decode_word] of [cyclic_codes.h] computes the [n]
    syndromes and accepts the first one, in the order [0 .. n-1], whose
    Hamming weight is at most the bound; if that is entry [i], the decoded
    word is the received word XOR the syndrome shifted left by [n - r] bits
    and rotated by [(n - i) mod n] positions (and the self-check prints its
    dump when the result is no code word); if no syndrome meets the bound,
    the result is that of the nearest-neighbour search. *)
Theorem weight_decoder_behaviour :
  forall generator parity_check n received_word (fuel : nat),
    0 < n <= 32 -> size parity_check <= n -> (Z.to_nat n <= fuel)%nat ->
    let c := WeightBound.new generator parity_check n in
    let weight := hamming_distance n 0 in
    WeightBound.bound c = (WeightBound.min_distance c - 1) / 2
    /\ exists syndromes,
        WeightBound.syndromes_of c received_word = Ok syndromes
        /\ size syndromes = n
        /\ (forall i s,
               at_ syndromes i = Ok s ->
               weight s <= WeightBound.bound c ->
               (forall j s', 0 <= j < i -> at_ syndromes j = Ok s' ->
                             WeightBound.bound c < weight s') ->
               let decoded_word :=
                 Z.lxor received_word
                   (rotate_left n ((n - i) mod n)
                      (shl s (n - size parity_check))) in
               WeightBound.decode_word c fuel received_word
               = Ok (decoded_word,
                     if is_code_word parity_check n decoded_word
                     then [] else [diagnostics]))
        /\ ((forall i s, at_ syndromes i = Ok s ->
                         WeightBound.bound c < weight s) ->
            WeightBound.decode_word c fuel received_word
            = (decoded_word <-
                 nearest_neighbor_search (WeightBound.code_words c) n
                   received_word ;;
               Ok (decoded_word, []))).
Proof.
  intros generator parity_check n w fuel Hn Hr Hfuel c weight.
  split; [apply bound_new; lia|].
  assert (Hn' : 0 <= WeightBound.code_length c < 2 ^ 32) by (cbn; lia).
  pose proof (weight_syndromes_value c w Hn') as Hs.
  pose proof (size_weight_syndromes c w ltac:(cbn; lia)) as Hsz.
  set (syndromes := map _ _) in *. cbn [WeightBound.code_length c] in Hsz.
  change (WeightBound.code_length c) with n in Hsz.
  exists syndromes. split; [exact Hs|]. split; [exact Hsz|]. split.
  - intros i s Hi Hlight Hbefore decoded_word.
    apply at_Ok_range in Hi as Hir.
    unfold WeightBound.decode_word. rewrite Hs. cbn [bind].
    rewrite (weight_search_found c syndromes ltac:(lia) i s (Z.to_nat i) fuel 0);
      try assumption; try lia.
    cbn [bind fst snd negb]. rewrite Hi. cbn [bind].
    rewrite weight_shift_syndrome by (cbn; lia).
    change (WeightBound.code_length c) with n.
    change (WeightBound.parity_check c) with parity_check.
    fold decoded_word. now destruct (is_code_word parity_check n decoded_word).
  - intros Hnone. unfold WeightBound.decode_word. rewrite Hs. cbn [bind].
    rewrite (weight_search_none c syndromes ltac:(lia)
               (Z.to_nat (size syndromes)) fuel 0);
      try assumption; try lia.
    reflexivity.
Qed.

Lemma weight_decoder_behaviour_witness :
  WeightBound.decode_word (WeightBound.new [7] [3; 5] 3) 3 3
  = Ok (1, [diagnostics])
  /\ WeightBound.decode_word (WeightBound.new [4; 2] [1] 3) 3 7 = Ok (6, []).
Proof.
  split.
  - destruct (weight_decoder_behaviour [7] [3; 5] 3 3 3%nat)
      as (_ & syndromes & Hs & _ & Hfound & _); [lia | cbn; lia | lia |].
    vm_compute in Hs. injection Hs as <-.
    apply (Hfound 0 1 eq_refl).
    + vm_compute. discriminate.
    + intros j s' Hj. lia.
  - destruct (weight_decoder_behaviour [4; 2] [1] 3 7 3%nat)
      as (_ & syndromes & Hs & _ & _ & Hnone); [lia | cbn; lia | lia |].
    vm_compute in Hs. injection Hs as <-.
    apply Hnone. intros i s Hi.
    assert (E : s = 1).
    { apply at_Ok_range in Hi as Hr. change (size [1; 1; 1]) with 3 in Hr.
      assert (i = 0 \/ i = 1 \/ i = 2) as [-> | [-> | ->]] by lia;
        vm_compute in Hi; congruence. }
    subst s. vm_compute. reflexivity.
Defined.

(** ** The nearest-neighbour search *)

(** The search loop keeps the first element of least weight. *)
Lemma least_weight_fold (wt : Z -> Z) (l : list Z) (e0 : Z) :
  l <> [] -> (forall x, In x l -> wt x < UINT_MAX) ->
  let st := fold_left (fun (st : Z * Z) x =>
                         if wt x <? fst st then (wt x, x) else st)
                      l (UINT_MAX, e0) in
  exists i : nat,
    nth_error l i = Some (snd st)
    /\ fst st = wt (snd st)
    /\ (forall j x, nth_error l j = Some x -> wt (snd st) <= wt x)
    /\ (forall j x, (j < i)%nat -> nth_error l j = Some x -> wt (snd st) < wt x).
Proof.
  induction l as [|x l IH] using rev_ind; intros Hne Hwt; [congruence|].
  cbn zeta. rewrite fold_left_app. cbn [fold_left].
  destruct l as [|y l'].
  - cbn [fold_left fst snd]. assert (wt x < UINT_MAX) by (apply Hwt; now left).
    destruct (Z.ltb_spec (wt x) UINT_MAX); [|lia]. cbn [fst snd].
    exists O. repeat split.
    + intros [|[|j]] z Hz; cbn in Hz; try discriminate. injection Hz as <-. lia.
    + intros j z Hj. lia.
  - set (l := y :: l') in *.
    destruct IH as (i & Hi & Hfst & Hmin & Hfirst);
      [discriminate | intros; apply Hwt, in_or_app; now left |].
    set (st := fold_left _ l _) in *.
    destruct (Z.ltb_spec (wt x) (fst st)) as [Hlt|Hge]; cbn [fst snd].
    + exists (length l). repeat split.
      * now rewrite nth_error_app2, Nat.sub_diag by lia.
      * intros j z Hz. destruct (Nat.lt_ge_cases j (length l)) as [Hj|Hj].
        -- rewrite nth_error_app1 in Hz by exact Hj.
           specialize (Hmin j z Hz). lia.
        -- rewrite nth_error_app2 in Hz by exact Hj.
           destruct (j - length l)%nat as [|[|k]]; cbn in Hz; try discriminate.
           injection Hz as <-. lia.
      * intros j z Hj Hz. rewrite nth_error_app1 in Hz by exact Hj.
        specialize (Hmin j z Hz). lia.
    + exists i. assert (Hil : (i < length l)%nat)
        by (apply nth_error_Some; congruence).
      repeat split.
      * now rewrite nth_error_app1 by exact Hil.
      * exact Hfst.
      * intros j z Hz. destruct (Nat.lt_ge_cases j (length l)) as [Hj|Hj].
        -- rewrite nth_error_app1 in Hz by exact Hj. now apply (Hmin j).
        -- rewrite nth_error_app2 in Hz by exact Hj.
           destruct (j - length l)%nat as [|[|k]]; cbn in Hz; try discriminate.
           injection Hz as <-. lia.
      * intros j z Hj Hz. rewrite nth_error_app1 in Hz by lia.
        now apply (Hfirst j).
Qed.

Lemma hamming_distance_coset n r w :
  hamming_distance n 0 (Z.lxor r w) = hamming_distance n r w.
Proof. unfold hamming_distance. now rewrite Z.lxor_0_l. Qed.

Lemma lxor_cancel r w : Z.lxor r (Z.lxor r w) = w.
Proof. now rewrite <- Z.lxor_assoc, Z.lxor_nilpotent, Z.lxor_0_l. Qed.

(** The search returns the first code word at least distance. *)
Lemma nearest_neighbor_search_first code_words n received_word :
  0 <= n <= 32 -> code_words <> [] ->
  exists (i : nat) w,
    nearest_neighbor_search code_words n received_word = Ok w
    /\ nth_error code_words i = Some w
    /\ (forall j w', nth_error code_words j = Some w' ->
                     hamming_distance n received_word w
                     <= hamming_distance n received_word w')
    /\ (forall j w', (j < i)%nat -> nth_error code_words j = Some w' ->
                     hamming_distance n received_word w
                     < hamming_distance n received_word w').
Proof.
  intros Hn Hne. unfold nearest_neighbor_search.
  destruct code_words as [|c0 cw] eqn:Ecw; [congruence|]. rewrite <- Ecw.
  set (coset := map (fun code_word => Z.lxor received_word code_word) code_words).
  assert (Hat : at_ coset 0 = Ok (Z.lxor received_word c0))
    by (unfold coset; rewrite Ecw; reflexivity).
  rewrite Hat. cbn [bind].
  destruct (least_weight_fold (hamming_distance n 0) coset
              (Z.lxor received_word c0))
    as (i & Hi & _ & Hmin & Hfirst).
  { unfold coset. rewrite Ecw. discriminate. }
  { intros x _. pose proof (hamming_distance_range n 0 x ltac:(lia)).
    unfold UINT_MAX. lia. }
  set (st := fold_left _ coset _) in *. clearbody st.
  destruct st as [least_hw error_word]. cbn [fst snd] in *.
  unfold coset in Hi. rewrite nth_error_map in Hi.
  destruct (nth_error code_words i) as [w|] eqn:Ew; [|discriminate].
  cbn [option_map] in Hi. injection Hi as Hi. subst error_word.
  exists i, w. rewrite lxor_cancel.
  split; [reflexivity|]. split; [exact Ew|]. split.
  - intros j w' Hj. rewrite <- (hamming_distance_coset n received_word w),
      <- (hamming_distance_coset n received_word w').
    apply (Hmin j). unfold coset. now rewrite nth_error_map, Hj.
  - intros j w' Hlt Hj. rewrite <- (hamming_distance_coset n received_word w),
      <- (hamming_distance_coset n received_word w').
    apply (Hfirst j); [exact Hlt|]. unfold coset. now rewrite nth_error_map, Hj.
Qed.

Lemma sorted_nth_le (l : list Z) (i j : nat) a b :
  StronglySorted Z.lt l -> (i <= j)%nat ->
  nth_error l i = Some a -> nth_error l j = Some b -> a <= b.
Proof.
  intros Hs. revert i j. induction Hs as [|x l Hl IH Hx]; intros i j Hij Ha Hb.
  - destruct i; discriminate.
  - destruct i as [|i], j as [|j]; cbn in Ha, Hb; try lia.
    + injection Ha as <-. injection Hb as <-. lia.
    + injection Ha as <-. rewrite Forall_forall in Hx.
      apply nth_error_In in Hb. specialize (Hx b Hb). lia.
    + apply (IH i j); [lia | assumption | assumption].
Qed.

(** C6. For a code of length [n < 32] and every received word, the
    nearest-neighbour search succeeds and returns a member of the code book
    at the least Hamming distance from the received word; among the members
    at that distance it returns the one enumerated first, which is the
    numerically smallest. This is the fallback of [decode_word] in
    [cyclic_codes.h] and the body of [nearest_neighbor] in
    [cyclic_codes_2.h], which prints one line besides (and which
    [decode_word] there never calls). For [n = 32] the code book is empty,
    but the bound of the weight test is then [2^31 - 1], above every
    weight, so the fallback is not reached. *)
Theorem nearest_neighbor_optimal :
  forall generator parity_check n received_word,
    0 <= n <= 32 ->
    let c := WeightBound.new generator parity_check n in
    let code_words := WeightBound.code_words c in
    let distance := hamming_distance n received_word in
    (n < 32 ->
     exists (i : nat) w,
       nearest_neighbor_search code_words n received_word = Ok w
       /\ Burst.nearest_neighbor (Burst.new generator parity_check n)
            received_word = Ok (w, [used_nn_decoding])
       /\ nth_error code_words i = Some w
       /\ (forall w', In w' code_words -> distance w <= distance w')
       /\ (forall w', 0 <= w' < 2 ^ n ->
                      is_code_word parity_check n w' = true ->
                      distance w <= distance w')
       /\ (forall j w', (j < i)%nat -> nth_error code_words j = Some w' ->
                        distance w < distance w')
       /\ (forall w', In w' code_words -> distance w' = distance w -> w <= w'))
    /\ (n = 32 ->
        code_words = []
        /\ forall s, hamming_distance n 0 s <= WeightBound.bound c).
Proof.
  intros generator parity_check n r Hn c code_words distance. split.
  - intros Hn32.
    assert (Hne : code_words <> []).
    { intros E. assert (H0 : In 0 code_words).
      { apply in_enumerate; [lia|]. split; [|apply is_code_word_0].
        split; [lia | apply Z.pow_pos_nonneg; lia]. }
      rewrite E in H0. contradiction. }
    destruct (nearest_neighbor_search_first code_words n r ltac:(lia) Hne)
      as (i & w & Hw & Hi & Hmin & Hfirst).
    exists i, w.
    assert (Hall : forall w', In w' code_words -> distance w <= distance w').
    { intros w' Hw'. apply In_nth_error in Hw'. destruct Hw' as [j Hj].
      now apply (Hmin j). }
    repeat split; try assumption.
    + unfold Burst.nearest_neighbor.
      cbn [Burst.code_words Burst.code_length Burst.new].
      change (enumerate_code_words parity_check n) with code_words.
      rewrite Hw. reflexivity.
    + intros w' Hr Hc. apply Hall. apply in_enumerate; [lia | tauto].
    + intros w' Hw' Hd. apply In_nth_error in Hw'. destruct Hw' as [j Hj].
      destruct (Nat.lt_ge_cases j i) as [Hlt|Hge].
      * specialize (Hfirst j w' Hlt Hj). unfold distance in Hd. lia.
      * apply (sorted_nth_le code_words i j); try assumption.
        apply filter_sorted, range_sorted.
  - intros ->. split; [reflexivity|]. intros s.
    pose proof (hamming_distance_range 32 0 s ltac:(lia)).
    change (WeightBound.bound c) with 2147483647. lia.
Qed.

Lemma nearest_neighbor_optimal_witness :
  nearest_neighbor_search
    (WeightBound.code_words (WeightBound.new [7] [3; 5] 3)) 3 3 = Ok 7.
Proof.
  destruct (nearest_neighbor_optimal [7] [3; 5] 3 3) as [H _]; [lia|].
  destruct H as (i & w & Hw & _ & _ & Hmin & _); [lia|].
  rewrite Hw. f_equal.
  assert (H7 : In 7 (WeightBound.code_words (WeightBound.new [7] [3; 5] 3)))
    by (vm_compute; tauto).
  specialize (Hmin 7 H7).
  assert (Hin : In w (WeightBound.code_words (WeightBound.new [7] [3; 5] 3))).
  { vm_compute in Hw. injection Hw as <-. vm_compute. tauto. }
  vm_compute in Hin. destruct Hin as [<-|[<-|[]]]; [|reflexivity].
  vm_compute in Hmin. exfalso. now apply Hmin.
Defined.

(** ** Burst lengths *)

Lemma for_each_total {A S} (l : list A) (body : A -> S -> result S) s :
  (forall x s, exists s', body x s = Ok s') ->
  exists s', for_each l body s = Ok s'.
Proof.
  intros H. revert s. induction l as [|x l IH]; intros s; cbn.
  - now exists s.
  - destruct (H x s) as [s' ->]. cbn. apply IH.
Qed.

Lemma get_burst_length_value syndrome syndrome_length :
  Burst.get_burst_length syndrome syndrome_length
  = Ok (burst_length_of syndrome syndrome_length).
Proof.
  unfold burst_length_of.
  assert (H : exists b, Burst.get_burst_length syndrome syndrome_length = Ok b).
  { unfold Burst.get_burst_length. apply for_each_total. intros x b.
    destruct (bit_place_values x syndrome_length) as [|p l] eqn:E.
    - now eexists.
    - cbn [negb]. rewrite (at_nth _ _ 0)
        by (rewrite size_cons; pose proof (size_nonneg l); lia).
      cbn [bind]. rewrite at_cons_0. cbn [bind]. now eexists. }
  destruct H as [b ->]. reflexivity.
Qed.


Lemma for_each_const {A} (l : list A) (body : A -> Z -> result Z) (v s : Z) :
  l <> [] -> (forall x s, In x l -> body x s = Ok v) ->
  for_each l body s = Ok v.
Proof.
  revert s. induction l as [|x l IH]; intros s Hne H; [congruence|].
  cbn. rewrite H by now left. cbn. destruct l as [|y l']; [reflexivity|].
  apply IH; [discriminate | intros; apply H; now right].
Qed.

(** The zero syndrome has burst length zero. *)
Lemma burst_length_zero syndrome_length :
  0 <= syndrome_length <= 32 ->
  Burst.get_burst_length 0 syndrome_length = Ok 0.
Proof.
  intros HL. unfold Burst.get_burst_length.
  assert (Hz : forall x, In x (get_cyclic_shifts 0 syndrome_length) -> x = 0).
  { destruct (Z.eq_dec syndrome_length 0) as [->|Hne].
    - intros x [<-|[]]. reflexivity.
    - rewrite get_cyclic_shifts_rotations by lia. intros x [<-|Hx]; [reflexivity|].
      apply in_map_iff in Hx. destruct Hx as (i & <- & _). apply rotate_left_zero. }
  apply for_each_const.
  - destruct (get_cyclic_shifts_shape 0 syndrome_length) as (l & -> & _).
    discriminate.
  - intros x b Hx. rewrite (Hz x Hx).
    replace (bit_place_values 0 syndrome_length) with (@nil Z); [reflexivity|].
    symmetry. apply filter_none. intros i Hi. apply in_upto in Hi.
    rewrite bit_eqb_1 by lia. apply Z.bits_0.
Qed.

(** ** The search of the burst decoder *)

Lemma find_from_range p l j i : find_from p l j = Some i -> j <= i < j + size l.
Proof.
  revert j. induction l as [|x l IH]; intros j H; cbn in H; [discriminate|].
  rewrite size_cons. pose proof (size_nonneg l).
  destruct (p x).
  - injection H as <-. lia.
  - apply IH in H. lia.
Qed.

(** Projections of a state of the search. *)
Ltac simpl_search :=
  cbn [bind fst snd negb andb scan_state Burst.found_syndrome
       Burst.which_syndrome Burst.desired_burst_length Burst.light_syndrome
       Burst.light_syndrome_pos].

Section BurstSearch.

Variables syndromes burst_lengths : list Z.
Hypothesis Hsz : size burst_lengths = size syndromes.
Hypothesis Hlt : size syndromes < 2 ^ 32.

(** One run of the inner loop from a state that has found nothing yet. *)
Lemma scan_run desired light pos (l pre : list Z) (fuel : nat) :
  burst_lengths = pre ++ l ->
  (length l <= fuel)%nat ->
  while_loop (Burst.scan_cond syndromes)
    (Burst.scan_body syndromes burst_lengths) fuel
    (scan_state false light pos (size pre) desired)
  = Ok (match find_from (Z.eqb desired) l (size pre) with
        | Some i =>
            (scan_state true (nth (Z.to_nat i) syndromes 0) i (i + 1) desired,
             Z.to_nat (i - size pre + 1))
        | None =>
            (scan_state false light pos (size syndromes) desired, length l)
        end).
Proof.
  intros E. revert pre fuel E.
  induction l as [|x l IH]; intros pre fuel E Hfuel.
  - assert (Hp : size pre = size syndromes)
      by (rewrite <- Hsz, E, app_nil_r; reflexivity).
    cbn [find_from length]. rewrite Hp.
    destruct fuel; cbn [while_loop]; unfold Burst.scan_cond;
      cbn [scan_state Burst.found_syndrome Burst.which_syndrome negb andb];
      now rewrite Z.ltb_irrefl.
  - assert (Hp : size pre < size syndromes).
    { rewrite <- Hsz, E. unfold size. rewrite length_app. cbn [length]. lia. }
    pose proof (size_nonneg pre) as Hp0.
    destruct fuel as [|fuel]; [cbn [length] in Hfuel; lia|].
    cbn [while_loop]. unfold Burst.scan_cond at 1.
    cbn [scan_state Burst.found_syndrome Burst.which_syndrome negb andb].
    destruct (Z.ltb_spec (size pre) (size syndromes)); [|lia].
    unfold Burst.scan_body at 1.
    cbn [scan_state Burst.found_syndrome Burst.which_syndrome
         Burst.desired_burst_length Burst.light_syndrome
         Burst.light_syndrome_pos].
    assert (Hx : at_ burst_lengths (size pre) = Ok x).
    { unfold size. rewrite at_nth_error, E, nth_error_app2, Nat.sub_diag by lia.
      reflexivity. }
    rewrite Hx. cbn [bind find_from]. rewrite (Z.eqb_sym x desired).
    destruct (Z.eqb_spec desired x) as [<-|Hne].
    + rewrite (at_nth _ _ 0) by lia. cbn [bind].
      cbn [Burst.found_syndrome Burst.which_syndrome
           Burst.desired_burst_length Burst.light_syndrome
           Burst.light_syndrome_pos].
      rewrite wrap_small by lia.
      destruct fuel; cbn [while_loop]; unfold Burst.scan_cond;
        cbn [Burst.found_syndrome negb andb bind fst snd];
        replace (Z.to_nat (size pre - size pre + 1)) with 1%nat by lia;
        reflexivity.
    + cbn [bind scan_state Burst.found_syndrome Burst.which_syndrome
           Burst.desired_burst_length Burst.light_syndrome
           Burst.light_syndrome_pos].
      rewrite wrap_small by lia.
      replace (size pre + 1) with (size (pre ++ [x]))
        by (unfold size; rewrite length_app; cbn [length]; lia).
      fold (scan_state false light pos (size (pre ++ [x])) desired).
      rewrite (IH (pre ++ [x]) fuel);
        [|rewrite <- app_assoc; exact E | cbn [length] in Hfuel; lia].
      cbn [bind].
      destruct (find_from (Z.eqb desired) l (size (pre ++ [x]))) as [i|] eqn:Ef;
        cbn [fst snd]; [|reflexivity].
      apply find_from_range in Ef.
      replace (size (pre ++ [x])) with (size pre + 1) in *
        by (unfold size; rewrite length_app; cbn [length]; lia).
      do 2 f_equal. lia.
Qed.

(** A run of the inner loop after a syndrome was found does nothing. *)
Lemma scan_skip (st : Burst.search) (fuel : nat) :
  Burst.found_syndrome st = true ->
  while_loop (Burst.scan_cond syndromes)
    (Burst.scan_body syndromes burst_lengths) fuel st
  = Ok (st, O).
Proof.
  intros H. destruct fuel; cbn [while_loop]; unfold Burst.scan_cond;
    now rewrite H.
Qed.

Lemma wrap_pred_0 : wrap (0 - 1) = UINT_MAX.
Proof. reflexivity. Qed.

(** The outer loop once a syndrome is found: it only counts down. *)
Lemma search_after_found (fuel_in : nat) light pos (k fuel : nat) :
  Z.of_nat k < UINT_MAX -> (k < fuel)%nat ->
  while_loop Burst.search_cond
    (Burst.search_body syndromes burst_lengths fuel_in) fuel
    (scan_state true light pos 0 (Z.of_nat k))
  = Ok (scan_state true light pos 0 UINT_MAX, S k).
Proof.
  revert fuel. induction k as [|k IH]; intros fuel Hk Hfuel;
    (destruct fuel as [|fuel]; [lia|]); cbn [while_loop];
    unfold Burst.search_cond at 1; simpl_search;
    match goal with
    | |- context [?x =? UINT_MAX] =>
        destruct (Z.eqb_spec x UINT_MAX); [lia|]
    end; cbn [negb];
    unfold Burst.search_body at 1; rewrite scan_skip by reflexivity;
    simpl_search.
  - change (Z.of_nat 0) with 0. rewrite wrap_pred_0.
    fold (scan_state true light pos 0 UINT_MAX).
    destruct fuel; reflexivity.
  - replace (wrap (Z.of_nat (S k) - 1)) with (Z.of_nat k)
      by (unfold UINT_MAX in Hk; rewrite wrap_small; lia).
    fold (scan_state true light pos 0 (Z.of_nat k)).
    rewrite IH by lia. reflexivity.
Qed.

(** The outer loop from the initial state: it selects what [burst_search]
    selects, in [desired + 1] turns. *)
Lemma search_run (fuel_in : nat) light pos (k fuel : nat) :
  (length burst_lengths <= fuel_in)%nat ->
  Z.of_nat k < UINT_MAX -> (k < fuel)%nat ->
  while_loop Burst.search_cond
    (Burst.search_body syndromes burst_lengths fuel_in) fuel
    (scan_state false light pos 0 (Z.of_nat k))
  = Ok (match burst_search burst_lengths k with
        | Some i => scan_state true (nth (Z.to_nat i) syndromes 0) i 0 UINT_MAX
        | None => scan_state false light pos 0 UINT_MAX
        end, S k).
Proof.
  intros Hin. revert fuel.
  induction k as [|k IH]; intros fuel Hk Hfuel;
    (destruct fuel as [|fuel]; [lia|]); cbn [while_loop];
    unfold Burst.search_cond at 1; simpl_search;
    match goal with
    | |- context [?x =? UINT_MAX] =>
        destruct (Z.eqb_spec x UINT_MAX); [lia|]
    end; cbn [negb];
    unfold Burst.search_body at 1;
    change 0 with (size (@nil Z)) at 1;
    rewrite (scan_run _ light pos burst_lengths [])
      by (try reflexivity; assumption);
    change (size (@nil Z)) with 0; cbn [burst_search];
    destruct (find_from _ burst_lengths 0) as [i|]; simpl_search.
  - change (Z.of_nat 0) with 0. rewrite wrap_pred_0.
    fold (scan_state true (nth (Z.to_nat i) syndromes 0) i 0 UINT_MAX).
    destruct fuel; reflexivity.
  - change (Z.of_nat 0) with 0. rewrite wrap_pred_0.
    fold (scan_state false light pos 0 UINT_MAX).
    destruct fuel; reflexivity.
  - replace (wrap (Z.of_nat (S k) - 1)) with (Z.of_nat k)
      by (unfold UINT_MAX in Hk; rewrite wrap_small; lia).
    fold (scan_state true (nth (Z.to_nat i) syndromes 0) i 0 (Z.of_nat k)).
    rewrite search_after_found by lia. reflexivity.
  - replace (wrap (Z.of_nat (S k) - 1)) with (Z.of_nat k)
      by (unfold UINT_MAX in Hk; rewrite wrap_small; lia).
    fold (scan_state false light pos 0 (Z.of_nat k)).
    rewrite IH by lia. reflexivity.
Qed.

End BurstSearch.

Lemma find_from_none p l j :
  (forall x, In x l -> p x = false) -> find_from p l j = None.
Proof.
  revert j. induction l as [|x l IH]; intros j H; cbn; [reflexivity|].
  rewrite H by now left. apply IH. intros; apply H; now right.
Qed.

Lemma find_from_first p (pre post : list Z) x j :
  p x = true -> (forall y, In y pre -> p y = false) ->
  find_from p (pre ++ x :: post) j = Some (j + size pre).
Proof.
  intros Hx. revert j. induction pre as [|y pre IH]; intros j Hpre;
    cbn [app find_from].
  - rewrite Hx. f_equal. unfold size. cbn. lia.
  - rewrite Hpre by now left. rewrite IH by (intros; apply Hpre; now right).
    f_equal. rewrite size_cons. lia.
Qed.

Lemma burst_search_none burst_lengths (k : nat) :
  (forall x, In x burst_lengths -> ~ 0 <= x <= Z.of_nat k) ->
  burst_search burst_lengths k = None.
Proof.
  induction k as [|k IH]; intros H; cbn [burst_search];
    rewrite find_from_none.
  - reflexivity.
  - intros x Hx. specialize (H x Hx). apply Z.eqb_neq. lia.
  - apply IH. intros x Hx. specialize (H x Hx). lia.
  - intros x Hx. specialize (H x Hx). apply Z.eqb_neq. lia.
Qed.

Lemma burst_search_select burst_lengths (d k : nat) i :
  (d <= k)%nat ->
  find_from (Z.eqb (Z.of_nat d)) burst_lengths 0 = Some i ->
  (forall x, In x burst_lengths -> ~ Z.of_nat d < x <= Z.of_nat k) ->
  burst_search burst_lengths k = Some i.
Proof.
  intros Hd Hfind. induction k as [|k IH]; intros H.
  - replace d with O in Hfind by lia. cbn [burst_search]. now rewrite Hfind.
  - destruct (Nat.eq_dec d (S k)) as [->|Hne].
    + cbn [burst_search]. now rewrite Hfind.
    + cbn [burst_search]. rewrite find_from_none.
      * apply IH; [lia|]. intros x Hx. specialize (H x Hx). lia.
      * intros x Hx. specialize (H x Hx). apply Z.eqb_neq. lia.
Qed.

(** ** The rotation of the burst decoder *)

Lemma rotate_step_value n w :
  0 < n <= 32 -> 0 <= w < 2 ^ n -> Burst.rotate_step n w = rotate_right n 1 w.
Proof.
  intros Hn Hw. unfold Burst.rotate_step.
  assert (Hlow : Z.land w 1 = bit w 0) by (unfold bit; now rewrite Z.shiftr_0_r).
  rewrite Hlow, bit_eqb_1 by lia.
  assert (Hsh : 0 <= Z.shiftr w 1 < 2 ^ (n - 1)).
  { apply bits_lt_pow2; [lia|]. intros i Hi. rewrite Z.shiftr_spec by lia.
    apply (lt_pow2_bits n); lia. }
  assert (Hp : 2 ^ (n - 1) + 2 ^ (n - 1) = 2 ^ n).
  { replace n with ((n - 1) + 1) at 3 by lia. rewrite Z.pow_add_r by lia. lia. }
  assert (H32 : 2 ^ n <= 2 ^ 32) by (apply Z.pow_le_mono_r; lia).
  apply Z.bits_inj'. intros q Hq. rewrite rotate_right_bits by lia.
  destruct (Z.testbit w 0) eqn:Hb0.
  - rewrite (wrap_small (n - 1)), find_power_2_small by lia.
    rewrite wrap_small by lia.
    rewrite add_pow2_bits; [|lia|apply (lt_pow2_bits (n - 1)); lia].
    rewrite Z.shiftr_spec by lia.
    destruct (Z.eqb_spec (n - 1) q) as [E|E].
    + subst q. replace (n - 1 + 1) with n by lia.
      rewrite Z.mod_same, Hb0 by lia.
      destruct (Z.ltb_spec (n - 1) n); [|lia]. now rewrite orb_true_r.
    + rewrite orb_false_r. destruct (Z.ltb_spec q n); cbn [andb].
      * now rewrite Z.mod_small by lia.
      * apply (lt_pow2_bits n); lia.
  - rewrite Z.shiftr_spec by lia.
    destruct (Z.ltb_spec q n); cbn [andb].
    + destruct (Z.eq_dec q (n - 1)) as [->|E].
      * replace (n - 1 + 1) with n by lia. rewrite Z.mod_same, Hb0 by lia.
        apply (lt_pow2_bits n); lia.
      * now rewrite Z.mod_small by lia.
    + apply (lt_pow2_bits n); lia.
Qed.

Lemma burst_shift_syndrome n w a :
  0 < n <= 32 -> 0 <= w < 2 ^ n -> 0 <= a <= n ->
  Burst.shift_syndrome n w a = rotate_right n a w.
Proof.
  intros Hn Hw Ha. unfold Burst.shift_syndrome.
  rewrite <- (Z2Nat.id a) by lia.
  assert (Hk : (Z.to_nat a <= Z.to_nat n)%nat) by lia.
  induction (Z.to_nat a) as [|k IH].
  - rewrite range_nil by lia. cbn [fold_left]. symmetry.
    apply rotate_right_0; lia.
  - rewrite Nat2Z.inj_succ, <- Z.add_1_r.
    rewrite range_snoc, fold_left_app by lia. cbn [fold_left].
    rewrite IH by lia.
    rewrite rotate_step_value by (try apply rotate_right_range; lia).
    apply rotate_right_succ; lia.
Qed.

Lemma syndrome_of_word_range parity_check n w :
  0 <= n < 2 ^ 32 -> size parity_check < 2 ^ 32 ->
  0 <= syndrome_of_word parity_check n w < 2 ^ size parity_check.
Proof.
  intros Hn Hr.
  apply (syndrome_range parity_check n w
           (map (transpose_row parity_check n) (upto n)) _ Hn Hr).
  - apply get_transpose_value. exact Hn.
  - apply syndrome_value.
Qed.

Lemma shl_range s r n :
  0 <= r <= n -> n <= 32 -> 0 <= s < 2 ^ r ->
  shl s (n - r) = Z.shiftl s (n - r) /\ 0 <= shl s (n - r) < 2 ^ n.
Proof.
  intros Hr Hn Hs. unfold shl.
  assert (H : 0 <= Z.shiftl s (n - r) < 2 ^ n).
  { rewrite Z.shiftl_mul_pow2 by lia.
    assert (E : 2 ^ n = 2 ^ r * 2 ^ (n - r))
      by (rewrite <- Z.pow_add_r by lia; f_equal; lia).
    assert (0 < 2 ^ (n - r)) by (apply Z.pow_pos_nonneg; lia). nia. }
  assert (2 ^ n <= 2 ^ 32) by (apply Z.pow_le_mono_r; lia).
  rewrite wrap_small by lia. split; [reflexivity | exact H].
Qed.

(** ** The burst decoder as a whole *)

Lemma burst_decode_word_value (c : Burst.CyclicCode) (k fuel : nat) w :
  0 < Burst.code_length c < 2 ^ 32 ->
  Burst.max_burst_length c = Z.of_nat k -> Z.of_nat k < UINT_MAX ->
  (Z.to_nat (Burst.code_length c) <= fuel)%nat -> (k < fuel)%nat ->
  Burst.decode_word c fuel w
  = Ok (match burst_search (burst_lengths_of c w) k with
        | None => (w, [no_syndrome_found; failed_to_decode])
        | Some i =>
            let light_syndrome :=
              shl (nth (Z.to_nat i) (burst_syndromes c w) 0)
                  (Burst.code_length c - size (Burst.parity_check c)) in
            let shift_amount := wrap (Burst.code_length c - i) in
            let decoded_word :=
              Z.lxor w (Burst.shift_syndrome (Burst.code_length c)
                          light_syndrome shift_amount) in
            (decoded_word, burst_events c decoded_word)
        end).
Proof.
  intros Hn Hmax Hk Hfuel Hkf. unfold Burst.decode_word.
  destruct (get_cyclic_shifts_shape w (Burst.code_length c)) as (l & E & _).
  rewrite E, reorder_value. cbn [bind].
  rewrite burst_syndromes_value by lia. fold (burst_syndromes c w). cbn [bind].
  rewrite (map_result_map _
             (fun s => burst_length_of s (wrap (size (Burst.parity_check c)))))
    by (intros; apply get_burst_length_value).
  fold (burst_lengths_of c w). cbn [bind].
  assert (Hsz : size (burst_syndromes c w) = Burst.code_length c)
    by (apply size_burst_syndromes; lia).
  assert (Hszb : size (burst_lengths_of c w) = size (burst_syndromes c w))
    by (unfold burst_lengths_of; apply size_map).
  unfold Burst.search_init. rewrite Hmax.
  fold (scan_state false 0 0 0 (Z.of_nat k)).
  rewrite search_run; try assumption; try lia.
  2:{ unfold size in Hszb, Hsz. lia. }
  cbn [bind fst].
  destruct (burst_search (burst_lengths_of c w) k) as [i|]; simpl_search;
    reflexivity.
Qed.

Lemma In_at {A} (l : list A) x : In x l -> exists j, at_ l j = Ok x.
Proof.
  intros H. apply In_nth_error in H. destruct H as [j Hj].
  exists (Z.of_nat j). now rewrite at_nth_error, Hj.
Qed.

Lemma in_burst_lengths (c : Burst.CyclicCode) w x :
  In x (burst_lengths_of c w) ->
  exists j s,
    at_ (burst_syndromes c w) j = Ok s
    /\ Burst.get_burst_length s (wrap (size (Burst.parity_check c))) = Ok x.
Proof.
  intros H. unfold burst_lengths_of in H. apply in_map_iff in H.
  destruct H as (s & <- & Hs). apply In_at in Hs. destruct Hs as [j Hj].
  exists j, s. split; [exact Hj | apply get_burst_length_value].
Qed.


(** C5. For every received word and code length [1 <= n < 2^32], with fuel
    for [n] turns of the inner loop and four turns of the outer loop: when
    none of the syndromes has a burst length in [0, max_burst_length],
    [decode_word] of [cyclic_codes_2.h] throws nothing, returns the received
    word unchanged and prints that no syndrome was found and that the word
    failed to decode. *)
Theorem burst_decoder_failure :
  forall generator parity_check n received_word (fuel : nat),
    0 < n < 2 ^ 32 -> (Z.to_nat n <= fuel)%nat -> (4 <= fuel)%nat ->
    let c := Burst.new generator parity_check n in
    exists syndromes,
      Burst.get_syndromes c received_word = Ok syndromes
      /\ ((forall i s b,
              at_ syndromes i = Ok s ->
              Burst.get_burst_length s (wrap (size parity_check)) = Ok b ->
              ~ 0 <= b <= Burst.max_burst_length c) ->
          Burst.decode_word c fuel received_word
          = Ok (received_word, [no_syndrome_found; failed_to_decode])).
Proof.
  intros generator parity_check n w fuel Hn Hfuel H4 c.
  exists (burst_syndromes c w). split.
  - apply burst_syndromes_value. cbn. lia.
  - intros Hnone.
    rewrite (burst_decode_word_value c 3 fuel w);
      try (cbn; unfold UINT_MAX; lia); try reflexivity.
    rewrite burst_search_none; [reflexivity|].
    intros x Hx. apply in_burst_lengths in Hx. destruct Hx as (j & s & Hj & Hb).
    apply (Hnone j s x Hj Hb).
Qed.

Lemma burst_decoder_failure_witness :
  Burst.decode_word (Burst.new [] [8; 4; 2; 1] 4) 4 15
  = Ok (15, [no_syndrome_found; failed_to_decode]).
Proof.
  destruct (burst_decoder_failure [] [8; 4; 2; 1] 4 15 4%nat)
    as (syndromes & Hs & Hfail); [lia | lia | lia |].
  vm_compute in Hs. injection Hs as <-.
  apply Hfail. intros i s b Hi Hb.
  assert (E : s = 15).
  { apply at_Ok_range in Hi as Hr. change (size [15; 15; 15; 15]) with 4 in Hr.
    assert (i = 0 \/ i = 1 \/ i = 2 \/ i = 3) as [-> | [-> | [-> | ->]]] by lia;
      vm_compute in Hi; congruence. }
  subst s. vm_compute in Hb. injection Hb as <-. cbn. lia.
Defined.

(** C2. For a code of length [0 < n <= 32] with [r <= n] parity rows (so
    that the shift by [n - r] is defined), and enough fuel: [decode_word] of
    [cyclic_codes_2.h] has [max_burst_length = 3] and searches the desired
    lengths from 3 down through 0, each over the [n] syndromes in the order
    of the list. So when entry [i] has a burst length [d] in [0, 3], no
    entry has a burst length in [(d, 3]] and no entry before [i] has burst
    length [d], entry [i] is the match, and the decoded word is the received
    word XOR that syndrome shifted left by [n - r] bits and rotated right by
    [n - i] positions within [n] bits; the self-check then reports success
    or failure. *)
Theorem burst_decoder_success :
  forall generator parity_check n received_word (fuel : nat),
    0 < n <= 32 -> size parity_check <= n ->
    (Z.to_nat n <= fuel)%nat -> (4 <= fuel)%nat ->
    let c := Burst.new generator parity_check n in
    Burst.max_burst_length c = 3
    /\ exists syndromes,
        Burst.get_syndromes c received_word = Ok syndromes
        /\ size syndromes = n
        /\ forall d i s,
            0 <= d <= Burst.max_burst_length c ->
            at_ syndromes i = Ok s ->
            Burst.get_burst_length s (size parity_check) = Ok d ->
            (forall j s' d',
                at_ syndromes j = Ok s' ->
                Burst.get_burst_length s' (size parity_check) = Ok d' ->
                ~ d < d' <= Burst.max_burst_length c /\ (d' = d -> i <= j)) ->
            let decoded_word :=
              Z.lxor received_word
                (rotate_right n (n - i) (shl s (n - size parity_check))) in
            Burst.decode_word c fuel received_word
            = Ok (decoded_word,
                  if is_code_word parity_check n decoded_word
                  then [decoded_successfully]
                  else [diagnostics; failed_to_decode]).
Proof.
  intros generator parity_check n w fuel Hn Hr Hfuel H4 c.
  split; [reflexivity|].
  pose proof (size_nonneg parity_check) as Hr0.
  assert (Hwr : wrap (size parity_check) = size parity_check)
    by (apply wrap_small; lia).
  assert (Hsz : size (burst_syndromes c w) = n)
    by (apply (size_burst_syndromes c w); cbn; lia).
  exists (burst_syndromes c w). split; [apply burst_syndromes_value; cbn; lia|].
  split; [exact Hsz|].
  intros d i s Hd Hi Hb Hothers decoded_word.
  apply at_Ok_range in Hi as Hirange. rewrite Hsz in Hirange.
  change (Burst.max_burst_length c) with 3 in *.
  rewrite (burst_decode_word_value c 3 fuel w);
    try (cbn; unfold UINT_MAX; lia); try reflexivity.
  assert (Hsel : burst_search (burst_lengths_of c w) 3 = Some i).
  { apply (burst_search_select _ (Z.to_nat d)); [lia| |].
    - rewrite Z2Nat.id by lia.
      rewrite <- (Z2Nat.id i) in Hi by lia. rewrite at_nth_error in Hi.
      destruct (nth_error (burst_syndromes c w) (Z.to_nat i)) as [s0|] eqn:E;
        [|discriminate].
      injection Hi as ->.
      destruct (nth_error_split _ _ E) as (l1 & l2 & Esplit & Hl1).
      unfold burst_lengths_of. rewrite Esplit, map_app. cbn [map].
      rewrite find_from_first.
      + rewrite size_map. unfold size. f_equal. lia.
      + change (Burst.parity_check c) with parity_check. rewrite Hwr.
        rewrite get_burst_length_value in Hb. injection Hb as <-.
        apply Z.eqb_refl.
      + intros y Hy. apply in_map_iff in Hy. destruct Hy as (s' & <- & Hs').
        apply In_nth_error in Hs'. destruct Hs' as [j Hj].
        assert (Hjl : (j < length l1)%nat) by (apply nth_error_Some; congruence).
        destruct (Hothers (Z.of_nat j) s' (burst_length_of s' (size parity_check)))
          as [_ Hsame].
        * rewrite at_nth_error, Esplit, nth_error_app1, Hj by exact Hjl.
          reflexivity.
        * apply get_burst_length_value.
        * change (Burst.parity_check c) with parity_check. rewrite Hwr.
          apply Z.eqb_neq. intros Heq. symmetry in Heq.
          specialize (Hsame Heq). lia.
    - rewrite Z2Nat.id by lia. intros x Hx.
      apply in_burst_lengths in Hx. destruct Hx as (j & s' & Hj & Hb').
      change (Burst.parity_check c) with parity_check in Hb'.
      rewrite Hwr in Hb'. destruct (Hothers j s' x Hj Hb') as [Hno _].
      cbn. lia. }
  rewrite Hsel. cbn zeta. f_equal.
  assert (Hs : nth (Z.to_nat i) (burst_syndromes c w) 0 = s).
  { rewrite (at_nth _ _ 0) in Hi; [now injection Hi|].
    rewrite Hsz. exact Hirange. }
  rewrite Hs.
  change (Burst.code_length c) with n.
  change (Burst.parity_check c) with parity_check.
  assert (Hsr : 0 <= s < 2 ^ size parity_check).
  { rewrite <- Hs. unfold burst_syndromes.
    rewrite (nth_indep _ 0 (syndrome_of_word parity_check n 0)).
    - rewrite map_nth. apply syndrome_of_word_range; lia.
    - unfold burst_syndromes, size in Hsz. lia. }
  destruct (shl_range s (size parity_check) n ltac:(lia) ltac:(lia) Hsr)
    as [_ Hlight].
  rewrite (wrap_small (n - i)) by lia.
  rewrite burst_shift_syndrome by lia. fold decoded_word.
  unfold burst_events. change (Burst.code_length c) with n.
  change (Burst.parity_check c) with parity_check.
  now destruct (is_code_word parity_check n decoded_word).
Qed.

Lemma burst_decoder_success_witness :
  Burst.decode_word (Burst.new [7] [3; 5] 3) 4 3
  = Ok (0, [decoded_successfully]).
Proof.
  destruct (burst_decoder_success [7] [3; 5] 3 3 4%nat)
    as (_ & syndromes & Hs & _ & Hfound); [lia | cbn; lia | lia | lia |].
  vm_compute in Hs. injection Hs as <-.
  apply (Hfound 2 2 3); [cbn; lia | reflexivity | reflexivity |].
  intros j s' d' Hj Hb.
  apply at_Ok_range in Hj as Hr. change (size [1; 2; 3]) with 3 in Hr.
  assert (j = 0 \/ j = 1 \/ j = 2) as [-> | [-> | ->]] by lia;
    vm_compute in Hj; injection Hj as <-;
    vm_compute in Hb; injection Hb as <-; cbn; lia.
Defined.

(** C9. For every received word and code length [1 <= n < 2^32], and every
    [max_burst_length] below [UINT_MAX] (the constructor sets 3): the
    syndromes and their burst lengths are computed without a throw; with any
    fuel of at least [n] and above [max_burst_length], the outer loop of
    [decode_word] in [cyclic_codes_2.h] exits after exactly
    [max_burst_length + 1] turns, its counter wrapped to [UINT_MAX]; every
    run of the inner loop that starts at index 0 exits after at most [n]
    turns; and [decode_word] returns a result, the same for every such
    fuel. *)
Theorem burst_search_terminates :
  forall (c : Burst.CyclicCode) received_word,
    1 <= Burst.code_length c < 2 ^ 32 ->
    0 <= Burst.max_burst_length c < UINT_MAX ->
    (exists syndromes burst_lengths st r,
        Burst.get_syndromes c received_word = Ok syndromes
        /\ size syndromes = Burst.code_length c
        /\ map_result
             (fun s => Burst.get_burst_length s
                         (wrap (size (Burst.parity_check c))))
             syndromes = Ok burst_lengths
        /\ Burst.desired_burst_length st = UINT_MAX
        /\ forall fuel : nat,
             (Z.to_nat (Burst.code_length c) <= fuel)%nat ->
             (Z.to_nat (Burst.max_burst_length c) < fuel)%nat ->
             while_loop Burst.search_cond
               (Burst.search_body syndromes burst_lengths fuel) fuel
               (Burst.search_init c)
             = Ok (st, Z.to_nat (Burst.max_burst_length c + 1))
             /\ (forall st0,
                    Burst.which_syndrome st0 = 0 ->
                    exists st1 turns,
                      while_loop (Burst.scan_cond syndromes)
                        (Burst.scan_body syndromes burst_lengths) fuel st0
                      = Ok (st1, turns)
                      /\ Z.of_nat turns <= Burst.code_length c)
             /\ Burst.decode_word c fuel received_word = Ok r)
    /\ (forall generator parity_check n,
           Burst.max_burst_length (Burst.new generator parity_check n) = 3).
Proof.
  intros c w Hn Hmax.
  set (k := Z.to_nat (Burst.max_burst_length c)).
  assert (Hk : Burst.max_burst_length c = Z.of_nat k) by (unfold k; lia).
  assert (Hsz : size (burst_syndromes c w) = Burst.code_length c)
    by (apply (size_burst_syndromes c w); lia).
  assert (Hszb : size (burst_lengths_of c w) = size (burst_syndromes c w))
    by (unfold burst_lengths_of; apply size_map).
  split; [|reflexivity].
  exists (burst_syndromes c w), (burst_lengths_of c w).
  eexists. eexists. split; [apply burst_syndromes_value; lia|].
  split; [exact Hsz|]. split.
  { apply map_result_map. intros; apply get_burst_length_value. }
  split; [|intros fuel Hfuel Hkf; split; [|split]].
  - instantiate (1 := match burst_search (burst_lengths_of c w) k with
                      | Some i =>
                          scan_state true
                            (nth (Z.to_nat i) (burst_syndromes c w) 0)
                            i 0 UINT_MAX
                      | None => scan_state false 0 0 0 UINT_MAX
                      end).
    now destruct (burst_search (burst_lengths_of c w) k).
  - unfold Burst.search_init. rewrite Hk.
    fold (scan_state false 0 0 0 (Z.of_nat k)).
    rewrite search_run; try assumption; try lia.
    + f_equal. f_equal. lia.
    + unfold size in Hszb, Hsz. lia.
  - intros [found light pos which desired] Hwhich.
    cbn [Burst.which_syndrome] in Hwhich. subst which.
    destruct found.
    + eexists. exists O. rewrite scan_skip by reflexivity.
      split; [reflexivity | lia].
    + fold (scan_state false light pos 0 desired).
      change 0 with (size (@nil Z)) at 1.
      rewrite (scan_run (burst_syndromes c w) (burst_lengths_of c w) Hszb
                 ltac:(lia) desired light pos (burst_lengths_of c w) []);
        try reflexivity; try assumption; try lia.
      2:{ unfold size in Hszb, Hsz. lia. }
      destruct (find_from (Z.eqb desired) (burst_lengths_of c w)
                  (size (@nil Z))) as [i|] eqn:Ef.
      * eexists. eexists. split; [reflexivity|].
        apply find_from_range in Ef. change (size (@nil Z)) with 0 in *.
        lia.
      * eexists. eexists. split; [reflexivity|].
        unfold size in Hszb, Hsz. lia.
  - apply (burst_decode_word_value c k fuel w); try assumption; lia.
Qed.

Lemma burst_search_terminates_witness :
  exists r,
    forall fuel : nat,
      (3 <= fuel)%nat -> (3 < fuel)%nat ->
      Burst.decode_word (Burst.new [7] [3; 5] 3) fuel 3 = Ok r.
Proof.
  destruct (burst_search_terminates (Burst.new [7] [3; 5] 3) 3)
    as [(syndromes & burst_lengths & st & r & _ & _ & _ & _ & H) _];
    [cbn; lia | cbn; unfold UINT_MAX; lia |].
  exists r. intros fuel H3 H4. apply (H fuel); cbn; lia.
Defined.

(** ** Round trip *)

Lemma is_code_word_xor_all parity_check n (l : list Z) :
  (forall x, In x l -> is_code_word parity_check n x = true) ->
  is_code_word parity_check n (xor_all l) = true.
Proof.
  induction l as [|x l IH]; intros H; cbn [xor_all fold_right].
  - apply is_code_word_0.
  - apply is_code_word_lxor; [apply H; now left|].
    apply IH. intros; apply H; now right.
Qed.

(** The encoding of a message is a code word when the generator rows are. *)
Lemma encoded_is_code_word generator parity_check n message :
  (forall g, In g generator -> is_code_word parity_check n g = true) ->
  is_code_word parity_check n (xor_all (selected_rows generator message)) = true.
Proof.
  intros HG. apply is_code_word_xor_all. intros x Hx.
  unfold selected_rows in Hx. apply in_map_iff in Hx.
  destruct Hx as (i & <- & Hi). apply filter_In in Hi. destruct Hi as [Hi _].
  apply in_upto in Hi. apply HG, nth_In. unfold size in *. lia.
Qed.


(** In a cyclic code every rotation of a code word is a code word. *)
Lemma rotations_are_code_words parity_check n w (i : nat) :
  0 < n ->
  cyclic_code parity_check n ->
  is_code_word parity_check n w = true ->
  Z.of_nat i <= n ->
  is_code_word parity_check n (rotate_left n (Z.of_nat i) w) = true.
Proof.
  intros Hn Hcyc Hw.
  induction i as [|i IH]; intros Hi.
  - rewrite <- Hw. apply is_code_word_ext. intros j Hj.
    apply rotate_left_0_low; lia.
  - rewrite Nat2Z.inj_succ, <- Z.add_1_r, <- rotate_left_succ by lia.
    apply Hcyc, IH. lia.
Qed.

(** For a code length below 32 it is enough to rotate the words of the code
    book. *)
Lemma closed_under_rotation_cyclic parity_check n :
  0 < n < 32 ->
  closed_under_rotation parity_check n (enumerate_code_words parity_check n)
  = true ->
  cyclic_code parity_check n.
Proof.
  intros Hn Hcyc w Hw. unfold closed_under_rotation in Hcyc.
  rewrite forallb_forall in Hcyc.
  pose proof (rotate_left_succ n ltac:(lia) 0 w ltac:(lia) ltac:(lia)) as E.
  rewrite Z.add_0_l in E. rewrite <- E.
  apply Hcyc, in_enumerate; [lia|]. split.
  - apply rotate_left_range; lia.
  - rewrite <- Hw. apply is_code_word_ext. intros j Hj.
    apply rotate_left_0_low; lia.
Qed.

Lemma syndrome_of_code_word parity_check n w :
  0 <= n < 2 ^ 32 -> size parity_check < 2 ^ 32 ->
  is_code_word parity_check n w = true ->
  syndrome_of_word parity_check n w = 0.
Proof.
  intros Hn Hr Hw.
  pose proof (syndrome_code_word parity_check n w
                (map (transpose_row parity_check n) (upto n)) Hn Hr
                (get_transpose_value parity_check n Hn) Hw) as E.
  rewrite syndrome_value in E. now injection E.
Qed.

Lemma shl_0 s : shl 0 s = 0.
Proof. unfold shl. now rewrite Z.shiftl_0_l. Qed.


(** The weight decoder returns a code word as it is. *)
Lemma weight_decode_code_word generator parity_check n w (fuel : nat) :
  0 < n <= 32 -> size parity_check < 2 ^ 32 -> (0 < fuel)%nat ->
  is_code_word parity_check n w = true ->
  WeightBound.decode_word (WeightBound.new generator parity_check n) fuel w
  = Ok (w, []).
Proof.
  intros Hn Hr Hfuel Hw. set (c := WeightBound.new generator parity_check n).
  unfold WeightBound.decode_word.
  rewrite weight_syndromes_value by (cbn; lia). cbn [bind].
  set (syndromes := map _ _).
  assert (Hsz : size syndromes = n)
    by (apply (size_weight_syndromes c w); cbn; lia).
  assert (H0 : at_ syndromes 0 = Ok 0).
  { unfold syndromes.
    destruct (get_cyclic_shifts_shape w (WeightBound.code_length c))
      as (l & -> & _).
    cbn [map]. rewrite at_cons_0. f_equal.
    apply syndrome_of_code_word; cbn; try lia. exact Hw. }
  destruct (bound_new generator parity_check n ltac:(lia)) as [Hd Hb].
  fold c in Hd, Hb.
  rewrite (weight_search_found c syndromes ltac:(lia) 0 0 0 fuel 0);
    try assumption; try lia.
  - cbn [bind fst snd negb]. rewrite H0. cbn [bind].
    rewrite shl_0, weight_shift_syndrome, rotate_left_zero by (cbn; lia).
    rewrite Z.lxor_0_r. change (WeightBound.parity_check c) with parity_check.
    change (WeightBound.code_length c) with n. now rewrite Hw.
  - change (WeightBound.code_length c) with n.
    rewrite hamming_weight_0 by lia. rewrite Hb.
    apply Z.div_pos; lia.
Qed.

(** The burst decoder returns a code word of a cyclic code as it is. *)
Lemma burst_decode_code_word generator parity_check n w (fuel : nat) :
  0 < n <= 32 -> size parity_check <= n ->
  (Z.to_nat n <= fuel)%nat -> (4 <= fuel)%nat ->
  cyclic_code parity_check n ->
  is_code_word parity_check n w = true ->
  Burst.decode_word (Burst.new generator parity_check n) fuel w
  = Ok (w, [decoded_successfully]).
Proof.
  intros Hn Hr Hfuel H4 Hcyc Hw. set (c := Burst.new generator parity_check n).
  pose proof (size_nonneg parity_check) as Hr0.
  rewrite (burst_decode_word_value c 3 fuel w);
    try (cbn; unfold UINT_MAX; lia); try reflexivity.
  assert (Hzero : forall s, In s (burst_syndromes c w) -> s = 0).
  { intros s Hs. unfold burst_syndromes in Hs. apply in_map_iff in Hs.
    destruct Hs as (x & <- & Hx).
    apply syndrome_of_code_word; cbn; try lia.
    destruct Hx as [<-|Hx]; [exact Hw|]. apply in_rev in Hx.
    change (Burst.code_length c) with n in Hx.
    rewrite get_cyclic_shifts_rotations in Hx by lia. cbn [tl] in Hx.
    apply in_map_iff in Hx. destruct Hx as (i & <- & Hi).
    apply in_range in Hi. rewrite <- (Z2Nat.id i) by lia.
    apply rotations_are_code_words; try assumption; lia. }
  assert (Hb : forall x, In x (burst_lengths_of c w) -> x = 0).
  { intros x Hx. unfold burst_lengths_of in Hx. apply in_map_iff in Hx.
    destruct Hx as (s & <- & Hs). rewrite (Hzero s Hs).
    change (Burst.parity_check c) with parity_check.
    rewrite wrap_small by lia.
    pose proof (burst_length_zero (size parity_check) ltac:(lia)) as E.
    rewrite get_burst_length_value in E. now injection E. }
  assert (Hsel : burst_search (burst_lengths_of c w) 3 = Some 0).
  { apply (burst_search_select _ 0); [lia| |].
    - destruct (burst_lengths_of c w) as [|x l] eqn:E.
      + unfold burst_lengths_of, burst_syndromes in E. discriminate.
      + cbn [find_from]. rewrite (Hb x) by (rewrite ?E; now left). reflexivity.
    - intros x Hx. rewrite (Hb x Hx). cbn. lia. }
  rewrite Hsel. cbn zeta.
  assert (Hs0 : nth (Z.to_nat 0) (burst_syndromes c w) 0 = 0).
  { apply Hzero. unfold burst_syndromes. cbn [Z.to_nat map nth]. now left. }
  rewrite Hs0, shl_0, Z.sub_0_r.
  change (Burst.code_length c) with n.
  rewrite wrap_small, burst_shift_syndrome, rotate_right_zero by lia.
  rewrite Z.lxor_0_r. unfold burst_events.
  change (Burst.code_length c) with n.
  change (Burst.parity_check c) with parity_check. now rewrite Hw.
Qed.

(** C1, as the code has it. For a code of length [0 < n <= 32] with at most
    [n] parity rows, whose generator rows are code words, and enough fuel:
    every message is encoded as a code word; [decode_word] of
    [cyclic_codes.h] returns that word and prints nothing;
    [decode_word] of [cyclic_codes_2.h] returns it and reports success when
    the code is cyclic, that is when the rotation of every code word is a
    code word. *)
Theorem round_trip_without_error :
  forall generator parity_check n message (fuel : nat),
    0 < n <= 32 -> size parity_check <= n ->
    (Z.to_nat n <= fuel)%nat -> (4 <= fuel)%nat ->
    (forall g, In g generator -> is_code_word parity_check n g = true) ->
    exists encoded_word,
      encode_word generator message = Ok encoded_word
      /\ is_code_word parity_check n encoded_word = true
      /\ WeightBound.decode_word (WeightBound.new generator parity_check n)
           fuel encoded_word
         = Ok (encoded_word, [])
      /\ (cyclic_code parity_check n ->
          Burst.decode_word (Burst.new generator parity_check n)
            fuel encoded_word
          = Ok (encoded_word, [decoded_successfully])).
Proof.
  intros generator parity_check n message fuel Hn Hr Hfuel H4 HG.
  pose proof (encoded_is_code_word generator parity_check n message HG) as Hw.
  exists (xor_all (selected_rows generator message)).
  split; [apply encode_word_value|]. split; [exact Hw|]. split.
  - apply weight_decode_code_word; try assumption; lia.
  - intros Hcyc. apply burst_decode_code_word; assumption.
Qed.

Lemma round_trip_without_error_witness :
  encode_word [7] 1 = Ok 7
  /\ WeightBound.decode_word (WeightBound.new [7] [3; 5] 3) 4 7 = Ok (7, [])
  /\ Burst.decode_word (Burst.new [7] [3; 5] 3) 4 7
     = Ok (7, [decoded_successfully]).
Proof.
  destruct (round_trip_without_error [7] [3; 5] 3 1 4%nat)
    as (e & He & _ & HA & HB); [lia | cbn; lia | lia | lia | |].
  - intros g [<-|[]]. reflexivity.
  - vm_compute in He. injection He as <-.
    split; [reflexivity|]. split; [exact HA|]. apply HB.
    apply closed_under_rotation_cyclic; [lia | reflexivity].
Defined.

(** C1 as stated fails for [cyclic_codes_2.h]: for the parity check [001] of
    length 3 the generator rows [100] and [010] are code words and the
    message [1] is encoded as [010], but the rotation [001] of that word is
    no code word, its syndrome has burst length 1, and [decode_word] returns
    [011] and reports a failure. *)
Lemma round_trip_counterexample :
  forallb (is_code_word [1] 3) [4; 2] = true
  /\ encode_word [4; 2] 1 = Ok 2
  /\ Burst.decode_word (Burst.new [4; 2] [1] 3) 4 2
     = Ok (3, [diagnostics; failed_to_decode])
  /\ ~ (exists encoded_word,
           encode_word [4; 2] 1 = Ok encoded_word
           /\ Burst.decode_word (Burst.new [4; 2] [1] 3) 4 encoded_word
              = Ok (encoded_word, [decoded_successfully])).
Proof.
  repeat split. intros (e & He & Hd). vm_compute in He. injection He as <-.
  vm_compute in Hd. discriminate.
Qed.

(** ** The repetition code of length 3 *)

(** Its parity rows are independent and it is cyclic; its code book, its
    minimum distance, the two encodings, and what the three decoders make of
    the word [011]: the coset search finds [111], the weight decoder
    relocates the syndrome [01] to [010] and fails its self-check, the burst
    decoder subtracts [011]. *)
Example repetition_code_rows :
  independent_rows 3 [3; 5] = true
  /\ independent_rows 3 [3; 3] = false
  /\ cyclic_code [3; 5] 3.
Proof.
  split; [reflexivity|]. split; [reflexivity|].
  apply closed_under_rotation_cyclic; [lia | reflexivity].
Qed.

Example repetition_code :
  let c := WeightBound.new [7] [3; 5] 3 in
  WeightBound.code_words c = [0; 7]
  /\ WeightBound.min_distance c = 3
  /\ encode_word [7] 0 = Ok 0
  /\ encode_word [7] 1 = Ok 7
  /\ nearest_neighbor_search (WeightBound.code_words c) 3 3 = Ok 7
  /\ WeightBound.decode_word c 3 3 = Ok (1, [diagnostics])
  /\ Burst.decode_word (Burst.new [7] [3; 5] 3) 4 3
     = Ok (0, [decoded_successfully]).
Proof. cbv zeta. repeat split. Qed.

(** * Further properties of the members *)

(** ** Further properties: powers *)

Lemma find_power_loop_base base (k : nat) :
  fold_left (fun result _ => wrap (result * base)) (upto (Z.of_nat k)) 1
  = base ^ Z.of_nat k mod 2 ^ 32.
Proof.
  induction k as [|k IH].
  - reflexivity.
  - rewrite Nat2Z.inj_succ, <- Z.add_1_r, upto_snoc, fold_left_app by lia.
    cbn [fold_left]. rewrite IH. unfold wrap.
    rewrite Z.mul_mod_idemp_l by lia.
    now rewrite Z.pow_add_r, Z.pow_1_r by lia.
Qed.

Lemma find_power_mod base exponent :
  0 <= exponent -> find_power base exponent = base ^ exponent mod 2 ^ 32.
Proof.
  intros He. unfold find_power. destruct (Z.eqb_spec exponent 0) as [->|Hne].
  - reflexivity.
  - rewrite <- (Z2Nat.id exponent) by exact He. apply find_power_loop_base.
Qed.

Lemma find_power_2_overflow exponent :
  32 <= exponent -> find_power 2 exponent = 0.
Proof.
  intros H32. rewrite find_power_mod by lia.
  replace exponent with (32 + (exponent - 32)) by lia.
  rewrite Z.pow_add_r, Z.mul_comm by lia. apply Z.mod_mul. lia.
Qed.

(** X1. [find_power] computes the power modulo [2^32]: an overflow wraps
    around silently, so that [find_power(2, e)] is 0 from [e = 32] on. *)
Theorem find_power_wraps :
  forall base exponent,
    0 <= exponent ->
    find_power base exponent = base ^ exponent mod 2 ^ 32
    /\ (32 <= exponent -> find_power 2 exponent = 0).
Proof.
  intros base e He. split; [now apply find_power_mod|].
  apply find_power_2_overflow.
Qed.

Lemma find_power_wraps_witness :
  find_power 3 21 = 3 ^ 21 mod 2 ^ 32 /\ find_power 2 40 = 0.
Proof.
  destruct (find_power_wraps 3 21 ltac:(lia)) as [H _].
  destruct (find_power_wraps 2 40 ltac:(lia)) as [_ H'].
  split; [exact H | apply H'; lia].
Defined.

(** ** Further properties: the Hamming distance *)

Lemma size_filter_or {A} (f g h : A -> bool) (l : list A) :
  (forall x, In x l -> f x = true -> g x = true \/ h x = true) ->
  size (filter f l) <= size (filter g l) + size (filter h l).
Proof.
  induction l as [|x l IH]; intros H; cbn [filter].
  - unfold size. cbn. lia.
  - assert (IH' := IH (fun y Hy => H y (or_intror Hy))).
    pose proof (H x (or_introl eq_refl)) as Hx.
    destruct (f x), (g x), (h x); rewrite ?size_cons;
      first [lia | exfalso; destruct Hx; [reflexivity | discriminate..]].
Qed.

Lemma bit_place_values_nil w n :
  0 <= n ->
  bit_place_values w n = [] <-> (forall i, 0 <= i < n -> Z.testbit w i = false).
Proof.
  intros Hn. split.
  - intros E i Hi. destruct (Z.testbit w i) eqn:Hb; [|reflexivity].
    assert (H : In i (bit_place_values w n))
      by (apply in_bit_place_values; split; [lia | exact Hb]).
    rewrite E in H. contradiction.
  - intros H. unfold bit_place_values. apply filter_none.
    intros i Hi. apply in_upto in Hi. rewrite bit_eqb_1 by lia. now apply H.
Qed.

Lemma size_0_nil {A} (l : list A) : size l = 0 <-> l = [].
Proof.
  split; [|intros ->; reflexivity].
  destruct l; [reflexivity|]. rewrite size_cons. pose proof (size_nonneg l). lia.
Qed.

Lemma low_bits_mod n a b :
  0 <= n ->
  (forall i, 0 <= i < n -> Z.testbit a i = Z.testbit b i)
  <-> a mod 2 ^ n = b mod 2 ^ n.
Proof.
  intros Hn. split.
  - intros H. apply Z.bits_inj'. intros i Hi.
    rewrite !Z.testbit_mod_pow2 by lia.
    destruct (Z.ltb_spec i n); [cbn; apply H; lia | reflexivity].
  - intros H i Hi.
    assert (E : Z.testbit (a mod 2 ^ n) i = Z.testbit (b mod 2 ^ n) i)
      by now rewrite H.
    rewrite !Z.testbit_mod_pow2 in E by lia.
    destruct (Z.ltb_spec i n); [exact E | lia].
Qed.

Lemma hamming_distance_zero n a b :
  0 <= n < 2 ^ 32 ->
  hamming_distance n a b = 0 <-> a mod 2 ^ n = b mod 2 ^ n.
Proof.
  intros Hn. rewrite hamming_distance_size, size_0_nil by exact Hn.
  rewrite bit_place_values_nil, <- low_bits_mod by lia.
  split; intros H i Hi; specialize (H i Hi);
    rewrite Z.lxor_spec in *; destruct (Z.testbit a i), (Z.testbit b i);
    cbn in *; congruence.
Qed.

Lemma hamming_distance_triangle n a b c :
  0 <= n < 2 ^ 32 ->
  hamming_distance n a c <= hamming_distance n a b + hamming_distance n b c.
Proof.
  intros Hn. rewrite !hamming_distance_size by exact Hn.
  unfold bit_place_values. apply size_filter_or.
  intros i Hi. apply in_upto in Hi. rewrite !bit_eqb_1, !Z.lxor_spec by lia.
  destruct (Z.testbit a i), (Z.testbit b i), (Z.testbit c i); cbn; tauto.
Qed.

Lemma hamming_distance_sym n a b :
  hamming_distance n a b = hamming_distance n b a.
Proof. unfold hamming_distance. now rewrite Z.lxor_comm. Qed.

(** X2. [hamming_distance] is a metric on the low [code_length] bits of its
    arguments: it is symmetric, lies between 0 and the code length, is 0
    exactly for words that agree on those bits (bits above the code length
    are ignored), and satisfies the triangle inequality. *)
Theorem hamming_distance_metric :
  forall code_length a b c,
    0 <= code_length <= 32 ->
    hamming_distance code_length a b = hamming_distance code_length b a
    /\ 0 <= hamming_distance code_length a b <= code_length
    /\ (hamming_distance code_length a b = 0
        <-> a mod 2 ^ code_length = b mod 2 ^ code_length)
    /\ hamming_distance code_length a c
       <= hamming_distance code_length a b + hamming_distance code_length b c.
Proof.
  intros n a b c Hn. split; [apply hamming_distance_sym|].
  split; [apply hamming_distance_range; lia|].
  split; [apply hamming_distance_zero | apply hamming_distance_triangle]; lia.
Qed.

Lemma hamming_distance_metric_witness :
  hamming_distance 4 5 22 = hamming_distance 4 22 5
  /\ 0 <= hamming_distance 4 5 22 <= 4
  /\ (hamming_distance 4 5 21 = 0 <-> 5 mod 2 ^ 4 = 21 mod 2 ^ 4)
  /\ hamming_distance 4 5 9 <= hamming_distance 4 5 22 + hamming_distance 4 22 9.
Proof.
  destruct (hamming_distance_metric 4 5 22 9 ltac:(lia)) as (H1 & H2 & _ & H4).
  destruct (hamming_distance_metric 4 5 21 9 ltac:(lia)) as (_ & _ & H3 & _).
  repeat split; try exact H1; try apply H2; try apply H3; exact H4.
Defined.

(** ** Further properties: membership and the code book *)

Lemma odd_count_size {A} (f : A -> bool) (l : list A) :
  odd_count (map f l) = Z.odd (size (filter f l)).
Proof.
  induction l as [|x l IH]; [reflexivity|].
  cbn [map odd_count fold_right filter]. fold (odd_count (map f l)).
  rewrite IH. destruct (f x); [|reflexivity].
  rewrite size_cons, Z.add_comm, Z.odd_add. cbn. now rewrite xorb_true_r.
Qed.

Lemma dotb_weight n h w :
  0 <= n < 2 ^ 32 ->
  negb (dotb n h w) = Z.even (hamming_distance n 0 (Z.land h w)).
Proof.
  intros Hn. unfold dotb. rewrite odd_count_size, Z.negb_odd.
  rewrite hamming_distance_size, Z.lxor_0_l by exact Hn.
  unfold bit_place_values. do 2 f_equal. apply filter_ext_in.
  intros i Hi. apply in_upto in Hi.
  rewrite bit_eqb_1, Z.land_spec by lia. apply andb_comm.
Qed.

(** X3. [is_code_word] accepts a word exactly when, within the code length,
    it has an even number of set bits in common with every row of the
    parity-check matrix. *)
Theorem is_code_word_even_overlap :
  forall parity_check code_length word,
    0 <= code_length <= 32 ->
    is_code_word parity_check code_length word
    = forallb (fun row =>
                 Z.even (hamming_distance code_length 0 (Z.land row word)))
              parity_check.
Proof.
  intros H n w Hn. rewrite is_code_word_dotb.
  induction H as [|h H IH]; cbn [forallb]; [reflexivity|].
  rewrite IH, dotb_weight by lia. reflexivity.
Qed.

Lemma is_code_word_even_overlap_witness :
  is_code_word [3; 5] 3 7
  = forallb (fun row => Z.even (hamming_distance 3 0 (Z.land row 7))) [3; 5].
Proof. apply (is_code_word_even_overlap [3; 5] 3 7). lia. Defined.

Lemma is_code_word_mod parity_check n w :
  0 <= n ->
  is_code_word parity_check n (w mod 2 ^ n) = is_code_word parity_check n w.
Proof.
  intros Hn. apply is_code_word_ext. intros i Hi.
  rewrite Z.testbit_mod_pow2 by lia.
  destruct (Z.ltb_spec i n); [reflexivity | lia].
Qed.

Lemma mod_pow2_range n w : 0 <= n -> 0 <= w mod 2 ^ n < 2 ^ n.
Proof. intros Hn. apply Z.mod_pos_bound, Z.pow_pos_nonneg; lia. Qed.

(** X4. For a code length below 32 the code book that the constructor
    builds holds exactly the words below [2^n] that [is_code_word] accepts;
    [is_code_word] itself looks at the low [n] bits only, so it accepts a
    word exactly when the low [n] bits of the word are in the code book. *)
Theorem code_book_membership :
  forall generator parity_check n word,
    0 <= n < 32 ->
    let c := WeightBound.new generator parity_check n in
    let c2 := Burst.new generator parity_check n in
    (In word (WeightBound.code_words c)
     <-> 0 <= word < 2 ^ n /\ is_code_word parity_check n word = true)
    /\ (is_code_word parity_check n word = true
        <-> In (word mod 2 ^ n) (WeightBound.code_words c))
    /\ (In word (Burst.code_words c2)
        <-> 0 <= word < 2 ^ n /\ is_code_word parity_check n word = true)
    /\ (is_code_word parity_check n word = true
        <-> In (word mod 2 ^ n) (Burst.code_words c2)).
Proof.
  intros G H n w Hn c c2.
  assert (H1 : forall x, In x (enumerate_code_words H n)
                         <-> 0 <= x < 2 ^ n /\ is_code_word H n x = true)
    by (intros x; now apply in_enumerate).
  assert (H2 : is_code_word H n w = true
               <-> In (w mod 2 ^ n) (enumerate_code_words H n)).
  { rewrite H1, is_code_word_mod by lia.
    pose proof (mod_pow2_range n w ltac:(lia)). tauto. }
  split; [apply H1 | split; [exact H2 | split; [apply H1 | exact H2]]].
Qed.

Lemma code_book_membership_witness :
  (In 7 (WeightBound.code_words (WeightBound.new [7] [3; 5] 3))
   <-> 0 <= 7 < 2 ^ 3 /\ is_code_word [3; 5] 3 7 = true)
  /\ (is_code_word [3; 5] 3 15 = true
      <-> In (15 mod 2 ^ 3) (WeightBound.code_words (WeightBound.new [7] [3; 5] 3))).
Proof.
  destruct (code_book_membership [7] [3; 5] 3 7 ltac:(lia)) as (H1 & _).
  destruct (code_book_membership [7] [3; 5] 3 15 ltac:(lia)) as (_ & H2 & _).
  split; [exact H1 | exact H2].
Defined.

(** X5. From code length 32 on the loop bound [find_power(2, code_length)]
    of the constructor has wrapped around to 0: the code book is empty,
    [min_distance] keeps its initial value [UINT_MAX], and
    [nearest_neighbor] throws [out_of_range] at [received_word_coset.at(0)]. *)
Theorem code_book_empty_from_32 :
  forall generator parity_check n received_word,
    32 <= n ->
    let c := WeightBound.new generator parity_check n in
    let c2 := Burst.new generator parity_check n in
    WeightBound.code_words c = []
    /\ WeightBound.min_distance c = UINT_MAX
    /\ Burst.code_words c2 = []
    /\ Burst.min_distance c2 = UINT_MAX
    /\ Burst.nearest_neighbor c2 received_word = Err out_of_range.
Proof.
  intros G H n w Hn c c2.
  assert (E : enumerate_code_words H n = []).
  { unfold enumerate_code_words.
    rewrite find_power_2_overflow by lia. reflexivity. }
  unfold c, c2, WeightBound.new, Burst.new, Burst.nearest_neighbor.
  cbn [WeightBound.code_words WeightBound.min_distance Burst.code_words
       Burst.min_distance Burst.code_length].
  rewrite E. repeat split.
Qed.

Lemma code_book_empty_from_32_witness :
  WeightBound.code_words (WeightBound.new [1] [] 33) = []
  /\ Burst.nearest_neighbor (Burst.new [1] [] 33) 5 = Err out_of_range.
Proof.
  destruct (code_book_empty_from_32 [1] [] 33 5 ltac:(lia)) as (H1 & _ & _ & _ & H2).
  split; [exact H1 | exact H2].
Defined.

(** ** Further properties: the minimum distance *)

Lemma minimum_distance_least n (l : list Z) d :
  let r := fold_left (fun distance word =>
                        if 0 <? word
                        then let word_weight := hamming_distance n 0 word in
                             if word_weight <? distance
                             then word_weight else distance
                        else distance) l d in
  r <= d
  /\ (forall w, In w l -> 0 < w -> r <= hamming_distance n 0 w)
  /\ (r = d \/ exists w, In w l /\ 0 < w /\ r = hamming_distance n 0 w).
Proof.
  revert d. induction l as [|x l IH]; intros d; cbn [fold_left].
  - cbv zeta. split; [lia|]. split; [intros w []|now left].
  - cbv zeta.
    set (d' := if 0 <? x
               then let word_weight := hamming_distance n 0 x in
                    if word_weight <? d then word_weight else d
               else d).
    destruct (IH d') as (H1 & H2 & H3). cbv zeta in H1, H2, H3.
    assert (Hd' : d' <= d /\ (0 < x -> d' <= hamming_distance n 0 x)
                  /\ (d' = d \/ 0 < x /\ d' = hamming_distance n 0 x)).
    { unfold d'. destruct (Z.ltb_spec 0 x); cbv zeta;
        [destruct (Z.ltb_spec (hamming_distance n 0 x) d)|]; lia. }
    split; [lia|]. split.
    + intros w [<-|Hw] Hpos; [lia | now apply H2].
    + destruct H3 as [H3|(w & Hw & Hpos & H3)].
      * destruct Hd' as (_ & _ & [Hd'|Hd']); [left; lia|].
        right. exists x. split; [now left|]. split; [tauto | lia].
      * right. exists w. split; [now right | tauto].
Qed.

(** X6. For a code length below 32 the [min_distance] of the constructor is
    the minimum distance of the code: any two different words of the code
    book differ in at least [min_distance] places, two of them differ in
    exactly that many when the code book has a nonzero word, and otherwise
    [min_distance] is [UINT_MAX]. *)
Theorem min_distance_is_minimum :
  forall generator parity_check n,
    0 <= n < 32 ->
    let c := WeightBound.new generator parity_check n in
    let code_words := WeightBound.code_words c in
    (forall a b, In a code_words -> In b code_words -> a <> b ->
                 WeightBound.min_distance c <= hamming_distance n a b)
    /\ ((exists w, In w code_words /\ w <> 0) ->
        exists a b, In a code_words /\ In b code_words /\ a <> b
                    /\ hamming_distance n a b = WeightBound.min_distance c)
    /\ ((forall w, In w code_words -> w = 0) ->
        WeightBound.min_distance c = UINT_MAX)
    /\ Burst.min_distance (Burst.new generator parity_check n)
       = WeightBound.min_distance c.
Proof.
  intros G H n Hn c code_words.
  assert (Hin : forall x, In x code_words
                          <-> 0 <= x < 2 ^ n /\ is_code_word H n x = true)
    by (intros x; now apply in_enumerate).
  destruct (minimum_distance_least n code_words UINT_MAX) as (H1 & H2 & H3).
  cbv zeta in H1, H2, H3.
  change (fold_left _ code_words UINT_MAX)
    with (WeightBound.min_distance c) in H1, H2, H3.
  assert (H0 : In 0 code_words).
  { apply Hin. split; [|apply is_code_word_0].
    pose proof (Z.pow_pos_nonneg 2 n). lia. }
  split; [|split; [|split; [|reflexivity]]].
  - intros a b Ha Hb Hab. rewrite <- hamming_distance_coset.
    apply Hin in Ha, Hb. apply H2.
    + apply Hin. split; [apply lxor_lt_pow2; tauto || lia|].
      now apply is_code_word_lxor.
    + assert (Z.lxor a b <> 0) by (rewrite Z.lxor_eq_0_iff; exact Hab).
      pose proof (lxor_lt_pow2 n a b ltac:(lia) ltac:(tauto) ltac:(tauto)). lia.
  - intros (w & Hw & Hne).
    assert (Hpos : 0 < w) by (apply Hin in Hw; lia).
    destruct H3 as [H3|(x & Hx & Hxpos & H3)].
    + exfalso. pose proof (H2 w Hw Hpos).
      pose proof (hamming_distance_range n 0 w ltac:(lia)).
      unfold UINT_MAX in H3. lia.
    + exists 0, x. repeat split; [exact H0 | exact Hx | lia | now symmetry].
  - intros Hall. destruct H3 as [H3|(x & Hx & Hxpos & _)]; [exact H3|].
    apply Hall in Hx. lia.
Qed.

Lemma min_distance_is_minimum_witness :
  let c := WeightBound.new [7] [3; 5] 3 in
  (forall a b, In a (WeightBound.code_words c) -> In b (WeightBound.code_words c) ->
               a <> b -> WeightBound.min_distance c <= hamming_distance 3 a b)
  /\ WeightBound.min_distance c = 3.
Proof.
  cbv zeta.
  destruct (min_distance_is_minimum [7] [3; 5] 3 ltac:(lia)) as (H1 & _).
  split; [exact H1 | reflexivity].
Defined.

(** ** Further properties: the transpose *)

Lemma list_map_nth (l : list Z) :
  l = map (fun i => nth (Z.to_nat i) l 0) (upto (size l)).
Proof.
  apply nth_ext with (d := 0) (d' := 0).
  - rewrite length_map. unfold upto. rewrite range_length.
    unfold size. lia.
  - intros k Hk.
    rewrite <- (Nat2Z.id k) at 2.
    rewrite (nth_map_upto (fun i => nth (Z.to_nat i) l 0))
      by (unfold size; lia).
    now rewrite Nat2Z.id.
Qed.

Lemma get_transpose_bits matrix n i b :
  0 <= n < 2 ^ 32 -> size matrix < 2 ^ 32 -> 0 <= i < n -> 0 <= b ->
  Z.testbit (nth (Z.to_nat i) (map (transpose_row matrix n) (upto n)) 0) b
  = (b <? 32) && ((b <? size matrix)
                  && Z.testbit (nth (Z.to_nat (size matrix - 1 - b)) matrix 0)
                               (n - 1 - i)).
Proof.
  intros Hn Hr Hi Hb. rewrite nth_map_upto by lia.
  now apply transpose_row_bits.
Qed.

(** X7. [get_transpose] never throws and returns [code_length] rows; bit
    [b] of its row [i] is bit [code_length - 1 - i] of row [r - 1 - b] of
    the matrix, [r] being the number of rows of the matrix: read with the
    highest bit first, as [print_matrix] prints, the result is the
    transpose.  Rows of the matrix that would land on a bit from 32 on are
    lost. *)
Theorem get_transpose_entries :
  forall matrix code_length,
    0 <= code_length <= 32 -> size matrix < 2 ^ 32 ->
    exists matrix_transpose,
      get_transpose matrix code_length = Ok matrix_transpose
      /\ size matrix_transpose = code_length
      /\ forall i b,
           0 <= i < code_length -> 0 <= b ->
           Z.testbit (nth (Z.to_nat i) matrix_transpose 0) b
           = (b <? 32)
             && ((b <? size matrix)
                 && Z.testbit (nth (Z.to_nat (size matrix - 1 - b)) matrix 0)
                              (code_length - 1 - i)).
Proof.
  intros matrix n Hn Hr.
  exists (map (transpose_row matrix n) (upto n)).
  split; [apply get_transpose_value; lia|].
  split; [rewrite size_map, size_upto; lia|].
  intros i b Hi Hb. apply get_transpose_bits; lia.
Qed.

Lemma get_transpose_entries_witness :
  exists matrix_transpose,
    get_transpose [3; 5] 3 = Ok matrix_transpose
    /\ size matrix_transpose = 3
    /\ forall i b,
         0 <= i < 3 -> 0 <= b ->
         Z.testbit (nth (Z.to_nat i) matrix_transpose 0) b
         = (b <? 32)
           && ((b <? size [3; 5])
               && Z.testbit (nth (Z.to_nat (size [3; 5] - 1 - b)) [3; 5] 0)
                            (3 - 1 - i)).
Proof. apply (get_transpose_entries [3; 5] 3); cbn; lia. Defined.

(** X8. Transposing twice gives the matrix back, each row cut to the code
    length: [get_transpose(get_transpose(M, n), r)] is [M] with every row
    reduced to its low [n] bits, for a matrix [M] of [r <= 32] rows. *)
Theorem get_transpose_twice :
  forall matrix code_length,
    0 <= code_length <= 32 -> size matrix <= 32 ->
    exists matrix_transpose,
      get_transpose matrix code_length = Ok matrix_transpose
      /\ get_transpose matrix_transpose (size matrix)
         = Ok (map (fun row => row mod 2 ^ code_length) matrix).
Proof.
  intros matrix n Hn Hr.
  pose proof (size_nonneg matrix) as Hr0.
  set (T := map (transpose_row matrix n) (upto n)).
  assert (HszT : size T = n) by (unfold T; rewrite size_map, size_upto; lia).
  exists T. split; [apply get_transpose_value; lia|].
  rewrite get_transpose_value by lia. f_equal.
  rewrite (list_map_nth matrix) at 3. rewrite map_map.
  apply map_ext_in. intros i Hi. apply in_upto in Hi.
  apply Z.bits_inj'. intros b Hb.
  rewrite Z.testbit_mod_pow2 by lia.
  rewrite transpose_row_bits by lia. rewrite HszT.
  destruct (Z.ltb_spec b n) as [Hbn|Hbn].
  - unfold T. rewrite get_transpose_bits by lia.
    replace (b <? 32) with true by (symmetry; apply Z.ltb_lt; lia).
    replace (size matrix - 1 - i <? 32) with true
      by (symmetry; apply Z.ltb_lt; lia).
    replace (size matrix - 1 - i <? size matrix) with true
      by (symmetry; apply Z.ltb_lt; lia).
    cbn [andb]. do 2 f_equal; [f_equal|]; lia.
  - now rewrite andb_false_r.
Qed.

Lemma get_transpose_twice_witness :
  exists matrix_transpose,
    get_transpose [11; 5] 3 = Ok matrix_transpose
    /\ get_transpose matrix_transpose (size [11; 5])
       = Ok (map (fun row => row mod 2 ^ 3) [11; 5]).
Proof. apply (get_transpose_twice [11; 5] 3); cbn; lia. Defined.

(** ** Further properties: syndromes *)

Lemma syndrome_of_word_lxor parity_check n a b :
  syndrome_of_word parity_check n (Z.lxor a b)
  = Z.lxor (syndrome_of_word parity_check n a)
           (syndrome_of_word parity_check n b).
Proof. unfold syndrome_of_word, selected_rows. apply xor_all_selected_lxor. Qed.

Lemma syndrome_of_word_zero parity_check n w :
  0 <= n < 2 ^ 32 -> size parity_check <= 32 ->
  syndrome_of_word parity_check n w = 0
  <-> is_code_word parity_check n w = true.
Proof.
  intros Hn Hr. pose proof (size_nonneg parity_check) as Hr0. split.
  - intros Hs. rewrite is_code_word_dotb. apply forallb_forall.
    intros h Hh. apply In_nth with (d := 0) in Hh.
    destruct Hh as (j & Hj & <-).
    assert (E := syndrome_bits parity_check n w
                   (size parity_check - 1 - Z.of_nat j)
                   Hn ltac:(lia) ltac:(unfold size in *; lia)).
    fold (syndrome_of_word parity_check n w) in E.
    rewrite Hs, Z.bits_0 in E.
    replace (size parity_check - 1 - Z.of_nat j <? 32) with true in E
      by (symmetry; apply Z.ltb_lt; unfold size in *; lia).
    replace (size parity_check - 1 - Z.of_nat j <? size parity_check)
      with true in E by (symmetry; apply Z.ltb_lt; unfold size in *; lia).
    cbn [andb] in E.
    replace (Z.to_nat (size parity_check - 1
                       - (size parity_check - 1 - Z.of_nat j)))
      with j in E by (unfold size in *; lia).
    now rewrite <- E.
  - intros Hw. apply syndrome_of_code_word; [lia | lia | exact Hw].
Qed.

(** X9. The syndrome that the decoders compute (the loop over
    [parity_transpose] applied to a word) is zero exactly for the words that
    [is_code_word] accepts, for a parity-check matrix of at most 32 rows; it
    is never thrown out of range and has [r] bits. *)
Theorem syndrome_zero_iff_code_word :
  forall parity_check code_length,
    0 <= code_length <= 32 -> size parity_check <= 32 ->
    exists parity_transpose,
      get_transpose parity_check code_length = Ok parity_transpose
      /\ forall word,
           exists s,
             syndrome parity_transpose word = Ok s
             /\ 0 <= s < 2 ^ size parity_check
             /\ (s = 0 <-> is_code_word parity_check code_length word = true).
Proof.
  intros H n Hn Hr.
  exists (map (transpose_row H n) (upto n)).
  split; [apply get_transpose_value; lia|].
  intros w. exists (syndrome_of_word H n w).
  split; [apply syndrome_value|].
  split; [apply syndrome_of_word_range; lia|].
  apply syndrome_of_word_zero; lia.
Qed.

Lemma syndrome_zero_iff_code_word_witness :
  exists parity_transpose,
    get_transpose [3; 5] 3 = Ok parity_transpose
    /\ forall word,
         exists s,
           syndrome parity_transpose word = Ok s
           /\ 0 <= s < 2 ^ size [3; 5]
           /\ (s = 0 <-> is_code_word [3; 5] 3 word = true).
Proof. apply (syndrome_zero_iff_code_word [3; 5] 3); cbn; lia. Defined.

(** X10. Two received words have the same syndrome exactly when they differ
    by a code word: the syndrome is linear over GF(2) and tells the cosets
    of the code apart (parity-check matrix of at most 32 rows). *)
Theorem syndrome_separates_cosets :
  forall parity_check code_length,
    0 <= code_length <= 32 -> size parity_check <= 32 ->
    exists parity_transpose,
      get_transpose parity_check code_length = Ok parity_transpose
      /\ forall a b,
           exists sa sb,
             syndrome parity_transpose a = Ok sa
             /\ syndrome parity_transpose b = Ok sb
             /\ syndrome parity_transpose (Z.lxor a b) = Ok (Z.lxor sa sb)
             /\ (sa = sb
                 <-> is_code_word parity_check code_length (Z.lxor a b) = true).
Proof.
  intros H n Hn Hr.
  exists (map (transpose_row H n) (upto n)).
  split; [apply get_transpose_value; lia|].
  intros a b.
  exists (syndrome_of_word H n a), (syndrome_of_word H n b).
  split; [apply syndrome_value|]. split; [apply syndrome_value|].
  split.
  - rewrite syndrome_value. f_equal. apply syndrome_of_word_lxor.
  - rewrite <- (syndrome_of_word_zero H n) by lia.
    rewrite syndrome_of_word_lxor. symmetry. apply Z.lxor_eq_0_iff.
Qed.

Lemma syndrome_separates_cosets_witness :
  exists parity_transpose,
    get_transpose [3; 5] 3 = Ok parity_transpose
    /\ forall a b,
         exists sa sb,
           syndrome parity_transpose a = Ok sa
           /\ syndrome parity_transpose b = Ok sb
           /\ syndrome parity_transpose (Z.lxor a b) = Ok (Z.lxor sa sb)
           /\ (sa = sb <-> is_code_word [3; 5] 3 (Z.lxor a b) = true).
Proof. apply (syndrome_separates_cosets [3; 5] 3); cbn; lia. Defined.

(** ** Further properties: rotations and weights *)

Lemma size_bit_place_values_le m x y (f : Z -> Z) :
  (forall p, 0 <= p < m -> Z.testbit x p = true ->
             0 <= f p < m /\ Z.testbit y (f p) = true) ->
  (forall p p', 0 <= p < m -> 0 <= p' < m -> f p = f p' -> p = p') ->
  size (bit_place_values x m) <= size (bit_place_values y m).
Proof.
  intros Hf Hinj. unfold size. apply inj_le.
  rewrite <- (length_map f (bit_place_values x m)).
  apply NoDup_incl_length.
  - apply Injective_map_NoDup_in; [|apply bit_place_values_NoDup].
    intros p p' Hp Hp'. apply in_bit_place_values in Hp, Hp'.
    apply Hinj; tauto.
  - intros q Hq. apply in_map_iff in Hq. destruct Hq as (p & <- & Hp).
    apply in_bit_place_values in Hp. apply in_bit_place_values.
    apply Hf; tauto.
Qed.

Lemma mod_add_sub m p a : 0 < m -> 0 <= p < m -> ((p + a) mod m - a) mod m = p.
Proof.
  intros Hm Hp. rewrite Zminus_mod_idemp_l.
  replace (p + a - a) with p by lia. now apply Z.mod_small.
Qed.

Lemma mod_sub_add m q a : 0 < m -> 0 <= q < m -> ((q - a) mod m + a) mod m = q.
Proof.
  intros Hm Hq. rewrite Zplus_mod_idemp_l.
  replace (q - a + a) with q by lia. now apply Z.mod_small.
Qed.

(** A rotation keeps the number of set bits. *)
Lemma weight_rotate_left m a w :
  0 < m < 2 ^ 32 -> 0 <= a <= m ->
  hamming_distance m 0 (rotate_left m a w) = hamming_distance m 0 w.
Proof.
  intros Hm Ha. rewrite !hamming_distance_size, !Z.lxor_0_l by lia.
  apply Z.le_antisymm.
  - apply (size_bit_place_values_le m _ _ (fun q => (q - a) mod m)).
    + intros q Hq Hb. rewrite rotate_left_bits in Hb by lia.
      apply andb_true_iff in Hb. destruct Hb as [_ Hb].
      split; [apply Z.mod_pos_bound; lia | exact Hb].
    + intros q q' Hq Hq' E.
      rewrite <- (mod_sub_add m q a), <- (mod_sub_add m q' a) by lia.
      now rewrite E.
  - apply (size_bit_place_values_le m _ _ (fun p => (p + a) mod m)).
    + intros p Hp Hb.
      assert (Hq : 0 <= (p + a) mod m < m) by (apply Z.mod_pos_bound; lia).
      split; [exact Hq|]. rewrite rotate_left_bits by lia.
      rewrite mod_add_sub by lia. rewrite Hb.
      replace ((p + a) mod m <? m) with true
        by (symmetry; apply Z.ltb_lt; lia).
      reflexivity.
    + intros p p' Hp Hp' E.
      rewrite <- (mod_add_sub m p a), <- (mod_add_sub m p' a) by lia.
      now rewrite E.
Qed.

(** Words that agree below [m] have the same place values. *)
Lemma bit_place_values_ext x y m :
  (forall i, 0 <= i < m -> Z.testbit x i = Z.testbit y i) ->
  bit_place_values x m = bit_place_values y m.
Proof.
  intros H. unfold bit_place_values. apply filter_ext_in.
  intros i Hi. apply in_upto in Hi. rewrite !bit_eqb_1 by lia. now apply H.
Qed.

Lemma bit_place_values_rotate_0 m w :
  0 < m -> bit_place_values (rotate_left m 0 w) m = bit_place_values w m.
Proof.
  intros Hm. apply bit_place_values_ext. intros i Hi.
  now apply rotate_left_0_low.
Qed.

(** ** Further properties: the cyclic shifts *)

Lemma get_cyclic_shifts_short w m : m <= 1 -> get_cyclic_shifts w m = [w].
Proof.
  intros Hm. destruct (get_cyclic_shifts_shape w m) as (l & -> & Hl).
  replace (Z.to_nat (m - 1)) with O in Hl by lia.
  now destruct l.
Qed.

(** X11. [get_cyclic_shifts] never fails; for a word length of at most 32
    it returns [max(1, word_length)] words: first the word itself as it
    was passed, then for [i = 1 .. word_length - 1] the low [word_length]
    bits of the word rotated to the left by [i] places. Every entry has as
    many set bits below the word length as the word. *)
Theorem get_cyclic_shifts_entries :
  forall word word_length,
    0 <= word_length <= 32 ->
    let cyclic_shifts := get_cyclic_shifts word word_length in
    size cyclic_shifts = Z.max 1 word_length
    /\ at_ cyclic_shifts 0 = Ok word
    /\ (forall i, 1 <= i < word_length ->
                  at_ cyclic_shifts i = Ok (rotate_left word_length i word))
    /\ (forall x, In x cyclic_shifts ->
                  hamming_distance word_length 0 x
                  = hamming_distance word_length 0 word).
Proof.
  intros w m Hm cyclic_shifts. unfold cyclic_shifts.
  destruct (Z.eq_dec m 0) as [->|Hne].
  - rewrite get_cyclic_shifts_short by lia.
    split; [reflexivity|]. split; [reflexivity|].
    split; [intros i Hi; lia|]. intros x [<-|[]]. reflexivity.
  - rewrite get_cyclic_shifts_rotations by lia.
    split; [rewrite size_cons, size_map, size_range; lia|].
    split; [reflexivity|]. split.
    + intros i Hi. rewrite at_cons_pos, at_map, at_range by lia.
      cbn [bind]. do 2 f_equal. lia.
    + intros x [<-|Hx]; [reflexivity|].
      apply in_map_iff in Hx. destruct Hx as (i & <- & Hi).
      apply in_range in Hi.
      apply weight_rotate_left; [unfold UINT_MAX in *; lia | lia].
Qed.

Lemma get_cyclic_shifts_entries_witness :
  size (get_cyclic_shifts 6 4) = Z.max 1 4
  /\ at_ (get_cyclic_shifts 6 4) 0 = Ok 6
  /\ at_ (get_cyclic_shifts 6 4) 3 = Ok (rotate_left 4 3 6).
Proof.
  destruct (get_cyclic_shifts_entries 6 4 ltac:(lia)) as (H1 & H2 & H3 & _).
  split; [exact H1|]. split; [exact H2 | apply H3; lia].
Defined.

(** ** Further properties: burst lengths *)

Lemma last_cons_default (q p : Z) (l : list Z) : last (q :: l) p = last l q.
Proof.
  revert q p. induction l as [|x l IH]; intros q p; [reflexivity|].
  change (last (q :: x :: l) p) with (last (x :: l) p).
  now rewrite !IH.
Qed.

Lemma at_last (p : Z) (l : list Z) :
  at_ (p :: l) (size (p :: l) - 1) = Ok (last l p).
Proof.
  revert p. induction l as [|q l IH]; intros p; [reflexivity|].
  rewrite at_cons_pos
    by (rewrite !size_cons; pose proof (size_nonneg l); lia).
  replace (size (p :: q :: l) - 1 - 1) with (size (q :: l) - 1)
    by (rewrite !size_cons; lia).
  rewrite IH. now rewrite last_cons_default.
Qed.

Lemma sorted_between (p : Z) (l : list Z) :
  StronglySorted Z.lt (p :: l) ->
  (forall x, In x (p :: l) -> p <= x <= last l p)
  /\ size (p :: l) <= last l p - p + 1.
Proof.
  revert p. induction l as [|q l IH]; intros p Hs.
  - split; [intros x [<-|[]]; cbn; lia | cbn; unfold size; cbn; lia].
  - apply StronglySorted_inv in Hs. destruct Hs as [Hs Hall].
    destruct (IH q Hs) as [H1 H2].
    rewrite last_cons_default.
    assert (Hpq : p < q) by (rewrite Forall_forall in Hall; apply Hall; now left).
    assert (Hq : q <= last l q) by (apply (H1 q); now left).
    split.
    + intros x [<-|Hx]; [lia|]. specialize (H1 x Hx). lia.
    + rewrite size_cons. lia.
Qed.

Lemma bit_place_values_sorted w m : StronglySorted Z.lt (bit_place_values w m).
Proof. apply filter_sorted, range_sorted. Qed.

(** The ends of the place values of a word with a set bit. *)
Lemma span_ends w m p l :
  bit_place_values w m = p :: l ->
  0 <= p /\ p <= last l p /\ last l p < m
  /\ Z.testbit w p = true /\ Z.testbit w (last l p) = true
  /\ (forall q, 0 <= q < m -> Z.testbit w q = true -> p <= q <= last l p)
  /\ size (p :: l) <= last l p - p + 1.
Proof.
  intros E. pose proof (bit_place_values_sorted w m) as Hs. rewrite E in Hs.
  destruct (sorted_between p l Hs) as [H1 H2].
  assert (Hp : In p (bit_place_values w m)) by (rewrite E; now left).
  assert (Hl : In (last l p) (bit_place_values w m)).
  { rewrite E. rewrite <- (last_cons_default p 0).
    destruct (exists_last (l := p :: l) ltac:(discriminate)) as (l' & a & E').
    rewrite E', last_last. apply in_or_app. right. now left. }
  apply in_bit_place_values in Hp, Hl.
  assert (Hpl : p <= last l p) by (apply (H1 p); now left).
  split; [lia|]. split; [exact Hpl|]. split; [lia|].
  split; [tauto|]. split; [tauto|]. split; [|exact H2].
  intros q Hq Hb. apply (H1 q). rewrite <- E.
  apply in_bit_place_values. tauto.
Qed.

Lemma span_range w m :
  0 <= m ->
  (bit_place_values w m = [] -> span w m = 0)
  /\ (bit_place_values w m <> [] -> 1 <= span w m <= m)
  /\ size (bit_place_values w m) <= span w m.
Proof.
  intros Hm. unfold span. destruct (bit_place_values w m) as [|p l] eqn:E.
  - split; [reflexivity|]. split; [congruence | reflexivity].
  - destruct (span_ends w m p l E) as (H1 & H2 & H3 & _ & _ & _ & H4).
    split; [discriminate|]. split; [lia | exact H4].
Qed.

(** One turn of the loop of [get_burst_length]. *)
Lemma burst_body_value shifted m burst_length :
  0 <= m <= 32 ->
  (let bit_place_values := bit_place_values shifted m in
   if negb (match bit_place_values with [] => true | _ => false end)
   then
     largest_pv <- at_ bit_place_values (size bit_place_values - 1) ;;
     smallest_pv <- at_ bit_place_values 0 ;;
     let this_burst_length := wrap (wrap (largest_pv - smallest_pv) + 1) in
     Ok (if this_burst_length <? burst_length
         then this_burst_length else burst_length)
   else Ok 0)
  = Ok (match bit_place_values shifted m with
        | [] => 0
        | _ => if span shifted m <? burst_length
               then span shifted m else burst_length
        end).
Proof.
  intros Hm. cbv zeta. unfold span.
  destruct (bit_place_values shifted m) as [|p l] eqn:E; [reflexivity|].
  cbn [negb]. rewrite at_last. cbn [bind]. rewrite at_cons_0. cbn [bind].
  destruct (span_ends shifted m p l E) as (H1 & H2 & H3 & _).
  rewrite (wrap_small (last l p - p)) by lia.
  rewrite wrap_small by lia. reflexivity.
Qed.

Lemma burst_fold m (xs : list Z) burst_length :
  0 <= m <= 32 ->
  (forall x, In x xs -> bit_place_values x m <> []) ->
  for_each xs
    (fun shifted burst_length =>
       let bit_place_values := bit_place_values shifted m in
       if negb (match bit_place_values with [] => true | _ => false end)
       then
         largest_pv <- at_ bit_place_values (size bit_place_values - 1) ;;
         smallest_pv <- at_ bit_place_values 0 ;;
         let this_burst_length := wrap (wrap (largest_pv - smallest_pv) + 1) in
         Ok (if this_burst_length <? burst_length
             then this_burst_length else burst_length)
       else Ok 0)
    burst_length
  = Ok (fold_left (fun burst_length shifted =>
                     if span shifted m <? burst_length
                     then span shifted m else burst_length)
                  xs burst_length).
Proof.
  intros Hm Hne. apply for_each_fold. intros x s Hx.
  rewrite burst_body_value by exact Hm.
  specialize (Hne x Hx). now destruct (bit_place_values x m).
Qed.

Lemma least_span_fold m (xs : list Z) d :
  let r := fold_left (fun burst_length shifted =>
                        if span shifted m <? burst_length
                        then span shifted m else burst_length) xs d in
  r <= d
  /\ (forall x, In x xs -> r <= span x m)
  /\ (r = d \/ exists x, In x xs /\ r = span x m).
Proof.
  revert d. induction xs as [|x xs IH]; intros d; cbn [fold_left]; cbv zeta.
  - split; [lia|]. split; [intros y []|now left].
  - set (d' := if span x m <? d then span x m else d).
    destruct (IH d') as (H1 & H2 & H3). cbv zeta in H1, H2, H3.
    assert (Hd' : d' <= d /\ d' <= span x m /\ (d' = d \/ d' = span x m))
      by (unfold d'; destruct (Z.ltb_spec (span x m) d); lia).
    split; [lia|]. split.
    + intros y [<-|Hy]; [lia | now apply H2].
    + destruct H3 as [H3|(y & Hy & H3)].
      * destruct Hd' as (_ & _ & [Hd'|Hd']); [left; lia|].
        right. exists x. split; [now left | lia].
      * right. exists y. split; [now right | exact H3].
Qed.

(** The place values of the entries of the list of shifts are those of the
    rotations by [0 .. m - 1]. *)
Lemma cyclic_shift_rotation w m x :
  0 < m <= 32 ->
  In x (get_cyclic_shifts w m) ->
  exists i, 0 <= i < m
            /\ bit_place_values x m = bit_place_values (rotate_left m i w) m.
Proof.
  intros Hm Hx. rewrite get_cyclic_shifts_rotations in Hx by exact Hm.
  destruct Hx as [<-|Hx].
  - exists 0. split; [lia|]. symmetry. apply bit_place_values_rotate_0. lia.
  - apply in_map_iff in Hx. destruct Hx as (i & <- & Hi).
    apply in_range in Hi. exists i. split; [lia | reflexivity].
Qed.

Lemma rotation_cyclic_shift w m i :
  0 < m <= 32 -> 0 <= i < m ->
  exists x, In x (get_cyclic_shifts w m)
            /\ bit_place_values x m = bit_place_values (rotate_left m i w) m.
Proof.
  intros Hm Hi. rewrite get_cyclic_shifts_rotations by exact Hm.
  destruct (Z.eq_dec i 0) as [->|Hne].
  - exists w. split; [now left|]. symmetry. apply bit_place_values_rotate_0. lia.
  - exists (rotate_left m i w). split; [|reflexivity].
    right. apply in_map_iff. exists i. split; [reflexivity|].
    apply in_range. lia.
Qed.

Lemma rotation_nonzero w m i :
  0 < m -> 0 <= i < m ->
  bit_place_values w m <> [] ->
  bit_place_values (rotate_left m i w) m <> [].
Proof.
  intros Hm Hi Hne E. apply Hne.
  apply bit_place_values_nil; [lia|]. intros p Hp.
  rewrite bit_place_values_nil in E by lia.
  specialize (E ((p + i) mod m) ltac:(apply Z.mod_pos_bound; lia)).
  rewrite rotate_left_bits in E by (try lia; apply Z.mod_pos_bound; lia).
  rewrite mod_add_sub in E by lia.
  replace ((p + i) mod m <? m) with true in E
    by (symmetry; apply Z.ltb_lt; apply Z.mod_pos_bound; lia).
  exact E.
Qed.

Lemma rotation_zero w m i :
  0 < m -> 0 <= i <= m ->
  bit_place_values w m = [] ->
  bit_place_values (rotate_left m i w) m = [].
Proof.
  intros Hm Hi E. rewrite bit_place_values_nil in * by lia.
  intros q Hq. rewrite rotate_left_bits by lia.
  rewrite E by (apply Z.mod_pos_bound; lia). apply andb_false_r.
Qed.

Lemma span_ext x y m :
  bit_place_values x m = bit_place_values y m -> span x m = span y m.
Proof. unfold span. now intros ->. Qed.

(** The value of [get_burst_length] on a syndrome with a set bit: the least
    span of a rotation. *)
Lemma burst_length_least s m :
  0 < m <= 32 -> bit_place_values s m <> [] ->
  exists b,
    Burst.get_burst_length s m = Ok b
    /\ (forall i, 0 <= i < m -> b <= span (rotate_left m i s) m)
    /\ (exists i, 0 <= i < m /\ b = span (rotate_left m i s) m).
Proof.
  intros Hm Hne.
  assert (Hall : forall x, In x (get_cyclic_shifts s m) ->
                           bit_place_values x m <> []).
  { intros x Hx. destruct (cyclic_shift_rotation s m x Hm Hx) as (i & Hi & ->).
    apply rotation_nonzero; [lia | lia | exact Hne]. }
  eexists. split;
    [exact (burst_fold m (get_cyclic_shifts s m) UINT_MAX ltac:(lia) Hall)|].
  destruct (least_span_fold m (get_cyclic_shifts s m) UINT_MAX)
    as (H1 & H2 & H3). cbv zeta in H1, H2, H3.
  split.
  - intros i Hi. destruct (rotation_cyclic_shift s m i Hm Hi) as (x & Hx & E).
    rewrite <- (span_ext x _ m E). now apply H2.
  - destruct H3 as [H3|(x & Hx & H3)].
    + exfalso.
      destruct (rotation_cyclic_shift s m 0 Hm ltac:(lia)) as (x & Hx & E).
      pose proof (H2 x Hx) as Hle.
      destruct (span_range x m ltac:(lia)) as (_ & Hr & _).
      specialize (Hr (Hall x Hx)). unfold UINT_MAX in *. lia.
    + destruct (cyclic_shift_rotation s m x Hm Hx) as (i & Hi & E).
      exists i. split; [exact Hi|]. rewrite H3. now apply span_ext.
Qed.

(** The value of [get_burst_length] on a syndrome without a set bit. *)
Lemma burst_length_none s m :
  0 <= m <= 32 -> bit_place_values s m = [] ->
  Burst.get_burst_length s m = Ok 0.
Proof.
  intros Hm E. unfold Burst.get_burst_length.
  apply for_each_const.
  - destruct (get_cyclic_shifts_shape s m) as (l & -> & _). discriminate.
  - intros x bl Hx. rewrite burst_body_value by exact Hm.
    destruct (Z.eq_dec m 0) as [->|Hm0].
    + reflexivity.
    + destruct (cyclic_shift_rotation s m x ltac:(lia) Hx) as (i & Hi & ->).
      rewrite rotation_zero; [reflexivity | lia | lia | exact E].
Qed.

Lemma bit_place_values_mod s m :
  0 <= m -> bit_place_values s m = [] <-> s mod 2 ^ m = 0.
Proof.
  intros Hm. rewrite bit_place_values_nil by exact Hm.
  rewrite <- (Z.mod_0_l (2 ^ m)) by (apply Z.pow_nonzero; lia).
  rewrite <- low_bits_mod by exact Hm.
  split; intros H i Hi; specialize (H i Hi); now rewrite Z.bits_0 in *.
Qed.

(** The number of set bits of a syndrome is at most its burst length. *)
Lemma get_burst_length_bounds_aux s m :
  0 <= m <= 32 ->
  exists b,
    Burst.get_burst_length s m = Ok b
    /\ hamming_distance m 0 s <= b.
Proof.
  intros Hm.
  rewrite hamming_distance_size, Z.lxor_0_l by lia.
  destruct (bit_place_values s m) as [|p l] eqn:E.
  - exists 0. split; [now apply burst_length_none | reflexivity].
  - assert (Hne : bit_place_values s m <> []) by (rewrite E; discriminate).
    assert (Hm0 : 0 < m).
    { destruct (Z.eq_dec m 0) as [->|]; [discriminate E | lia]. }
    destruct (burst_length_least s m ltac:(lia) Hne)
      as (b & Hb & Hleast & (i & Hi & Hatt)).
    exists b. split; [exact Hb|].
    destruct (span_range (rotate_left m i s) m ltac:(lia)) as (_ & _ & Hsz).
    rewrite <- E.
    pose proof (weight_rotate_left m i s ltac:(lia) ltac:(lia)) as Hw.
    rewrite !hamming_distance_size, !Z.lxor_0_l in Hw by lia. lia.
Qed.

(** X12. [get_burst_length] never throws. For a syndrome length of at most
    32 its result is 0 exactly when the low [syndrome_length] bits of the
    syndrome are zero; otherwise it lies between the number of set bits of
    the syndrome and the syndrome length. *)
Theorem get_burst_length_bounds :
  forall syndrome syndrome_length,
    0 <= syndrome_length <= 32 ->
    exists burst_length,
      Burst.get_burst_length syndrome syndrome_length = Ok burst_length
      /\ (burst_length = 0 <-> syndrome mod 2 ^ syndrome_length = 0)
      /\ hamming_distance syndrome_length 0 syndrome <= burst_length
      /\ burst_length <= syndrome_length.
Proof.
  intros s m Hm.
  rewrite hamming_distance_size, Z.lxor_0_l by lia.
  destruct (bit_place_values s m) as [|p l] eqn:E.
  - exists 0. split; [now apply burst_length_none|].
    split; [|split; [reflexivity | lia]].
    split; [intros _; now apply bit_place_values_mod | reflexivity].
  - assert (Hne : bit_place_values s m <> []) by (rewrite E; discriminate).
    assert (Hm0 : 0 < m).
    { destruct (Z.eq_dec m 0) as [->|]; [discriminate E | lia]. }
    destruct (burst_length_least s m ltac:(lia) Hne)
      as (b & Hb & Hleast & (i & Hi & Hatt)).
    exists b. split; [exact Hb|].
    pose proof (rotation_nonzero s m i Hm0 Hi Hne) as Hrot.
    destruct (span_range (rotate_left m i s) m ltac:(lia)) as (_ & Hr & Hsz).
    specialize (Hr Hrot).
    split; [|split].
    + split; [lia|]. intros H0. apply bit_place_values_mod in H0; [|lia].
      congruence.
    + rewrite <- E.
      pose proof (weight_rotate_left m i s ltac:(lia) ltac:(lia)) as Hw.
      rewrite !hamming_distance_size, !Z.lxor_0_l in Hw by lia. lia.
    + lia.
Qed.

Lemma get_burst_length_bounds_witness :
  exists burst_length,
    Burst.get_burst_length 9 4 = Ok burst_length
    /\ (burst_length = 0 <-> 9 mod 2 ^ 4 = 0)
    /\ hamming_distance 4 0 9 <= burst_length
    /\ burst_length <= 4.
Proof. apply (get_burst_length_bounds 9 4). lia. Defined.

(** X13. For a syndrome with a set bit, [get_burst_length] returns the
    cyclic burst length: the least [d] such that, after some rotation of the
    syndrome within [syndrome_length] bits, all set bits lie in [d]
    consecutive places. *)
Theorem get_burst_length_cyclic :
  forall syndrome syndrome_length,
    0 < syndrome_length <= 32 ->
    syndrome mod 2 ^ syndrome_length <> 0 ->
    exists burst_length,
      Burst.get_burst_length syndrome syndrome_length = Ok burst_length
      /\ (exists i lo,
             0 <= i < syndrome_length
             /\ 0 <= lo /\ lo + burst_length <= syndrome_length
             /\ forall p,
                  0 <= p < syndrome_length ->
                  Z.testbit (rotate_left syndrome_length i syndrome) p = true ->
                  lo <= p < lo + burst_length)
      /\ (forall i lo d,
             0 <= i < syndrome_length ->
             (forall p,
                 0 <= p < syndrome_length ->
                 Z.testbit (rotate_left syndrome_length i syndrome) p = true ->
                 lo <= p < lo + d) ->
             burst_length <= d).
Proof.
  intros s m Hm Hnz.
  assert (Hne : bit_place_values s m <> [])
    by (intros E; apply Hnz; apply bit_place_values_mod; [lia | exact E]).
  destruct (burst_length_least s m Hm Hne)
    as (b & Hb & Hleast & (i & Hi & Hatt)).
  exists b. split; [exact Hb|]. split.
  - pose proof (rotation_nonzero s m i ltac:(lia) Hi Hne) as Hrot.
    unfold span in Hatt.
    destruct (bit_place_values (rotate_left m i s) m) as [|p l] eqn:E;
      [congruence|].
    destruct (span_ends _ m p l E) as (H1 & H2 & H3 & _ & _ & H6 & _).
    exists i, p. split; [exact Hi|]. split; [lia|]. split; [lia|].
    intros q Hq Hbit. specialize (H6 q Hq Hbit). lia.
  - intros j lo d Hj Hwin.
    pose proof (rotation_nonzero s m j ltac:(lia) Hj Hne) as Hrot.
    specialize (Hleast j Hj). unfold span in Hleast.
    destruct (bit_place_values (rotate_left m j s) m) as [|p l] eqn:E;
      [congruence|].
    destruct (span_ends _ m p l E) as (H1 & H2 & H3 & H4 & H5 & _).
    pose proof (Hwin p ltac:(lia) H4).
    pose proof (Hwin (last l p) ltac:(lia) H5). lia.
Qed.

Lemma get_burst_length_cyclic_witness :
  9 mod 2 ^ 4 <> 0
  /\ exists burst_length,
      Burst.get_burst_length 9 4 = Ok burst_length
      /\ (exists i lo,
             0 <= i < 4 /\ 0 <= lo /\ lo + burst_length <= 4
             /\ forall p, 0 <= p < 4 ->
                          Z.testbit (rotate_left 4 i 9) p = true ->
                          lo <= p < lo + burst_length)
      /\ (forall i lo d,
             0 <= i < 4 ->
             (forall p, 0 <= p < 4 ->
                        Z.testbit (rotate_left 4 i 9) p = true ->
                        lo <= p < lo + d) ->
             burst_length <= d).
Proof.
  split; [discriminate|].
  apply (get_burst_length_cyclic 9 4); [lia | discriminate].
Defined.

(** ** Further properties: the encoder and the code book *)



Lemma xor_all_app l1 l2 : xor_all (l1 ++ l2) = Z.lxor (xor_all l1) (xor_all l2).
Proof.
  induction l1 as [|x l1 IH]; cbn [app xor_all fold_right].
  - now rewrite Z.lxor_0_l.
  - fold (xor_all (l1 ++ l2)). fold (xor_all l1).
    now rewrite IH, Z.lxor_assoc.
Qed.

(** The encoding over one more row: the top bit of the message selects the
    first row. *)
Lemma selected_rows_cons h rows message :
  xor_all (selected_rows (h :: rows) message)
  = Z.lxor (xor_all (selected_rows rows message))
           (if Z.testbit message (size rows) then h else 0).
Proof.
  unfold selected_rows. rewrite size_cons, Z.add_comm.
  rewrite upto_snoc by apply size_nonneg.
  rewrite filter_app, map_app, xor_all_app. f_equal.
  - f_equal. apply map_ext_in. intros i Hi.
    apply filter_In in Hi. destruct Hi as [Hi _]. apply in_upto in Hi.
    replace (Z.to_nat (size rows + 1 - 1 - i))
      with (S (Z.to_nat (size rows - 1 - i))) by lia.
    reflexivity.
  - cbn [filter]. destruct (Z.testbit message (size rows)); [|reflexivity].
    cbn [map xor_all fold_right].
    replace (Z.to_nat (size rows + 1 - 1 - size rows)) with O by lia.
    cbn [nth]. apply Z.lxor_0_r.
Qed.

Lemma in_row_combinations rows message :
  In (xor_all (selected_rows rows message)) (row_combinations rows).
Proof.
  induction rows as [|h rows IH].
  - now left.
  - rewrite selected_rows_cons. cbn [row_combinations].
    apply in_or_app. destruct (Z.testbit message (size rows)).
    + right. apply in_map_iff.
      exists (xor_all (selected_rows rows message)).
      split; [apply Z.lxor_comm | exact IH].
    + left. now rewrite Z.lxor_0_r.
Qed.

Lemma selected_rows_0 rows : xor_all (selected_rows rows 0) = 0.
Proof.
  unfold selected_rows. rewrite filter_none; [reflexivity|].
  intros x _. apply Z.bits_0.
Qed.

Lemma independent_rows_cons n h rows :
  independent_rows n (h :: rows) = true ->
  independent_rows n rows = true
  /\ forall x, In x (row_combinations rows) ->
               vanishing n (Z.lxor h x) = false.
Proof.
  unfold independent_rows. cbn [row_combinations].
  rewrite filter_app, length_app, Nat.eqb_eq.
  assert (H0 : In 0 (filter (vanishing n) (row_combinations rows))).
  { apply filter_In. split.
    - rewrite <- (selected_rows_0 rows). apply in_row_combinations.
    - unfold vanishing. now rewrite Zmod_0_l. }
  intros Hlen.
  destruct (filter (vanishing n) (row_combinations rows)) as [|y l] eqn:E;
    [contradiction|].
  cbn [length] in Hlen.
  destruct l; [|cbn in Hlen; lia].
  split; [reflexivity|].
  intros x Hx.
  destruct (vanishing n (Z.lxor h x)) eqn:Ev; [|reflexivity].
  exfalso.
  assert (Hin : In (Z.lxor h x)
                   (filter (vanishing n) (map (Z.lxor h) (row_combinations rows)))).
  { apply filter_In. split; [apply in_map; exact Hx | exact Ev]. }
  destruct (filter (vanishing n) (map (Z.lxor h) (row_combinations rows)));
    [contradiction | cbn in Hlen; lia].
Qed.

(** With independent rows only the zero message is encoded as a word that
    vanishes below [n]. *)
Lemma encode_nonvanishing n rows message :
  0 <= n ->
  independent_rows n rows = true ->
  message mod 2 ^ size rows <> 0 ->
  vanishing n (xor_all (selected_rows rows message)) = false.
Proof.
  intros Hn. induction rows as [|h rows IH]; intros Hind Hm.
  - exfalso. apply Hm. change (size (@nil Z)) with 0. apply Z.mod_1_r.
  - destruct (independent_rows_cons n h rows Hind) as [Hind' Hh].
    rewrite selected_rows_cons.
    destruct (Z.testbit message (size rows)) eqn:Hb.
    + rewrite Z.lxor_comm. apply Hh, in_row_combinations.
    + rewrite Z.lxor_0_r. apply IH; [exact Hind'|].
      intros E. apply Hm. pose proof (size_nonneg rows) as Hk.
      rewrite <- (Z.mod_0_l (2 ^ size (h :: rows)))
        by (apply Z.pow_nonzero; [lia | apply size_nonneg]).
      apply low_bits_mod; [apply size_nonneg|].
      rewrite size_cons. intros i Hi. rewrite Z.bits_0.
      destruct (Z.eq_dec i (size rows)) as [->|Hne]; [exact Hb|].
      rewrite <- (Z.mod_0_l (2 ^ size rows)) in E
        by (apply Z.pow_nonzero; lia).
      rewrite <- low_bits_mod in E by lia.
      rewrite (E i) by lia. apply Z.bits_0.
Qed.

Lemma vanishing_lxor n a b :
  0 <= n ->
  vanishing n (Z.lxor a b) = true <-> a mod 2 ^ n = b mod 2 ^ n.
Proof.
  intros Hn. rewrite vanishing_bits, <- low_bits_mod by exact Hn.
  split; intros H i Hi; specialize (H i Hi); rewrite Z.lxor_spec in *;
    destruct (Z.testbit a i), (Z.testbit b i); cbn in *; congruence.
Qed.

Lemma encode_injective n generator a b :
  0 <= n ->
  independent_rows n generator = true ->
  0 <= a < 2 ^ size generator -> 0 <= b < 2 ^ size generator -> a <> b ->
  xor_all (selected_rows generator a) mod 2 ^ n
  <> xor_all (selected_rows generator b) mod 2 ^ n.
Proof.
  intros Hn Hind Ha Hb Hab E.
  rewrite <- vanishing_lxor in E by exact Hn.
  unfold selected_rows in E. rewrite <- xor_all_selected_lxor in E.
  fold (selected_rows generator (Z.lxor a b)) in E.
  rewrite encode_nonvanishing in E; [discriminate | exact Hn | exact Hind |].
  pose proof (lxor_lt_pow2 (size generator) a b (size_nonneg _) Ha Hb).
  rewrite Z.mod_small by lia. now rewrite Z.lxor_eq_0_iff.
Qed.



Lemma xor_all_range n (l : list Z) :
  0 <= n -> (forall x, In x l -> 0 <= x < 2 ^ n) -> 0 <= xor_all l < 2 ^ n.
Proof.
  intros Hn. induction l as [|x l IH]; intros H; cbn [xor_all fold_right].
  - pose proof (Z.pow_pos_nonneg 2 n). lia.
  - apply lxor_lt_pow2; [exact Hn | apply H; now left |].
    apply IH. intros; apply H; now right.
Qed.

Lemma selected_rows_range n generator message :
  0 <= n -> (forall g, In g generator -> 0 <= g < 2 ^ n) ->
  0 <= xor_all (selected_rows generator message) < 2 ^ n.
Proof.
  intros Hn HG. apply xor_all_range; [exact Hn|]. intros x Hx.
  unfold selected_rows in Hx. apply in_map_iff in Hx.
  destruct Hx as (i & <- & Hi). apply filter_In in Hi. destruct Hi as [Hi _].
  apply in_upto in Hi. apply HG, nth_In. unfold size in *. lia.
Qed.

(** X15. When the generator matrix has [k] independent rows that are code
    words of [n] bits and the parity-check matrix has [n - k] independent
    rows, the code book of the constructor is exactly the set of encodings:
    a word is in the code book if and only if [encode_word] returns it for
    some message below [2^k] (code length below 32). *)
Theorem code_book_is_encoder_image :
  forall generator parity_check n,
    0 <= n < 32 ->
    size generator + size parity_check = n ->
    independent_rows n generator = true ->
    independent_rows n parity_check = true ->
    (forall g, In g generator ->
               0 <= g < 2 ^ n /\ is_code_word parity_check n g = true) ->
    forall word,
      In word (WeightBound.code_words
                 (WeightBound.new generator parity_check n))
      <-> exists message,
            0 <= message < 2 ^ size generator
            /\ encode_word generator message = Ok word.
Proof.
  intros G H n Hn Hk HindG HindH HG.
  set (code_words := WeightBound.code_words (WeightBound.new G H n)).
  set (image := map (fun m => xor_all (selected_rows G m))
                    (upto (2 ^ size G))).
  pose proof (size_nonneg G) as HkG. pose proof (size_nonneg H) as HkH.
  assert (Hin : forall x, In x code_words
                          <-> 0 <= x < 2 ^ n /\ is_code_word H n x = true)
    by (intros x; now apply in_enumerate).
  assert (Himg : forall m, 0 <= xor_all (selected_rows G m) < 2 ^ n
                           /\ In (xor_all (selected_rows G m)) code_words).
  { intros m.
    assert (0 <= xor_all (selected_rows G m) < 2 ^ n)
      by (apply selected_rows_range; [lia | intros g Hg; now apply HG]).
    split; [assumption|]. apply Hin. split; [assumption|].
    apply encoded_is_code_word. intros g Hg. now apply HG. }
  assert (Hnodup : NoDup image).
  { apply Injective_map_NoDup_in; [|apply range_NoDup].
    intros a b Ha Hb E. apply in_upto in Ha, Hb.
    destruct (Z.eq_dec a b) as [|Hab]; [assumption|]. exfalso.
    apply (encode_injective n G a b); try lia; try assumption.
    now rewrite E. }
  assert (Hsize : size code_words = 2 ^ size G).
  { pose proof (code_words_count H n Hn) as E.
    unfold independent_rows in HindH. apply Nat.eqb_eq in HindH.
    unfold size at 3 in E. rewrite HindH in E.
    replace n with (size H + size G) in E at 2 by lia.
    rewrite Z.pow_add_r in E by lia.
    assert (0 < 2 ^ size H) by (apply Z.pow_pos_nonneg; lia).
    fold code_words in E. unfold code_words.
    change (WeightBound.code_words (WeightBound.new G H n))
      with (enumerate_code_words H n). nia. }
  assert (Hincl : incl code_words image).
  { apply NoDup_length_incl; [exact Hnodup| |].
    - unfold image. rewrite length_map. unfold upto.
      rewrite range_length.
      pose proof (Z.pow_pos_nonneg 2 (size G)). unfold size in *. lia.
    - intros x Hx. unfold image in Hx. apply in_map_iff in Hx.
      destruct Hx as (m & <- & _). apply Himg. }
  intros w. split.
  - intros Hw. apply Hincl in Hw. unfold image in Hw.
    apply in_map_iff in Hw. destruct Hw as (m & <- & Hm).
    apply in_upto in Hm. exists m. split; [lia | apply encode_word_value].
  - intros (m & Hm & E). rewrite encode_word_value in E.
    injection E as <-. apply Himg.
Qed.

Lemma code_book_is_encoder_image_witness :
  In 7 (WeightBound.code_words (WeightBound.new [7] [3; 5] 3))
  <-> exists message,
        0 <= message < 2 ^ size [7] /\ encode_word [7] message = Ok 7.
Proof.
  apply (code_book_is_encoder_image [7] [3; 5] 3);
    [lia | reflexivity | reflexivity | reflexivity |].
  intros g [<-|[]]. split; [lia | reflexivity].
Defined.

(** ** Further properties: the weight decoder finds a nearest code word *)

Lemma find_from_Some p l j i :
  find_from p l j = Some i ->
  exists pre x post,
    l = pre ++ x :: post /\ p x = true
    /\ (forall y, In y pre -> p y = false) /\ i = j + size pre.
Proof.
  revert j. induction l as [|x l IH]; intros j; cbn [find_from]; [discriminate|].
  destruct (p x) eqn:Hp.
  - intros [= <-]. exists [], x, l. repeat split; try assumption.
    + intros y [].
    + cbn. lia.
  - intros H. destruct (IH _ H) as (pre & y & post & -> & Hy & Hpre & ->).
    exists (x :: pre), y, post. repeat split; try assumption.
    + intros z [<-|Hz]; [exact Hp | now apply Hpre].
    + rewrite size_cons. lia.
Qed.

Lemma find_from_None p l j :
  find_from p l j = None -> forall x, In x l -> p x = false.
Proof.
  revert j. induction l as [|x l IH]; intros j; cbn [find_from]; [intros _ y []|].
  destruct (p x) eqn:Hp; [discriminate|].
  intros H y [<-|Hy]; [exact Hp | now apply (IH _ H)].
Qed.

Lemma at_app_middle {A} (pre post : list A) x :
  at_ (pre ++ x :: post) (size pre) = Ok x.
Proof.
  unfold size. rewrite at_nth_error, nth_error_app2 by lia.
  now rewrite Nat.sub_diag.
Qed.

Lemma at_app_before {A} (pre post : list A) j y :
  0 <= j < size pre -> at_ (pre ++ post) j = Ok y -> In y pre.
Proof.
  intros Hj Hy. rewrite <- (Z2Nat.id j) in Hy by lia.
  rewrite at_nth_error in Hy.
  rewrite nth_error_app1 in Hy by (unfold size in Hj; lia).
  destruct (nth_error pre (Z.to_nat j)) eqn:E; [|discriminate].
  injection Hy as <-. now apply nth_error_In in E.
Qed.

Lemma at_In {A} (l : list A) i x : at_ l i = Ok x -> In x l.
Proof.
  intros H. apply at_Ok_range in H as Hr.
  rewrite <- (Z2Nat.id i) in H by lia. rewrite at_nth_error in H.
  destruct (nth_error l (Z.to_nat i)) eqn:E; [|discriminate].
  injection H as <-. now apply nth_error_In in E.
Qed.

(** What [decode_word] of [cyclic_codes.h] returns, by the first syndrome
    within the bound. *)
Lemma weight_decode_word_value generator parity_check n w (fuel : nat) :
  0 < n <= 32 -> (Z.to_nat n <= fuel)%nat ->
  let c := WeightBound.new generator parity_check n in
  let syndromes :=
    map (syndrome_of_word parity_check n) (get_cyclic_shifts w n) in
  WeightBound.decode_word c fuel w
  = match find_from (fun s => hamming_distance n 0 s <=? WeightBound.bound c)
                    syndromes 0 with
    | Some i =>
        let decoded_word :=
          Z.lxor w (rotate_left n ((n - i) mod n)
                      (shl (nth (Z.to_nat i) syndromes 0)
                           (n - size parity_check))) in
        Ok (decoded_word,
            if is_code_word parity_check n decoded_word
            then [] else [diagnostics])
    | None =>
        decoded_word <-
          nearest_neighbor_search (WeightBound.code_words c) n w ;;
        Ok (decoded_word, [])
    end.
Proof.
  intros Hn Hfuel c syndromes.
  assert (Hn' : 0 <= WeightBound.code_length c < 2 ^ 32) by (cbn; lia).
  pose proof (weight_syndromes_value c w Hn') as Hs.
  pose proof (size_weight_syndromes c w ltac:(cbn; lia)) as Hsz.
  change (WeightBound.parity_check c) with parity_check in Hs, Hsz.
  change (WeightBound.code_length c) with n in Hs, Hsz.
  fold syndromes in Hs, Hsz.
  unfold WeightBound.decode_word. rewrite Hs. cbn [bind].
  destruct (find_from _ syndromes 0) as [i|] eqn:Ef.
  - destruct (find_from_Some _ _ _ _ Ef)
      as (pre & x & post & E & Hx & Hpre & ->).
    rewrite Z.add_0_l.
    assert (Hat : at_ syndromes (size pre) = Ok x)
      by (rewrite E; apply at_app_middle).
    apply at_Ok_range in Hat as Hir.
    rewrite (weight_search_found c syndromes ltac:(lia) (size pre) x
               (Z.to_nat (size pre)) fuel 0);
      try lia; try assumption.
    + cbn [bind fst snd negb]. rewrite Hat. cbn [bind].
      rewrite weight_shift_syndrome by (cbn; lia).
      change (WeightBound.code_length c) with n.
      change (WeightBound.parity_check c) with parity_check.
      rewrite (at_nth syndromes (size pre) 0) in Hat by lia.
      injection Hat as ->. cbv zeta.
      now destruct (is_code_word parity_check n _).
    + apply Z.leb_le. exact Hx.
    + intros j s' Hj Hs'. rewrite E in Hs'.
      apply at_app_before in Hs'; [|lia].
      apply Hpre in Hs'. apply Z.leb_gt in Hs'. exact Hs'.
  - pose proof (find_from_None _ _ _ Ef) as Hnone.
    rewrite (weight_search_none c syndromes ltac:(lia)
               (Z.to_nat (size syndromes)) fuel 0); try lia.
    + reflexivity.
    + intros i s Hi. apply at_In in Hi. apply Hnone in Hi.
      apply Z.leb_gt in Hi. exact Hi.
Qed.

Lemma hamming_distance_ext n a b b' :
  0 <= n < 2 ^ 32 ->
  (forall i, 0 <= i < n -> Z.testbit b i = Z.testbit b' i) ->
  hamming_distance n a b = hamming_distance n a b'.
Proof.
  intros Hn H. rewrite !hamming_distance_size by exact Hn. f_equal.
  apply bit_place_values_ext. intros i Hi.
  rewrite !Z.lxor_spec. now rewrite H.
Qed.

Lemma hamming_distance_mod n a b :
  0 <= n < 2 ^ 32 ->
  hamming_distance n a (b mod 2 ^ n) = hamming_distance n a b.
Proof.
  intros Hn. apply hamming_distance_ext; [exact Hn|]. intros i Hi.
  rewrite Z.testbit_mod_pow2 by lia.
  destruct (Z.ltb_spec i n); [reflexivity | lia].
Qed.

(** Shifting a word of [r] bits to the top of [n] bits keeps its weight. *)
Lemma weight_shl n r x :
  0 <= r <= n -> n <= 32 -> 0 <= x < 2 ^ r ->
  hamming_distance n 0 (shl x (n - r)) = hamming_distance n 0 x.
Proof.
  intros Hr Hn Hx. destruct (shl_range x r n Hr Hn Hx) as [-> _].
  rewrite !hamming_distance_size, !Z.lxor_0_l by lia.
  apply Z.le_antisymm.
  - apply (size_bit_place_values_le n _ _ (fun q => q - (n - r))).
    + intros q Hq Hb. rewrite Z.shiftl_spec in Hb by lia.
      destruct (Z.ltb_spec (q - (n - r)) 0) as [Hneg|Hpos].
      * rewrite Z.testbit_neg_r in Hb by lia. discriminate.
      * split; [lia | exact Hb].
    + intros; lia.
  - apply (size_bit_place_values_le n _ _ (fun p => p + (n - r))).
    + intros p Hp Hb.
      assert (p < r).
      { destruct (Z.ltb_spec p r); [assumption|].
        rewrite (lt_pow2_bits r x p) in Hb by lia. discriminate. }
      split; [lia|]. rewrite Z.shiftl_spec by lia.
      now replace (p + (n - r) - (n - r)) with p by lia.
    + intros; lia.
Qed.

(** Two code words that differ below [n] are at least [min_distance]
    apart. *)
Lemma code_words_apart generator parity_check n a b :
  0 <= n < 32 ->
  is_code_word parity_check n a = true ->
  is_code_word parity_check n b = true ->
  a mod 2 ^ n <> b mod 2 ^ n ->
  WeightBound.min_distance (WeightBound.new generator parity_check n)
  <= hamming_distance n a b.
Proof.
  intros Hn Ha Hb Hab.
  set (c := WeightBound.new generator parity_check n).
  destruct (minimum_distance_least n (WeightBound.code_words c) UINT_MAX)
    as (_ & Hleast & _). cbv zeta in Hleast.
  change (fold_left _ (WeightBound.code_words c) UINT_MAX)
    with (WeightBound.min_distance c) in Hleast.
  set (y := Z.lxor a b mod 2 ^ n).
  assert (Hy : In y (WeightBound.code_words c)).
  { apply in_enumerate; [lia|]. split; [apply mod_pow2_range; lia|].
    unfold y. rewrite is_code_word_mod by lia. now apply is_code_word_lxor. }
  assert (Hy0 : y <> 0).
  { intros E. apply Hab. apply vanishing_lxor; [lia|].
    unfold vanishing. fold y. rewrite E. reflexivity. }
  assert (Hypos : 0 < y) by (apply in_enumerate in Hy; lia).
  pose proof (Hleast y Hy Hypos) as Hle.
  unfold y in Hle. rewrite hamming_distance_mod in Hle by lia.
  now rewrite hamming_distance_coset in Hle.
Qed.

(** The two ways in which [decode_word] of [cyclic_codes.h] returns: a
    correction by a shifted syndrome within the bound, or a nearest word of
    the code book. *)
Lemma weight_decode_cases generator parity_check n w (fuel : nat) :
  0 < n < 32 -> size parity_check <= n -> (Z.to_nat n <= fuel)%nat ->
  let c := WeightBound.new generator parity_check n in
  exists decoded_word events,
    WeightBound.decode_word c fuel w = Ok (decoded_word, events)
    /\ ((events = (if is_code_word parity_check n decoded_word
                   then [] else [diagnostics])
         /\ 0 <= Z.lxor w decoded_word < 2 ^ n
         /\ hamming_distance n w decoded_word <= WeightBound.bound c)
        \/ (events = []
            /\ In decoded_word (WeightBound.code_words c)
            /\ forall w', In w' (WeightBound.code_words c) ->
                          hamming_distance n w decoded_word
                          <= hamming_distance n w w')).
Proof.
  intros Hn Hr Hfuel c.
  pose proof (size_nonneg parity_check) as Hr0.
  pose proof (weight_decode_word_value generator parity_check n w fuel
                ltac:(lia) Hfuel) as Hv.
  cbv zeta in Hv. fold c in Hv. rewrite Hv. clear Hv.
  set (syndromes := map (syndrome_of_word parity_check n)
                        (get_cyclic_shifts w n)).
  destruct (find_from _ syndromes 0) as [i|] eqn:Ef.
  - destruct (find_from_Some _ _ _ _ Ef)
      as (pre & x & post & E & Hx & Hpre & ->).
    rewrite Z.add_0_l. apply Z.leb_le in Hx.
    assert (Hat : at_ syndromes (size pre) = Ok x)
      by (rewrite E; apply at_app_middle).
    apply at_Ok_range in Hat as Hir.
    assert (Hsz : size syndromes = n).
    { apply (size_weight_syndromes c w). cbn. lia. }
    rewrite (at_nth syndromes (size pre) 0) in Hat by lia.
    injection Hat as Hnth. rewrite Hnth.
    assert (Hxr : 0 <= x < 2 ^ size parity_check).
    { assert (Hxin : In x syndromes)
        by (rewrite E; apply in_or_app; right; now left).
      unfold syndromes in Hxin. apply in_map_iff in Hxin.
      destruct Hxin as (y & <- & _). apply syndrome_of_word_range; lia. }
    set (a := (n - size pre) mod n).
    assert (Ha : 0 <= a < n) by (apply Z.mod_pos_bound; lia).
    set (sh := rotate_left n a (shl x (n - size parity_check))).
    exists (Z.lxor w sh). eexists. split; [reflexivity|]. left.
    split; [reflexivity|]. rewrite lxor_cancel. split.
    + apply rotate_left_range; lia.
    + rewrite <- hamming_distance_coset, lxor_cancel.
      unfold sh. rewrite weight_rotate_left by lia.
      rewrite weight_shl by lia. exact Hx.
  - assert (Hne : WeightBound.code_words c <> []).
    { intros E. assert (H0 : In 0 (WeightBound.code_words c)).
      { apply in_enumerate; [lia|]. split; [|apply is_code_word_0].
        pose proof (Z.pow_pos_nonneg 2 n). lia. }
      rewrite E in H0. contradiction. }
    destruct (nearest_neighbor_search_first (WeightBound.code_words c) n w
                ltac:(lia) Hne) as (i & d & Hd & Hi & Hmin & _).
    rewrite Hd. cbn [bind]. exists d, []. split; [reflexivity|]. right.
    split; [reflexivity|]. split; [now apply nth_error_In in Hi|].
    intros w' Hw'. apply In_nth_error in Hw'. destruct Hw' as [j Hj].
    now apply (Hmin j).
Qed.

Lemma twice_bound generator parity_check n :
  0 <= n <= 32 ->
  let c := WeightBound.new generator parity_check n in
  2 * WeightBound.bound c < WeightBound.min_distance c.
Proof.
  intros Hn c. pose proof (bound_new generator parity_check n Hn) as Hb.
  cbv zeta in Hb. fold c in Hb. destruct Hb as [Hmin Hb]. rewrite Hb.
  pose proof (Z.mul_div_le (WeightBound.min_distance c - 1) 2). lia.
Qed.

(** X16. Whenever [decode_word] of [cyclic_codes.h] prints no diagnostic,
    the word it returns is a code word nearest to the received word: no
    word that [is_code_word] accepts is closer in Hamming distance.  This
    holds on both paths, the syndrome within the bound [(d_min - 1) / 2]
    and the nearest-neighbour fallback (code length below 32, at most [n]
    parity rows). The diagnostic is printed exactly when the returned word
    is not a code word. *)
Theorem weight_decoder_nearest :
  forall generator parity_check n received_word (fuel : nat),
    0 < n < 32 -> size parity_check <= n -> (Z.to_nat n <= fuel)%nat ->
    exists decoded_word events,
      WeightBound.decode_word (WeightBound.new generator parity_check n)
        fuel received_word
      = Ok (decoded_word, events)
      /\ (events = [] \/ events = [diagnostics])
      /\ (events = [] <-> is_code_word parity_check n decoded_word = true)
      /\ (events = [] ->
          forall w', is_code_word parity_check n w' = true ->
                     hamming_distance n received_word decoded_word
                     <= hamming_distance n received_word w').
Proof.
  intros G H n w fuel Hn Hr Hfuel.
  destruct (weight_decode_cases G H n w fuel Hn Hr Hfuel)
    as (d & ev & Hdec & Hcases).
  set (c := WeightBound.new G H n) in *.
  exists d, ev. split; [exact Hdec|].
  destruct Hcases as [(Hev & _ & Hdist)|(Hev & Hd & Hmin)].
  - destruct (is_code_word H n d) eqn:Hd; subst ev.
    + split; [now left|]. split; [tauto|]. intros _ w' Hw'.
      destruct (Z.eq_dec (d mod 2 ^ n) (w' mod 2 ^ n)) as [Eq|Hne].
      * apply Z.eq_le_incl. apply hamming_distance_ext; [lia|].
        now apply low_bits_mod; [lia|].
      * pose proof (code_words_apart G H n d w' ltac:(lia) Hd Hw' Hne) as Hap.
        pose proof (hamming_distance_triangle n d w w' ltac:(lia)) as Htri.
        rewrite (hamming_distance_sym n d w) in Htri.
        pose proof (twice_bound G H n ltac:(lia)) as Hb. cbv zeta in Hb.
        fold c in Hap, Hb. lia.
    + split; [now right|]. split; [split; discriminate | discriminate].
  - subst ev. apply in_enumerate in Hd as Hd'; [|lia].
    split; [now left|]. split; [tauto|]. intros _ w' Hw'.
    rewrite <- (hamming_distance_mod n w w') by lia.
    apply Hmin. apply in_enumerate; [lia|].
    split; [apply mod_pow2_range; lia|].
    rewrite is_code_word_mod by lia. exact Hw'.
Qed.

Lemma weight_decoder_nearest_witness :
  exists decoded_word events,
    WeightBound.decode_word (WeightBound.new [7] [3; 5] 3) 3 7
    = Ok (decoded_word, events)
    /\ (events = [] \/ events = [diagnostics])
    /\ (events = [] <-> is_code_word [3; 5] 3 decoded_word = true)
    /\ (events = [] ->
        forall w', is_code_word [3; 5] 3 w' = true ->
                   hamming_distance 3 7 decoded_word <= hamming_distance 3 7 w').
Proof. apply (weight_decoder_nearest [7] [3; 5] 3 7 3%nat); cbn; lia. Defined.

(** X17. [decode_word] of [cyclic_codes.h] corrects up to
    [(d_min - 1) / 2] errors whenever it prints no diagnostic: if the
    received word differs from a code word [c] of [n] bits in at most that
    many places and no diagnostic is printed, the word returned is [c]. *)
Theorem weight_decoder_corrects :
  forall generator parity_check n code_word e (fuel : nat),
    0 < n < 32 -> size parity_check <= n -> (Z.to_nat n <= fuel)%nat ->
    let c := WeightBound.new generator parity_check n in
    is_code_word parity_check n code_word = true ->
    0 <= code_word < 2 ^ n -> 0 <= e < 2 ^ n ->
    hamming_distance n 0 e <= WeightBound.bound c ->
    exists decoded_word events,
      WeightBound.decode_word c fuel (Z.lxor code_word e)
      = Ok (decoded_word, events)
      /\ (events = [] -> decoded_word = code_word).
Proof.
  intros G H n cw e fuel Hn Hr Hfuel c Hcw Hcwr Her He.
  destruct (weight_decode_cases G H n (Z.lxor cw e) fuel Hn Hr Hfuel)
    as (d & ev & Hdec & Hcases).
  fold c in Hdec, Hcases.
  exists d, ev. split; [exact Hdec|]. intros ->.
  set (w := Z.lxor cw e) in *.
  assert (Hwr : 0 <= w < 2 ^ n) by (apply lxor_lt_pow2; lia).
  assert (Hwc : hamming_distance n w cw = hamming_distance n 0 e).
  { rewrite hamming_distance_sym, <- hamming_distance_coset.
    unfold w. now rewrite lxor_cancel. }
  pose proof (twice_bound G H n ltac:(lia)) as Hb. cbv zeta in Hb. fold c in Hb.
  assert (Hclose : forall d,
             is_code_word H n d = true -> 0 <= d < 2 ^ n ->
             hamming_distance n w d <= WeightBound.bound c -> d = cw).
  { intros d' Hd' Hdr Hdist.
    destruct (Z.eq_dec (d' mod 2 ^ n) (cw mod 2 ^ n)) as [Eq|Hne].
    - now rewrite !Z.mod_small in Eq by lia.
    - exfalso.
      pose proof (code_words_apart G H n d' cw ltac:(lia) Hd' Hcw Hne) as Hap.
      pose proof (hamming_distance_triangle n d' w cw ltac:(lia)) as Htri.
      rewrite (hamming_distance_sym n d' w) in Htri. fold c in Hap. lia. }
  destruct Hcases as [(Hev & Hxr & Hdist)|(_ & Hd & Hmin)].
  - destruct (is_code_word H n d) eqn:Hd; [|discriminate].
    apply Hclose; [exact Hd| |exact Hdist].
    replace d with (Z.lxor w (Z.lxor w d)) by apply lxor_cancel.
    apply lxor_lt_pow2; lia.
  - apply in_enumerate in Hd as Hd'; [|lia].
    apply Hclose; [tauto | tauto |].
    assert (Hcin : In cw (WeightBound.code_words c))
      by (apply in_enumerate; [lia | tauto]).
    specialize (Hmin cw Hcin). lia.
Qed.

Lemma weight_decoder_corrects_witness :
  WeightBound.decode_word (WeightBound.new [104; 52; 26; 13] [75; 46; 23] 7)
    7 (Z.lxor 104 1)
  = Ok (104, []).
Proof.
  destruct (weight_decoder_corrects [104; 52; 26; 13] [75; 46; 23] 7 104 1
              7%nat)
    as (d & ev & Hdec & Hc);
    [lia | cbn; lia | lia | reflexivity | lia | lia
     | vm_compute; discriminate |].
  rewrite Hdec.
  assert (Hev : ev = []) by (vm_compute in Hdec; congruence).
  now rewrite (Hc Hev), Hev.
Defined.

(** ** Further properties: printing *)

Lemma rev_upto_succ n : 0 <= n -> rev (upto (n + 1)) = n :: rev (upto n).
Proof. intros Hn. now rewrite upto_snoc, rev_app_distr by exact Hn. Qed.

Lemma at_upto n i : 0 <= i < n -> at_ (upto n) i = Ok i.
Proof. intros Hi. unfold upto. rewrite at_range by lia. f_equal. Qed.

(** The counting-down loop ends by wrap-around after [k] turns. *)
Lemma print_bits_loop word n (k fuel : nat) (out : list token) :
  Z.of_nat k <= n -> n < 2 ^ 32 -> (k <= fuel)%nat ->
  while_loop (fun st : Z * list token => fst st <? UINT_MAX)
    (fun st =>
       this_bit <- at_ (map (fun j => bit word j) (upto n)) (fst st) ;;
       Ok (wrap (fst st - 1), snd st ++ [number this_bit]))
    fuel (wrap (Z.of_nat k - 1), out)
  = Ok ((UINT_MAX, out ++ map number (digits (Z.of_nat k) word)), k).
Proof.
  revert fuel out. induction k as [|k IH]; intros fuel out Hk Hn Hfuel.
  - destruct fuel; cbn; now rewrite app_nil_r.
  - destruct fuel as [|fuel]; [lia|].
    rewrite Nat2Z.inj_succ, <- Z.add_1_r.
    replace (Z.of_nat k + 1 - 1) with (Z.of_nat k) by lia.
    rewrite wrap_small by lia.
    cbn [while_loop fst snd].
    replace (Z.of_nat k <? UINT_MAX) with true
      by (symmetry; apply Z.ltb_lt; unfold UINT_MAX; lia).
    rewrite at_map, at_upto by lia. cbn [bind].
    rewrite IH by lia. cbn [bind fst snd].
    unfold digits. rewrite rev_upto_succ by lia. cbn [map].
    rewrite bit_b2z by lia.
    now rewrite <- app_assoc.
Qed.

Lemma print_bits_value (fuel : nat) n word :
  0 <= n < 2 ^ 32 -> (Z.to_nat n <= fuel)%nat ->
  print_bits fuel n word = Ok (map number (digits n word)).
Proof.
  intros Hn Hfuel. unfold print_bits. cbv zeta.
  pose proof (print_bits_loop word n (Z.to_nat n) fuel []
                ltac:(lia) ltac:(lia) Hfuel) as E.
  rewrite Z2Nat.id in E by lia. rewrite E. reflexivity.
Qed.

Lemma testbit_mod_succ w k q :
  0 <= k -> 0 <= q ->
  Z.testbit (w mod 2 ^ k + 2 ^ k * Z.b2z (Z.testbit w k)) q
  = Z.testbit (w mod 2 ^ (k + 1)) q.
Proof.
  intros Hk Hq. rewrite (Z.testbit_mod_pow2 w (k + 1)) by lia.
  destruct (Z.testbit w k) eqn:Hb; cbn [Z.b2z].
  - rewrite Z.mul_1_r, add_pow2_bits;
      [|lia|rewrite Z.testbit_mod_pow2 by lia; now rewrite Z.ltb_irrefl].
    rewrite Z.testbit_mod_pow2 by lia.
    destruct (Z.eqb_spec k q) as [<-|Hne].
    + rewrite Hb, Z.ltb_irrefl.
      replace (k <? k + 1) with true by (symmetry; apply Z.ltb_lt; lia).
      reflexivity.
    + rewrite orb_false_r.
      destruct (Z.ltb_spec q k), (Z.ltb_spec q (k + 1)); try lia; reflexivity.
  - rewrite Z.mul_0_r, Z.add_0_r, Z.testbit_mod_pow2 by lia.
    destruct (Z.ltb_spec q k), (Z.ltb_spec q (k + 1)); try lia; try reflexivity.
    assert (q = k) by lia. subst q. now rewrite Hb.
Qed.

Lemma binary_value_digits w (k : nat) acc :
  fold_left (fun acc d => 2 * acc + d) (digits (Z.of_nat k) w) acc
  = acc * 2 ^ Z.of_nat k + w mod 2 ^ Z.of_nat k.
Proof.
  revert acc. induction k as [|k IH]; intros acc.
  - cbn. rewrite Z.mod_1_r. lia.
  - rewrite Nat2Z.inj_succ, <- Z.add_1_r. unfold digits.
    rewrite rev_upto_succ by lia. cbn [map fold_left].
    fold (digits (Z.of_nat k) w). rewrite IH.
    assert (E : w mod 2 ^ (Z.of_nat k + 1)
                = w mod 2 ^ Z.of_nat k
                  + 2 ^ Z.of_nat k * Z.b2z (Z.testbit w (Z.of_nat k))).
    { symmetry. apply Z.bits_inj'. intros q Hq.
      apply testbit_mod_succ; lia. }
    rewrite E, Z.pow_add_r by lia. lia.
Qed.

Lemma size_digits n w : 0 <= n -> size (digits n w) = n.
Proof.
  intros Hn. unfold digits, size.
  rewrite length_map, length_rev. unfold upto. rewrite range_length. lia.
Qed.

(** X18. [print_word_bitwise] never throws: its counter runs down from
    [code_length - 1] and the loop ends when the counter has wrapped around
    to [UINT_MAX], after exactly [code_length] digits (none for code length
    0).  The digits are the low [code_length] bits of the word, the highest
    first, followed by one end of line; read as a binary numeral they give
    the word modulo [2^code_length]. *)
Theorem print_word_bitwise_digits :
  forall (fuel : nat) code_length word,
    0 <= code_length <= 32 -> (Z.to_nat code_length <= fuel)%nat ->
    exists ds,
      print_word_bitwise fuel code_length word = Ok (map number ds ++ [endl])
      /\ size ds = code_length
      /\ (forall i, 0 <= i < code_length ->
                    nth (Z.to_nat i) ds 0
                    = Z.b2z (Z.testbit word (code_length - 1 - i)))
      /\ binary_value ds = word mod 2 ^ code_length.
Proof.
  intros fuel n w Hn Hfuel. exists (digits n w).
  split; [|split; [|split]].
  - unfold print_word_bitwise. rewrite print_bits_value by lia. reflexivity.
  - apply size_digits. lia.
  - intros i Hi. unfold digits, upto. rewrite rev_range, map_map.
    rewrite (nth_map_upto (fun x => Z.b2z (Z.testbit w (0 + n - 1 - x))))
      by lia.
    reflexivity.
  - unfold binary_value. rewrite <- (Z2Nat.id n) by lia.
    rewrite binary_value_digits. lia.
Qed.

Lemma print_word_bitwise_digits_witness :
  exists ds,
    print_word_bitwise 4 4 22 = Ok (map number ds ++ [endl])
    /\ size ds = 4
    /\ (forall i, 0 <= i < 4 ->
                  nth (Z.to_nat i) ds 0 = Z.b2z (Z.testbit 22 (4 - 1 - i)))
    /\ binary_value ds = 22 mod 2 ^ 4.
Proof. apply (print_word_bitwise_digits 4 4 22); lia. Defined.

Lemma print_matrix_loop (fuel : nat) n (rows pre : list Z) out :
  0 <= n < 2 ^ 32 -> (Z.to_nat n <= fuel)%nat ->
  for_each (range (size pre) (size pre + size rows))
    (fun i out =>
       this_code_word <- at_ (pre ++ rows) i ;;
       line <- print_bits fuel n this_code_word ;;
       Ok (out ++ line ++ [endl]))
    out
  = Ok (out ++ flat_map (fun row => map number (digits n row) ++ [endl]) rows).
Proof.
  intros Hn Hfuel. revert pre out.
  induction rows as [|row rows IH]; intros pre out.
  - rewrite range_nil by (change (size (@nil Z)) with 0; lia).
    cbn. now rewrite app_nil_r.
  - rewrite range_cons by (rewrite size_cons; pose proof (size_nonneg rows); lia).
    cbn [for_each]. rewrite at_app_middle. cbn [bind].
    rewrite print_bits_value by lia. cbn [bind].
    replace (size pre + 1) with (size (pre ++ [row]))
      by (unfold size; rewrite length_app; cbn; lia).
    replace (size pre + size (row :: rows))
      with (size (pre ++ [row]) + size rows)
      by (unfold size; rewrite length_app; cbn; lia).
    replace (pre ++ row :: rows) with ((pre ++ [row]) ++ rows)
      by now rewrite <- app_assoc.
    rewrite IH. cbn [flat_map]. now rewrite !app_assoc.
Qed.

Lemma print_matrix_value (fuel : nat) matrix n :
  0 <= n < 2 ^ 32 -> (Z.to_nat n <= fuel)%nat ->
  print_matrix fuel matrix n
  = Ok (flat_map (fun row => map number (digits n row) ++ [endl]) matrix
        ++ [endl]).
Proof.
  intros Hn Hfuel.
  pose proof (print_matrix_loop fuel n matrix [] [] Hn Hfuel) as E.
  change (size (@nil Z)) with 0 in E. rewrite Z.add_0_l in E.
  cbn [app] in E. unfold print_matrix, upto. rewrite E. reflexivity.
Qed.

Lemma map_result_print_word (fuel : nat) n (l : list Z) :
  0 <= n < 2 ^ 32 -> (Z.to_nat n <= fuel)%nat ->
  map_result (print_word_bitwise fuel n) l
  = Ok (map (fun row => map number (digits n row) ++ [endl]) l).
Proof.
  intros Hn Hfuel. apply map_result_map. intros x _.
  unfold print_word_bitwise. now rewrite print_bits_value by lia.
Qed.

Lemma size_lines n (matrix : list Z) :
  0 <= n ->
  size (concat (map (fun row => map number (digits n row) ++ [endl]) matrix)
        ++ [endl])
  = size matrix * (n + 1) + 1.
Proof.
  intros Hn. unfold size. rewrite length_app, Nat2Z.inj_add. cbn [length].
  induction matrix as [|row matrix IH]; [reflexivity|].
  cbn [map concat length]. rewrite !length_app, !length_map.
  pose proof (size_digits n row Hn) as Hd. unfold size in Hd.
  cbn [length]. lia.
Qed.

(** X19. [print_matrix] never throws and prints every row of the matrix as
    [print_word_bitwise] prints a word (the low [code_length] bits, the
    highest first, and an end of line), in the order of the rows, followed
    by one empty line: [r * (code_length + 1) + 1] tokens for [r] rows.
    [print_generator] and [print_parity_check] print their heading and an
    end of line before it. *)
Theorem print_matrix_lines :
  forall (fuel : nat) matrix code_length,
    0 <= code_length <= 32 -> (Z.to_nat code_length <= fuel)%nat ->
    exists lines,
      map_result (print_word_bitwise fuel code_length) matrix = Ok lines
      /\ print_matrix fuel matrix code_length = Ok (concat lines ++ [endl])
      /\ size (concat lines ++ [endl]) = size matrix * (code_length + 1) + 1
      /\ print_generator fuel matrix code_length
         = Ok ([the_generator_matrix; endl] ++ concat lines ++ [endl])
      /\ print_parity_check fuel matrix code_length
         = Ok ([the_parity_check_matrix; endl] ++ concat lines ++ [endl]).
Proof.
  intros fuel matrix n Hn Hfuel.
  exists (map (fun row => map number (digits n row) ++ [endl]) matrix).
  assert (E : print_matrix fuel matrix n
              = Ok (concat (map (fun row => map number (digits n row) ++ [endl])
                                matrix) ++ [endl]))
    by (rewrite print_matrix_value by lia; now rewrite flat_map_concat_map).
  split; [apply map_result_print_word; lia|].
  split; [exact E|]. split.
  - apply size_lines. lia.
  - unfold print_generator, print_parity_check. rewrite E. now split.
Qed.

Lemma print_matrix_lines_witness :
  exists lines,
    map_result (print_word_bitwise 3 3) [3; 5] = Ok lines
    /\ print_matrix 3 [3; 5] 3 = Ok (concat lines ++ [endl])
    /\ size (concat lines ++ [endl]) = size [3; 5] * (3 + 1) + 1
    /\ print_generator 3 [3; 5] 3
       = Ok ([the_generator_matrix; endl] ++ concat lines ++ [endl])
    /\ print_parity_check 3 [3; 5] 3
       = Ok ([the_parity_check_matrix; endl] ++ concat lines ++ [endl]).
Proof. apply (print_matrix_lines 3 [3; 5] 3); lia. Defined.

Lemma print_words_loop (fuel : nat) n (words pre : list Z) out :
  0 <= n < 2 ^ 32 -> (Z.to_nat n <= fuel)%nat ->
  for_each (range (size pre) (size pre + size words))
    (fun i out =>
       word <- at_ (pre ++ words) i ;;
       word' <- at_ (pre ++ words) i ;;
       line <- print_word_bitwise fuel n word' ;;
       Ok (out ++ [number word; space] ++ line))
    out
  = Ok (out ++ flat_map (fun word =>
                           [number word; space]
                           ++ map number (digits n word) ++ [endl])
                        words).
Proof.
  intros Hn Hfuel. revert pre out.
  induction words as [|word words IH]; intros pre out.
  - rewrite range_nil by (change (size (@nil Z)) with 0; lia).
    cbn. now rewrite app_nil_r.
  - rewrite range_cons by (rewrite size_cons; pose proof (size_nonneg words); lia).
    cbn [for_each]. rewrite at_app_middle. cbn [bind].
    unfold print_word_bitwise at 1. rewrite print_bits_value by lia.
    cbn [bind].
    replace (size pre + 1) with (size (pre ++ [word]))
      by (unfold size; rewrite length_app; cbn; lia).
    replace (size pre + size (word :: words))
      with (size (pre ++ [word]) + size words)
      by (unfold size; rewrite length_app; cbn; lia).
    replace (pre ++ word :: words) with ((pre ++ [word]) ++ words)
      by now rewrite <- app_assoc.
    rewrite IH. cbn [flat_map]. now rewrite <- !app_assoc.
Qed.

(** X20. [print_words] never throws: it prints its heading, then one line
    for every entry of the code book, in the order of the code book, with the
    word in decimal, a space and the word as [print_word_bitwise] prints
    it, then an empty line and the number of entries. *)
Theorem print_words_lines :
  forall (fuel : nat) code_words code_length,
    0 <= code_length <= 32 -> (Z.to_nat code_length <= fuel)%nat ->
    exists lines,
      map_result (print_word_bitwise fuel code_length) code_words = Ok lines
      /\ size lines = size code_words
      /\ print_words fuel code_words code_length
         = Ok ([the_code_words_are; endl]
               ++ concat (map (fun entry =>
                                 [number (fst entry); space] ++ snd entry)
                              (combine code_words lines))
               ++ [endl; num_code_words; number (size code_words); endl]).
Proof.
  intros fuel code_words n Hn Hfuel.
  exists (map (fun row => map number (digits n row) ++ [endl]) code_words).
  split; [apply map_result_print_word; lia|].
  split; [apply size_map|].
  pose proof (print_words_loop fuel n code_words [] [the_code_words_are; endl]
                ltac:(lia) Hfuel) as E.
  change (size (@nil Z)) with 0 in E. rewrite Z.add_0_l in E.
  change ([] ++ code_words) with code_words in E.
  unfold print_words, upto. rewrite E. cbn [bind].
  rewrite <- app_assoc. do 3 f_equal.
  rewrite flat_map_concat_map, combine_map_r, map_map. reflexivity.
Qed.

Lemma print_words_lines_witness :
  exists lines,
    map_result (print_word_bitwise 3 3) [0; 7] = Ok lines
    /\ size lines = size [0; 7]
    /\ print_words 3 [0; 7] 3
       = Ok ([the_code_words_are; endl]
             ++ concat (map (fun entry =>
                               [number (fst entry); space] ++ snd entry)
                            (combine [0; 7] lines))
             ++ [endl; num_code_words; number (size [0; 7]); endl]).
Proof. apply (print_words_lines 3 [0; 7] 3); lia. Defined.

(** ** Further properties: the report and the fixed points of the decoders *)

Lemma is_code_word_lxor_code_word parity_check n c x :
  is_code_word parity_check n c = true ->
  is_code_word parity_check n (Z.lxor c x) = is_code_word parity_check n x.
Proof.
  intros Hc.
  destruct (is_code_word parity_check n x) eqn:Hx.
  - now apply is_code_word_lxor.
  - destruct (is_code_word parity_check n (Z.lxor c x)) eqn:Hcx; [|reflexivity].
    pose proof (is_code_word_lxor parity_check n c (Z.lxor c x) Hc Hcx) as H.
    rewrite lxor_cancel in H. congruence.
Qed.

Lemma burst_events_code_word (c : Burst.CyclicCode) d :
  burst_events c d = [decoded_successfully]
  <-> is_code_word (Burst.parity_check c) (Burst.code_length c) d = true.
Proof.
  unfold burst_events.
  destruct (is_code_word (Burst.parity_check c) (Burst.code_length c) d);
    cbn; split; congruence.
Qed.

(** X21. [decode_word] of [cyclic_codes_2.h] ends in one of three ways:
    it prints "no syndrome found" and a failure and returns the received
    word unchanged; or it prints success, and the word it returns passes
    [is_code_word]; or it prints the diagnostic dump and a failure, and the
    word it returns does not pass. It never reports success for a word
    that is not a code word, and never prints "used NN decoding". *)
Theorem burst_decoder_report :
  forall generator parity_check n received_word (fuel : nat),
    0 < n <= 32 -> size parity_check <= n ->
    (Z.to_nat n <= fuel)%nat -> (4 <= fuel)%nat ->
    exists decoded_word events,
      Burst.decode_word (Burst.new generator parity_check n) fuel received_word
      = Ok (decoded_word, events)
      /\ ((events = [no_syndrome_found; failed_to_decode]
           /\ decoded_word = received_word)
          \/ (events = [decoded_successfully]
              /\ is_code_word parity_check n decoded_word = true)
          \/ (events = [diagnostics; failed_to_decode]
              /\ is_code_word parity_check n decoded_word = false)).
Proof.
  intros G H n w fuel Hn Hr Hfuel H4.
  set (c := Burst.new G H n).
  rewrite (burst_decode_word_value c 3 fuel w);
    try (cbn; unfold UINT_MAX; lia); try reflexivity.
  destruct (burst_search (burst_lengths_of c w) 3) as [i|].
  - cbv zeta. eexists. eexists. split; [reflexivity|]. right.
    unfold burst_events. change (Burst.parity_check c) with H.
    change (Burst.code_length c) with n.
    destruct (is_code_word H n _); [left | right]; now split.
  - exists w, [no_syndrome_found; failed_to_decode].
    split; [reflexivity|]. left. now split.
Qed.

Lemma burst_decoder_report_witness :
  exists decoded_word events,
    Burst.decode_word (Burst.new [7] [3; 5] 3) 4 3 = Ok (decoded_word, events)
    /\ ((events = [no_syndrome_found; failed_to_decode] /\ decoded_word = 3)
        \/ (events = [decoded_successfully]
            /\ is_code_word [3; 5] 3 decoded_word = true)
        \/ (events = [diagnostics; failed_to_decode]
            /\ is_code_word [3; 5] 3 decoded_word = false)).
Proof. apply (burst_decoder_report [7] [3; 5] 3 3 4%nat); cbn; lia. Defined.

Lemma weight_decode_no_diagnostic generator parity_check n w (fuel : nat) d :
  0 < n < 32 -> size parity_check <= n -> (Z.to_nat n <= fuel)%nat ->
  WeightBound.decode_word (WeightBound.new generator parity_check n) fuel w
  = Ok (d, []) ->
  is_code_word parity_check n d = true.
Proof.
  intros Hn Hr Hfuel Hd.
  destruct (weight_decode_cases generator parity_check n w fuel Hn Hr Hfuel)
    as (d' & ev & Hdec & Hcases).
  rewrite Hd in Hdec. injection Hdec as <- <-.
  destruct Hcases as [(Hev & _)|(_ & Hin & _)].
  - destruct (is_code_word parity_check n d); [reflexivity | discriminate].
  - apply in_enumerate in Hin; [tauto | lia].
Qed.

(** X22. Both decoders leave their successful results alone: a word that
    [decode_word] of [cyclic_codes.h] returns without a diagnostic is
    returned unchanged, again without a diagnostic, when it is decoded once
    more; and for a cyclic code the same holds for [decode_word] of
    [cyclic_codes_2.h] and its success report. *)
Theorem decode_word_idempotent :
  forall generator parity_check n received_word decoded_word (fuel : nat),
    0 < n < 32 -> size parity_check <= n ->
    (Z.to_nat n <= fuel)%nat -> (4 <= fuel)%nat ->
    let c := WeightBound.new generator parity_check n in
    let c2 := Burst.new generator parity_check n in
    (WeightBound.decode_word c fuel received_word = Ok (decoded_word, []) ->
     WeightBound.decode_word c fuel decoded_word = Ok (decoded_word, []))
    /\ (cyclic_code parity_check n ->
        Burst.decode_word c2 fuel received_word
        = Ok (decoded_word, [decoded_successfully]) ->
        Burst.decode_word c2 fuel decoded_word
        = Ok (decoded_word, [decoded_successfully])).
Proof.
  intros G H n w d fuel Hn Hr Hfuel H4 c c2. split.
  - intros Hd. apply weight_decode_no_diagnostic in Hd; [|lia|lia|exact Hfuel].
    apply weight_decode_code_word; [lia | lia | lia | exact Hd].
  - intros Hcyc Hd.
    rewrite (burst_decode_word_value c2 3 fuel w) in Hd;
      try (cbn; unfold UINT_MAX; lia); try reflexivity.
    apply burst_decode_code_word; try assumption; try lia.
    destruct (burst_search (burst_lengths_of c2 w) 3) as [i|];
      [|discriminate].
    cbv zeta in Hd. injection Hd as Hd Hev. subst d.
    now apply burst_events_code_word in Hev.
Qed.

Lemma decode_word_idempotent_witness :
  WeightBound.decode_word (WeightBound.new [4; 2] [1] 3) 4 6 = Ok (6, [])
  /\ Burst.decode_word (Burst.new [7] [3; 5] 3) 4 0
     = Ok (0, [decoded_successfully]).
Proof.
  destruct (decode_word_idempotent [4; 2] [1] 3 7 6 4%nat
              ltac:(lia) ltac:(cbn; lia) ltac:(lia) ltac:(lia)) as [H1 _].
  destruct (decode_word_idempotent [7] [3; 5] 3 3 0 4%nat
              ltac:(lia) ltac:(cbn; lia) ltac:(lia) ltac:(lia)) as [_ H2].
  split; [apply H1; reflexivity|]. apply H2; [|reflexivity].
  apply closed_under_rotation_cyclic; [lia | reflexivity].
Defined.

(** ** Further properties: decoding commutes with adding a code word *)

Lemma rotate_left_lxor m a x y :
  0 < m -> 0 <= a <= m ->
  rotate_left m a (Z.lxor x y)
  = Z.lxor (rotate_left m a x) (rotate_left m a y).
Proof.
  intros Hm Ha. apply Z.bits_inj'. intros q Hq.
  rewrite Z.lxor_spec, !rotate_left_bits, Z.lxor_spec by lia.
  now destruct (q <? m), (Z.testbit x _), (Z.testbit y _).
Qed.

(** In a cyclic code the syndromes of the shifts do not change when a code
    word is added to the received word. *)
Lemma shift_syndromes_translation parity_check n cw e :
  0 < n <= 32 -> size parity_check < 2 ^ 32 ->
  cyclic_code parity_check n ->
  is_code_word parity_check n cw = true ->
  map (syndrome_of_word parity_check n) (get_cyclic_shifts (Z.lxor cw e) n)
  = map (syndrome_of_word parity_check n) (get_cyclic_shifts e n).
Proof.
  intros Hn Hr Hcyc Hcw. rewrite !get_cyclic_shifts_rotations by exact Hn.
  cbn [map]. f_equal.
  - rewrite syndrome_of_word_lxor, syndrome_of_code_word by (lia || assumption).
    apply Z.lxor_0_l.
  - rewrite !map_map. apply map_ext_in. intros i Hi. apply in_range in Hi.
    rewrite rotate_left_lxor, syndrome_of_word_lxor by lia.
    rewrite syndrome_of_code_word; [apply Z.lxor_0_l | lia | lia |].
    rewrite <- (Z2Nat.id i) by lia.
    apply rotations_are_code_words; try assumption; lia.
Qed.

Lemma burst_syndromes_translation generator parity_check n cw e :
  0 < n <= 32 -> size parity_check < 2 ^ 32 ->
  cyclic_code parity_check n ->
  is_code_word parity_check n cw = true ->
  burst_syndromes (Burst.new generator parity_check n) (Z.lxor cw e)
  = burst_syndromes (Burst.new generator parity_check n) e.
Proof.
  intros Hn Hr Hcyc Hcw.
  pose proof (shift_syndromes_translation parity_check n cw e Hn Hr Hcyc Hcw)
    as E.
  unfold burst_syndromes. cbn [Burst.parity_check Burst.code_length Burst.new].
  destruct (get_cyclic_shifts_shape (Z.lxor cw e) n) as (l1 & E1 & _).
  destruct (get_cyclic_shifts_shape e n) as (l2 & E2 & _).
  rewrite E1, E2 in *. cbn [map tl] in *. injection E as E0 E.
  rewrite E0, !map_rev, E. reflexivity.
Qed.

(** X23. For a cyclic code, [decode_word] of [cyclic_codes_2.h] commutes
    with the addition of a code word: [get_syndromes] returns the same list
    for [e] and for [c XOR e], and so the correction that is applied and the
    report that is printed depend on the error pattern only. If [e] is
    decoded as [d], then [c XOR e] is decoded as [c XOR d] with the same
    report, for every code word [c]. *)
Theorem burst_decoder_translation :
  forall generator parity_check n code_word e (fuel : nat),
    0 < n <= 32 -> size parity_check <= n ->
    (Z.to_nat n <= fuel)%nat -> (4 <= fuel)%nat ->
    cyclic_code parity_check n ->
    is_code_word parity_check n code_word = true ->
    let c := Burst.new generator parity_check n in
    exists syndromes decoded_word events,
      Burst.get_syndromes c e = Ok syndromes
      /\ Burst.get_syndromes c (Z.lxor code_word e) = Ok syndromes
      /\ Burst.decode_word c fuel e = Ok (decoded_word, events)
      /\ Burst.decode_word c fuel (Z.lxor code_word e)
         = Ok (Z.lxor code_word decoded_word, events).
Proof.
  intros G H n cw e fuel Hn Hr Hfuel H4 Hcyc Hcw c.
  pose proof (size_nonneg H) as Hr0.
  pose proof (burst_syndromes_translation G H n cw e Hn ltac:(lia) Hcyc Hcw)
    as Etr.
  fold c in Etr.
  exists (burst_syndromes c e).
  rewrite !(burst_decode_word_value c 3 fuel);
    try (cbn; unfold UINT_MAX; lia); try reflexivity.
  rewrite !(burst_syndromes_value c) by (cbn; lia).
  fold (burst_syndromes c e). fold (burst_syndromes c (Z.lxor cw e)).
  unfold burst_lengths_of. rewrite Etr. fold (burst_lengths_of c e).
  destruct (burst_search (burst_lengths_of c e) 3) as [i|].
  - cbv zeta. eexists. eexists.
    split; [reflexivity|]. split; [reflexivity|]. split; [reflexivity|].
    rewrite Z.lxor_assoc. do 2 f_equal.
    unfold burst_events. change (Burst.parity_check c) with H.
    change (Burst.code_length c) with n.
    now rewrite is_code_word_lxor_code_word by exact Hcw.
  - eexists. eexists. repeat split.
Qed.

Lemma burst_decoder_translation_witness :
  exists syndromes decoded_word events,
    Burst.get_syndromes (Burst.new [7] [3; 5] 3) 4 = Ok syndromes
    /\ Burst.get_syndromes (Burst.new [7] [3; 5] 3) (Z.lxor 7 4) = Ok syndromes
    /\ Burst.decode_word (Burst.new [7] [3; 5] 3) 4 4 = Ok (decoded_word, events)
    /\ Burst.decode_word (Burst.new [7] [3; 5] 3) 4 (Z.lxor 7 4)
       = Ok (Z.lxor 7 decoded_word, events).
Proof.
  apply (burst_decoder_translation [7] [3; 5] 3 7 4 4%nat);
    try lia; try reflexivity; [cbn; lia|].
  apply closed_under_rotation_cyclic; [lia | reflexivity].
Defined.

(** X24. For a cyclic code, the syndrome path of [decode_word] of
    [cyclic_codes.h] commutes with the addition of a code word as well: when
    some syndrome of [e] is within the bound, and [e] is decoded as [d],
    then [c XOR e] is decoded as [c XOR d], with or without the diagnostic
    as for [e], for every code word [c]. *)
Theorem weight_decoder_translation :
  forall generator parity_check n code_word e (fuel : nat),
    0 < n <= 32 -> size parity_check <= n -> (Z.to_nat n <= fuel)%nat ->
    cyclic_code parity_check n ->
    is_code_word parity_check n code_word = true ->
    let c := WeightBound.new generator parity_check n in
    exists syndromes,
      WeightBound.syndromes_of c e = Ok syndromes
      /\ WeightBound.syndromes_of c (Z.lxor code_word e) = Ok syndromes
      /\ ((exists s, In s syndromes
                     /\ hamming_distance n 0 s <= WeightBound.bound c) ->
          exists decoded_word events,
            WeightBound.decode_word c fuel e = Ok (decoded_word, events)
            /\ WeightBound.decode_word c fuel (Z.lxor code_word e)
               = Ok (Z.lxor code_word decoded_word, events)).
Proof.
  intros G H n cw e fuel Hn Hr Hfuel Hcyc Hcw c.
  pose proof (size_nonneg H) as Hr0.
  set (syndromes := map (syndrome_of_word H n) (get_cyclic_shifts e n)).
  assert (Etr : map (syndrome_of_word H n) (get_cyclic_shifts (Z.lxor cw e) n)
                = syndromes)
    by (apply shift_syndromes_translation; lia || assumption).
  exists syndromes.
  split; [apply (weight_syndromes_value c e); cbn; lia|].
  split.
  { rewrite (weight_syndromes_value c (Z.lxor cw e)) by (cbn; lia).
    f_equal. exact Etr. }
  intros (s & Hs & Hlight).
  pose proof (weight_decode_word_value G H n e fuel Hn Hfuel) as Ve.
  pose proof (weight_decode_word_value G H n (Z.lxor cw e) fuel Hn Hfuel) as Vc.
  cbv zeta in Ve, Vc. rewrite Etr in Vc. fold syndromes in Ve.
  fold c in Ve, Vc. rewrite Ve, Vc.
  destruct (find_from _ syndromes 0) as [i|] eqn:Ef.
  - eexists. eexists. split; [reflexivity|].
    rewrite Z.lxor_assoc.
    now rewrite is_code_word_lxor_code_word by exact Hcw.
  - exfalso. pose proof (find_from_None _ _ _ Ef s Hs) as Hn'.
    cbv beta in Hn'. apply Z.leb_gt in Hn'. lia.
Qed.

Lemma weight_decoder_translation_witness :
  let c := WeightBound.new [7] [3; 5] 3 in
  exists syndromes,
    WeightBound.syndromes_of c 4 = Ok syndromes
    /\ WeightBound.syndromes_of c (Z.lxor 7 4) = Ok syndromes
    /\ ((exists s, In s syndromes
                   /\ hamming_distance 3 0 s <= WeightBound.bound c) ->
        exists decoded_word events,
          WeightBound.decode_word c 3 4 = Ok (decoded_word, events)
          /\ WeightBound.decode_word c 3 (Z.lxor 7 4)
             = Ok (Z.lxor 7 decoded_word, events)).
Proof.
  apply (weight_decoder_translation [7] [3; 5] 3 7 4 3%nat);
    try lia; try reflexivity; [cbn; lia|].
  apply closed_under_rotation_cyclic; [lia | reflexivity].
Defined.

(** ** Further properties: the burst decoder changes at most three bits *)

Lemma rotate_right_left m a w :
  0 < m -> 0 <= a <= m -> rotate_right m a w = rotate_left m (m - a) w.
Proof.
  intros Hm Ha. apply Z.bits_inj'. intros q Hq.
  rewrite rotate_right_bits, rotate_left_bits by lia.
  do 2 f_equal. replace (q - (m - a)) with (q + a + -1 * m) by lia.
  now rewrite Z.mod_add by lia.
Qed.

Lemma weight_shorter n r x :
  0 <= r <= n -> n < 2 ^ 32 -> 0 <= x < 2 ^ r ->
  hamming_distance n 0 x = hamming_distance r 0 x.
Proof.
  intros Hr Hn Hx. rewrite !hamming_distance_size, !Z.lxor_0_l by lia.
  unfold bit_place_values, upto.
  rewrite (range_split 0 r n) by lia. rewrite filter_app.
  rewrite (filter_none _ (range r n)); [now rewrite app_nil_r|].
  intros p Hp. apply in_range in Hp. rewrite bit_eqb_1 by lia.
  apply (lt_pow2_bits r); lia.
Qed.

Lemma find_from_nth p l j i :
  find_from p l j = Some i -> p (nth (Z.to_nat (i - j)) l 0) = true.
Proof.
  intros H. destruct (find_from_Some _ _ _ _ H)
    as (pre & x & post & -> & Hx & _ & ->).
  replace (Z.to_nat (j + size pre - j)) with (length pre)
    by (unfold size; lia).
  now rewrite nth_middle.
Qed.

Lemma nth_map_default {A B} (f : A -> B) (l : list A) (i : nat) d d' :
  (i < length l)%nat -> nth i (map f l) d = f (nth i l d').
Proof.
  intros Hi. rewrite (nth_indep _ d (f d')) by now rewrite length_map.
  apply map_nth.
Qed.

Lemma burst_search_Some burst_lengths (k : nat) i :
  burst_search burst_lengths k = Some i ->
  0 <= i < size burst_lengths
  /\ 0 <= nth (Z.to_nat i) burst_lengths 0 <= Z.of_nat k.
Proof.
  induction k as [|k IH]; cbn [burst_search];
    destruct (find_from _ burst_lengths 0) as [i'|] eqn:Ef;
    try discriminate.
  - intros [= <-]. split; [apply find_from_range in Ef; lia|].
    apply find_from_nth in Ef. rewrite Z.sub_0_r in Ef.
    apply Z.eqb_eq in Ef. lia.
  - intros [= <-]. split; [apply find_from_range in Ef; lia|].
    apply find_from_nth in Ef. rewrite Z.sub_0_r in Ef.
    apply Z.eqb_eq in Ef. lia.
  - intros H. destruct (IH H) as [H1 H2]. split; [exact H1 | lia].
Qed.

(** X25. [decode_word] of [cyclic_codes_2.h] never changes more than
    [max_burst_length = 3] bits: the word it returns differs from the
    received word in at most three places, whatever it reports. *)
Theorem burst_decoder_changes_at_most_three_bits :
  forall generator parity_check n received_word (fuel : nat),
    0 < n <= 32 -> size parity_check <= n ->
    (Z.to_nat n <= fuel)%nat -> (4 <= fuel)%nat ->
    let c := Burst.new generator parity_check n in
    exists decoded_word events,
      Burst.decode_word c fuel received_word = Ok (decoded_word, events)
      /\ hamming_distance n received_word decoded_word
         <= Burst.max_burst_length c
      /\ Burst.max_burst_length c = 3.
Proof.
  intros G H n w fuel Hn Hr Hfuel H4 c.
  pose proof (size_nonneg H) as Hr0.
  rewrite (burst_decode_word_value c 3 fuel w);
    try (cbn; unfold UINT_MAX; lia); try reflexivity.
  change (Burst.max_burst_length c) with 3.
  destruct (burst_search (burst_lengths_of c w) 3) as [i|] eqn:Es.
  - cbv zeta. eexists. eexists. split; [reflexivity|].
    split; [|reflexivity].
    apply burst_search_Some in Es. destruct Es as [Hi Hb].
    unfold burst_lengths_of in Hi, Hb. rewrite size_map in Hi.
    assert (Hsz : size (burst_syndromes c w) = n)
      by (apply (size_burst_syndromes c w); cbn; lia).
    set (s := nth (Z.to_nat i) (burst_syndromes c w) 0) in *.
    assert (Hs : 0 <= s < 2 ^ size H).
    { assert (Hin : In s (burst_syndromes c w))
        by (apply nth_In; unfold size in Hi; lia).
      unfold burst_syndromes in Hin. apply in_map_iff in Hin.
      destruct Hin as (y & <- & _). apply syndrome_of_word_range; cbn; lia. }
    change (Burst.code_length c) with n.
    change (Burst.parity_check c) with H in *.
    rewrite (wrap_small (size H)) in Hb by lia.
    rewrite (wrap_small (n - i)) by lia.
    destruct (shl_range s (size H) n ltac:(lia) ltac:(lia) Hs) as [_ Hshl].
    rewrite burst_shift_syndrome by lia.
    rewrite <- hamming_distance_coset, lxor_cancel.
    rewrite rotate_right_left, weight_rotate_left by lia.
    rewrite weight_shl, (weight_shorter n (size H)) by lia.
    rewrite (nth_map_default _ _ _ 0 0) in Hb by (unfold size in Hi; lia).
    fold s in Hb.
    destruct (get_burst_length_bounds_aux s (size H) ltac:(lia))
      as (b & Eb & Hw).
    rewrite get_burst_length_value in Eb. injection Eb as Eb.
    rewrite Eb in Hb. lia.
  - exists w, [no_syndrome_found; failed_to_decode].
    split; [reflexivity|]. split; [|reflexivity].
    rewrite (proj2 (hamming_distance_zero n w w ltac:(lia))); [lia|reflexivity].
Qed.

Lemma burst_decoder_changes_at_most_three_bits_witness :
  exists decoded_word events,
    Burst.decode_word (Burst.new [7] [3; 5] 3) 4 3 = Ok (decoded_word, events)
    /\ hamming_distance 3 3 decoded_word
       <= Burst.max_burst_length (Burst.new [7] [3; 5] 3)
    /\ Burst.max_burst_length (Burst.new [7] [3; 5] 3) = 3.
Proof.
  apply (burst_decoder_changes_at_most_three_bits [7] [3; 5] 3 3 4%nat);
    cbn; lia.
Defined.

(** ** Further properties: the reordering of the shifts *)

(** X26. The reordering loop of [cyclic_codes_2.h] keeps the first entry
    of a list and reverses the order of the others; it throws
    [out_of_range] for an empty list only, it keeps the length, and
    reordering twice gives the list back. *)
Theorem reorder_involution :
  forall cyclic_shifts : list Z,
    size cyclic_shifts <= UINT_MAX ->
    (cyclic_shifts = [] -> Burst.reorder cyclic_shifts = Err out_of_range)
    /\ (cyclic_shifts <> [] ->
        exists received_cyclic_shifts,
          Burst.reorder cyclic_shifts = Ok received_cyclic_shifts
          /\ size received_cyclic_shifts = size cyclic_shifts
          /\ at_ received_cyclic_shifts 0 = at_ cyclic_shifts 0
          /\ (forall i, 1 <= i < size cyclic_shifts ->
                        at_ received_cyclic_shifts i
                        = at_ cyclic_shifts (size cyclic_shifts - i))
          /\ Burst.reorder received_cyclic_shifts = Ok cyclic_shifts).
Proof.
  intros l _. split; [intros ->; reflexivity|].
  intros Hne. destruct l as [|x l]; [congruence|].
  exists (x :: rev l). split; [apply reorder_value|].
  split; [unfold size; cbn [length]; now rewrite length_rev|].
  split; [reflexivity|]. split.
  - intros i Hi. rewrite size_cons in Hi |- *.
    rewrite !at_cons_pos by lia.
    replace (i - 1) with (Z.of_nat (Z.to_nat (i - 1))) by lia.
    replace (1 + size l - i - 1)
      with (Z.of_nat (Z.to_nat (size l - i))) by lia.
    rewrite !at_nth_error.
    rewrite nth_error_rev.
    replace (Z.to_nat (i - 1) <? length l)%nat with true
      by (symmetry; apply Nat.ltb_lt; unfold size in Hi; lia).
    unfold size in *.
    replace (length l - S (Z.to_nat (i - 1)))%nat
      with (Z.to_nat (Z.of_nat (length l) - i)) by lia.
    reflexivity.
  - rewrite reorder_value. now rewrite rev_involutive.
Qed.

Lemma reorder_involution_witness :
  exists received_cyclic_shifts,
    Burst.reorder [1; 2; 4; 8] = Ok received_cyclic_shifts
    /\ size received_cyclic_shifts = size [1; 2; 4; 8]
    /\ at_ received_cyclic_shifts 0 = at_ [1; 2; 4; 8] 0
    /\ (forall i, 1 <= i < size [1; 2; 4; 8] ->
                  at_ received_cyclic_shifts i
                  = at_ [1; 2; 4; 8] (size [1; 2; 4; 8] - i))
    /\ Burst.reorder received_cyclic_shifts = Ok [1; 2; 4; 8].
Proof.
  destruct (reorder_involution [1; 2; 4; 8]) as [_ H];
    [vm_compute; discriminate|].
  apply H. discriminate.
Defined.

(** X27. The two headers compute the same syndromes in a different order:
    the list of [get_syndromes] in [cyclic_codes_2.h] is the list that
    [decode_word] of [cyclic_codes.h] computes, reordered (first entry
    kept, the others reversed). *)
Theorem syndromes_reordered :
  forall generator parity_check n received_word,
    0 < n <= 32 ->
    exists syndromes,
      WeightBound.syndromes_of (WeightBound.new generator parity_check n)
        received_word
      = Ok syndromes
      /\ Burst.get_syndromes (Burst.new generator parity_check n)
           received_word
         = Burst.reorder syndromes.
Proof.
  intros G H n w Hn.
  exists (map (syndrome_of_word H n) (get_cyclic_shifts w n)).
  split; [apply (weight_syndromes_value (WeightBound.new G H n) w); cbn; lia|].
  rewrite (burst_syndromes_value (Burst.new G H n) w) by (cbn; lia).
  cbn [Burst.parity_check Burst.code_length Burst.new].
  destruct (get_cyclic_shifts_shape w n) as (l & -> & _).
  cbn [map tl]. rewrite reorder_value. now rewrite map_rev.
Qed.

Lemma syndromes_reordered_witness :
  exists syndromes,
    WeightBound.syndromes_of (WeightBound.new [4; 2] [1] 3) 2 = Ok syndromes
    /\ Burst.get_syndromes (Burst.new [4; 2] [1] 3) 2
       = Burst.reorder syndromes.
Proof. apply (syndromes_reordered [4; 2] [1] 3 2). lia. Defined.
